(** * EDA helpers of [src/utils.py]: outliers, Cramér's V, ANOVA table, prevalence

    A shallow embedding of the statistical helpers of [utils.py]
    ([find_outliers], [count_group_total_percentage], [cramers_v],
    [categorical_correlation_matrix], [categorical_and_numeric_correlation],
    [count_prevalence_rate]) together with the pandas / numpy / scipy /
    statsmodels calls they are made of.

    Numbers.  Python floats are modelled by exact numbers extended with the
    IEEE special values: rationals [Q] where the computation is rational
    (quantiles, chi-squared), reals [R] where a square root or the normal
    quantile enters.  Floating-point rounding is not modelled by these
    definitions, which give the exact value of the expression the code
    evaluates: a statement about a computed number either allows for the
    rounding by a tolerance or is restricted to inputs on which the float
    computation is exact.  Module [Float64] replays the Wilson interval in
    binary64. *)

From Stdlib Require Import List Ascii String ZArith QArith Qround Qabs Reals.
From Stdlib Require Import Qreals.
From Stdlib Require PrimFloat.
From Stdlib Require Import Lia Lra Lqa Psatz Permutation Sorted Bool.
Import ListNotations.

(* ================================================================== *)
(** ** Python results: a value or a raised exception *)

Inductive exn : Type :=
| KeyError                 (* df[col] on a name that is not a column *)
| TypeError                (* numeric operation on labels; f_oneway arity *)
| ValueError               (* chi2_contingency on a table without data *)
| UndefinedVariableError.  (* DataFrame.query on an unknown name *)

Inductive result (A : Type) : Type :=
| Ok (a : A)
| Raise (e : exn).

Arguments Ok {A} a.
Arguments Raise {A} e.

Definition bind {A B} (m : result A) (k : A -> result B) : result B :=
  match m with
  | Ok a => k a
  | Raise e => Raise e
  end.

Notation "x <- m ;; k" := (bind m (fun x => k))
  (at level 61, m at next level, right associativity).

(** [for x in xs: ys.append(f x)], stopping at the first exception. *)
Fixpoint mapM {A B} (f : A -> result B) (xs : list A) : result (list B) :=
  match xs with
  | [] => Ok []
  | x :: xs' => y <- f x ;; ys <- mapM f xs' ;; Ok (y :: ys)
  end.

Definition raises {A} (m : result A) : Prop := exists e, m = Raise e.
Definition returns {A} (m : result A) : Prop := exists a, m = Ok a.

(* ================================================================== *)
(** ** Tables: cells, rows, data frames *)

(** A cell holds a number, a label, or is missing (NaN / None). *)
Inductive cell : Type :=
| Num (q : Q)
| Str (s : string)
| NA.

(** A row keeps its index label and one cell per column. *)
Record Row : Type := mkRow { label : Z; cells : list cell }.

Record DataFrame : Type := mkDF { columns : list string; rows : list Row }.

Definition Series := list cell.

Fixpoint index_of (name : string) (names : list string) : option nat :=
  match names with
  | [] => None
  | n :: ns => if String.eqb name n then Some O
               else option_map S (index_of name ns)
  end.

Definition at_col (pos : nat) (r : Row) : cell := nth pos (cells r) NA.

(** [df[col]]: the column as a series, [KeyError] when there is none. *)
Definition getitem (df : DataFrame) (col : string) : result Series :=
  match index_of col (columns df) with
  | Some pos => Ok (map (at_col pos) (rows df))
  | None => Raise KeyError
  end.

(** [len(df)] *)
Definition len (df : DataFrame) : Z := Z.of_nat (List.length (rows df)).

(** The numeric view of a series: numbers and missing entries; a label in a
    numeric reduction or comparison is a [TypeError]. *)
Fixpoint to_numeric (s : Series) : result (list (option Q)) :=
  match s with
  | [] => Ok []
  | Num q :: s' => vs <- to_numeric s' ;; Ok (Some q :: vs)
  | NA :: s' => vs <- to_numeric s' ;; Ok (None :: vs)
  | Str _ :: _ => Raise TypeError
  end.

(** The non-missing entries of a numeric series, in order ([skipna]). *)
Fixpoint dropna (vs : list (option Q)) : list Q :=
  match vs with
  | [] => []
  | Some q :: vs' => q :: dropna vs'
  | None :: vs' => dropna vs'
  end.

(* ================================================================== *)
(** ** Sorting by a rational key (ascending, stable) *)

Section SortBy.
Variable A : Type.
Variable key : A -> Q.

Fixpoint insert_by (a : A) (l : list A) : list A :=
  match l with
  | [] => [a]
  | b :: l' => if Qle_bool (key a) (key b) then a :: l
               else b :: insert_by a l'
  end.

Fixpoint sort_by (l : list A) : list A :=
  match l with
  | [] => []
  | a :: l' => insert_by a (sort_by l')
  end.
End SortBy.

Arguments insert_by {A} key a l.
Arguments sort_by {A} key l.

(* ================================================================== *)
(** ** [find_outliers]  (utils.py, lines 31-52) *)

(** [Series.quantile(q)] with the default [interpolation='linear']: missing
    entries are dropped; no entry left gives NaN ([None]); otherwise, on the
    sorted values [a], with [h = (m-1) q], [lo = floor h], [hi = lo + 1]
    clipped to [m-1], the result is [a[lo] + (a[hi] - a[lo]) (h - lo)]. *)
Definition lerp (a b t : Q) : Q := a + (b - a) * t.

Definition percentile_linear (a : list Q) (q : Q) : Q :=
  let m := Z.of_nat (List.length a) in
  let h := inject_Z (m - 1) * q in
  let lo := Qfloor h in
  let hi := Z.min (lo + 1) (m - 1) in
  lerp (nth (Z.to_nat lo) a 0) (nth (Z.to_nat hi) a 0) (h - inject_Z lo).

Definition quantile (s : Series) (q : Q) : result (option Q) :=
  vs <- to_numeric s ;;
  match dropna vs with
  | [] => Ok None
  | a => Ok (Some (percentile_linear (sort_by (fun v => v) a) q))
  end.

(** Float arithmetic on a possibly-NaN rational: NaN propagates. *)
Definition lift2 (f : Q -> Q -> Q) (a b : option Q) : option Q :=
  match a, b with
  | Some x, Some y => Some (f x y)
  | _, _ => None
  end.

(** The row test of the query string [col < lower or col > upper]; a missing
    cell compares false on both sides.  The test compares exact numbers
    where pandas compares [float64]: the two agree where the fences and the
    values are computed without rounding (see [small_integers]). *)
Definition outside (lower upper : Q) (c : cell) : bool :=
  match c with
  | Num v => negb (Qle_bool lower v) || negb (Qle_bool v upper)
  | _ => false
  end.

(** *** The text of the query

    Line 49 pastes the column *name* into the text of the expression, so
    what the query filters on is what that text means to pandas' expression
    parser, not the column the name was looked up under on lines 43-44. *)

Definition is_letter (c : ascii) : bool :=
  let n := nat_of_ascii c in
  ((65 <=? n) && (n <=? 90) || (97 <=? n) && (n <=? 122))%nat.

Definition is_digit (c : ascii) : bool :=
  let n := nat_of_ascii c in ((48 <=? n) && (n <=? 57))%nat.

Definition is_name_start (c : ascii) : bool :=
  is_letter c || Ascii.eqb c "_"%char.

Definition is_name_part (c : ascii) : bool :=
  is_name_start c || is_digit c.

(** An identifier of Python in ASCII. *)
Definition is_identifier (s : string) : bool :=
  match s with
  | EmptyString => false
  | String c s' =>
      is_name_start c && forallb is_name_part (list_ascii_of_string s')
  end.

(** Words that are not read as a column, or not by every engine of the
    query: the keywords of Python, the names the expression scope
    predefines ([DEFAULT_GLOBALS]), and the function names of the
    [numexpr] engine, which reads them as its functions. *)
Definition reserved_words : list string :=
  ["False"; "None"; "True"; "and"; "as"; "assert"; "async"; "await";
   "break"; "class"; "continue"; "def"; "del"; "elif"; "else"; "except";
   "finally"; "for"; "from"; "global"; "if"; "import"; "in"; "is";
   "lambda"; "nonlocal"; "not"; "or"; "pass"; "raise"; "return"; "try";
   "while"; "with"; "yield";
   "Timestamp"; "datetime"; "list"; "dict"; "inf"; "Inf";
   "copy"; "ones_like"; "sqrt"; "sin"; "cos"; "tan"; "arcsin"; "arccos";
   "arctan"; "sinh"; "cosh"; "tanh"; "arcsinh"; "arccosh"; "arctanh";
   "fmod"; "arctan2"; "log"; "log1p"; "log10"; "log2"; "exp"; "expm1";
   "exp2"; "abs"; "ceil"; "floor"; "where"; "real"; "imag"; "complex";
   "conj"; "sum"; "prod"; "min"; "max"; "contains"; "div"; "isnan";
   "isfinite"; "isinf"; "signbit"; "round"; "trunc"; "sign"; "hypot";
   "maximum"; "minimum"; "copysign"; "nextafter"; "logaddexp"]%string.

(** A name the expression resolves among the columns of the frame: an
    identifier that is no reserved word and does not carry the prefix the
    parser gives to [@]-variables. *)
Definition is_name (s : string) : bool :=
  is_identifier s
  && negb (existsb (String.eqb s) reserved_words)
  && negb (String.prefix "__pd_eval_local_" s).

(** [strip_close s] is [Some t] when [s] is [t] followed by a closing
    parenthesis. *)
Fixpoint strip_close (s : string) : option string :=
  match s with
  | EmptyString => None
  | String c EmptyString =>
      if Ascii.eqb c ")"%char then Some EmptyString else None
  | String c s' => option_map (String c) (strip_close s')
  end.

(** The column an operand text stands for, for the two shapes read here: a
    name, and a name in one pair of parentheses (which the parser drops).
    Any other text (blanks, operators, literals, calls, ...) is left to
    [query_other] below. *)
Definition operand_column (text : string) : option string :=
  if is_name text then Some text
  else match text with
       | String c rest =>
           if Ascii.eqb c "("%char
           then match strip_close rest with
                | Some inner => if is_name inner then Some inner else None
                | None => None
                end
           else None
       | EmptyString => None
       end.

(** The sort key of a row with a number in the column. *)
Definition num_key (pos : nat) (r : Row) : Q :=
  match at_col pos r with
  | Num v => v
  | _ => 0
  end.

Definition has_number (pos : nat) (r : Row) : bool :=
  match at_col pos r with
  | Num _ => true
  | _ => false
  end.

(** [DataFrame.sort_values(col)], ascending, rows without a number last
    ([na_position='last']) in frame order.  pandas sorts with an unstable
    algorithm by default, so the relative order of rows with equal keys is
    not determined by the code; this model keeps them in frame order. *)
Definition sort_values (df : DataFrame) (col : string) : result DataFrame :=
  match index_of col (columns df) with
  | Some pos =>
      Ok (mkDF (columns df)
               (sort_by (num_key pos) (filter (has_number pos) (rows df))
                  ++ filter (fun r => negb (has_number pos r)) (rows df)))
  | None => Raise KeyError
  end.

(** [iloc[-n:]] on a list, and [DataFrame.tail(n)]: nothing for [n = 0],
    otherwise [iloc[-n:]], that is the last [n] rows for a positive [n] and
    all but the first [-n] rows for a negative one. *)
Definition last_rows {A} (n : Z) (l : list A) : list A :=
  if (n =? 0)%Z then []
  else if (0 <? n)%Z then skipn (List.length l - Z.to_nat n) l
  else skipn (Z.to_nat (- n)) l.

Definition tail (df : DataFrame) (n : Z) : DataFrame :=
  mkDF (columns df) (last_rows n (rows df)).

(** A query by frame, pasted column text and the two bounds. *)
Definition query_fn : Type :=
  DataFrame -> string -> option Q -> option Q -> result DataFrame.

Section FindOutliers.

(** What [DataFrame.query] returns for the expression texts this model does
    not read: nothing is assumed about it. *)
Variable query_other : query_fn.

(** [df.query(f"{col} < {lower_bound} or {col} > {upper_bound}")].  The
    bounds are formatted into the expression text: a finite bound reads
    back as the same number; a NaN bound is printed as the name [nan],
    which the query resolves among the columns (of the special values only
    [inf] and [Inf] are predefined names): without a column of that name
    the query raises [UndefinedVariableError], the error an operand that
    names no column gives too.  Comparing a label with a number is a
    [TypeError]. *)
Definition query (df : DataFrame) (col : string) (lower upper : option Q)
  : result DataFrame :=
  match operand_column col with
  | Some name =>
      match lower, upper with
      | Some lo, Some up =>
          match index_of name (columns df) with
          | Some pos =>
              _ <- to_numeric (map (at_col pos) (rows df)) ;;
              Ok (mkDF (columns df)
                       (filter (fun r => outside lo up (at_col pos r))
                               (rows df)))
          | None => Raise UndefinedVariableError
          end
      | _, _ =>
          match index_of "nan" (columns df) with
          | Some _ => query_other df col lower upper
          | None => Raise UndefinedVariableError
          end
      end
  | None => query_other df col lower upper
  end.

Definition find_outliers (df : DataFrame) (col : string) (outliers_num : Z)
  : result DataFrame :=
  s1 <- getitem df col ;;
  Q1 <- quantile s1 (1 # 4) ;;
  s3 <- getitem df col ;;
  Q3 <- quantile s3 (3 # 4) ;;
  let IQR := lift2 Qminus Q3 Q1 in
  let lower_bound := lift2 Qminus Q1 (lift2 Qmult (Some (3 # 2)) IQR) in
  let upper_bound := lift2 Qplus Q3 (lift2 Qmult (Some (3 # 2)) IQR) in
  selected <- query df col lower_bound upper_bound ;;
  sorted <- sort_values selected col ;;
  Ok (tail sorted outliers_num).

End FindOutliers.

(** A one-column frame over the given cells, indexed 0, 1, 2, ... *)
Definition frame_of (col : string) (vs : list cell) : DataFrame :=
  mkDF [col] (map (fun p => mkRow (Z.of_nat (fst p)) [snd p])
                  (combine (seq 0 (List.length vs)) vs)).

Definition nums (l : list Z) : list cell := map (fun z => Num (inject_Z z)) l.

(** The data set of the spec's outlier example. *)
Definition spec_example : DataFrame :=
  frame_of "v" (nums [1; 2; 3; 4; 5; 6; 7; 8; 9; 100]%Z).

(* ================================================================== *)
(** ** Floats with the IEEE special values, over a carrier of exact numbers *)

Inductive fl (A : Type) : Type :=
| Fin (a : A)
| PInf
| NInf
| NaN.

Arguments Fin {A} a.
Arguments PInf {A}.
Arguments NInf {A}.
Arguments NaN {A}.

(** numpy's true division of a float by an integer: a zero divisor gives
    NaN for [0/0] and a signed infinity otherwise (a warning, no exception). *)
Definition true_divide (a : Q) (d : Z) : fl Q :=
  if (d =? 0)%Z then
    match Qcompare a 0 with
    | Eq => NaN
    | Gt => PInf
    | Lt => NInf
    end
  else Fin (a / inject_Z d).

(** [np.sqrt]: NaN below zero. *)
Definition np_sqrt (x : fl Q) : fl R :=
  match x with
  | Fin q => if Qle_bool 0 q then Fin (sqrt (Q2R q)) else NaN
  | PInf => PInf
  | NInf => NaN
  | NaN => NaN
  end.

(* ================================================================== *)
(** ** [cramers_v]  (utils.py, lines 554-570) *)

(** Python's [==] on cells: NaN equals nothing. *)
Definition cell_eqb (a b : cell) : bool :=
  match a, b with
  | Num x, Num y => Qeq_bool x y
  | Str s, Str t => String.eqb s t
  | _, _ => false
  end.

Definition isna (c : cell) : bool :=
  match c with NA => true | _ => false end.

(** Distinct labels in order of first appearance; missing cells are one
    label here (as in [Series.unique()]). *)
Definition cell_same (a b : cell) : bool :=
  (isna a && isna b) || cell_eqb a b.

Fixpoint unique (l : list cell) : list cell :=
  match l with
  | [] => []
  | a :: l' => a :: filter (fun b => negb (cell_same a b)) (unique l')
  end.

Definition Zsum (l : list Z) : Z := fold_right Z.add 0%Z l.
Definition Qsum (l : list Q) : Q := fold_right Qplus 0 l.

(** A matrix of counts, row by row. *)
Definition matrix := list (list Z).

Definition entry (M : matrix) (i j : nat) : Z := nth j (nth i M []) 0%Z.
Definition nrows (M : matrix) : nat := List.length M.
Definition ncols (M : matrix) : nat := List.length (hd [] M).

(** [pd.crosstab(x, y)]: the pairs with both entries present are counted by
    (label of x, label of y); one row per observed label of [x], one column
    per observed label of [y].  pandas lists the labels in sorted order;
    here they come in order of first appearance, which permutes rows and
    columns and changes none of the sums taken below. *)
Definition observed_pairs (x y : Series) : list (cell * cell) :=
  filter (fun p => negb (isna (fst p)) && negb (isna (snd p))) (combine x y).

Definition count_pair (ps : list (cell * cell)) (a b : cell) : Z :=
  Z.of_nat (List.length
              (filter (fun p => cell_eqb (fst p) a && cell_eqb (snd p) b) ps)).

Definition row_labels (x y : Series) : list cell :=
  unique (map fst (observed_pairs x y)).
Definition col_labels (x y : Series) : list cell :=
  unique (map snd (observed_pairs x y)).

Definition crosstab (x y : Series) : matrix :=
  map (fun a => map (fun b => count_pair (observed_pairs x y) a b)
                    (col_labels x y))
      (row_labels x y).

(** Margins of a table, as numpy takes them. *)
Definition row_sum (M : matrix) (i : nat) : Z :=
  Zsum (map (fun j => entry M i j) (seq 0 (ncols M))).
Definition col_sum (M : matrix) (j : nat) : Z :=
  Zsum (map (fun i => entry M i j) (seq 0 (nrows M))).

(** [observed.sum()] *)
Definition total (M : matrix) : Z :=
  Zsum (map (row_sum M) (seq 0 (nrows M))).

(** [scipy.stats.contingency.expected_freq]: product of the margins over
    the total. *)
Definition expected (M : matrix) (i j : nat) : Q :=
  inject_Z (row_sum M i * col_sum M j) / inject_Z (total M).

Definition cells_of (M : matrix) : list (nat * nat) :=
  list_prod (seq 0 (nrows M)) (seq 0 (ncols M)).

Definition Qsgn (d : Q) : Q :=
  match Qcompare d 0 with
  | Lt => - (1)
  | Eq => 0
  | Gt => 1
  end.

Definition Qmin2 (a b : Q) : Q := if Qle_bool a b then a else b.

(** Yates' correction for continuity, as [chi2_contingency] applies it: each
    observed count moves towards its expected value by [min(0.5, |diff|)]. *)
Definition yates (o e : Q) : Q :=
  let diff := e - o in
  o + Qmin2 (1 # 2) (Qabs diff) * Qsgn diff.

(** One term of [power_divergence] with the default [lambda_]: Pearson's
    [(f_obs - f_exp)**2 / f_exp]. *)
Definition pearson_term (o e : Q) : Q := (o - e) * (o - e) / e.

(** The statistic summed over the table, for a given adjustment of the
    observed counts. *)
Definition chi2_sum (adjust : Q -> Q -> Q) (M : matrix) : Q :=
  Qsum (map (fun i =>
          Qsum (map (fun j =>
                  pearson_term (adjust (inject_Z (entry M i j)) (expected M i j))
                               (expected M i j))
                    (seq 0 (ncols M))))
            (seq 0 (nrows M))).

(** [scipy.stats.chi2_contingency(observed)[0]] with its defaults
    ([correction=True], [lambda_=None]).  It raises [ValueError] on a
    negative count, on a table of size 0 and on a zero expected frequency;
    for [dof = 0] the statistic is [0.0]; for [dof = 1] the observed counts
    are Yates-corrected first. *)
Definition chi2_contingency (observed : matrix) : result Q :=
  if existsb (fun p => (entry observed (fst p) (snd p) <? 0)%Z)
             (cells_of observed)
  then Raise ValueError
  else if (Z.of_nat (nrows observed * ncols observed) =? 0)%Z
  then Raise ValueError
  else if existsb (fun p => Qeq_bool (expected observed (fst p) (snd p)) 0)
                  (cells_of observed)
  then Raise ValueError
  else
    let r := Z.of_nat (nrows observed) in
    let k := Z.of_nat (ncols observed) in
    let dof := (r * k - (r + k) + 2 - 1)%Z in
    if (dof =? 0)%Z then Ok 0
    else if (dof =? 1)%Z then Ok (chi2_sum yates observed)
    else Ok (chi2_sum (fun o _ => o) observed).

(** [contingency_table.sum().sum()]: the column sums, summed. *)
Definition sum_sum (M : matrix) : Z :=
  Zsum (map (col_sum M) (seq 0 (ncols M))).

Definition cramers_v (x y : Series) : result (fl R) :=
  let contingency_table := crosstab x y in
  chi2 <- chi2_contingency contingency_table ;;
  let n := sum_sum contingency_table in
  let r := Z.of_nat (nrows contingency_table) in
  let k := Z.of_nat (ncols contingency_table) in
  Ok (np_sqrt (true_divide chi2 (n * (Z.min r k - 1)))).

(** The rational under the square root, for evaluation. *)
Definition cramers_v_radicand (x y : Series) : result (fl Q) :=
  let contingency_table := crosstab x y in
  chi2 <- chi2_contingency contingency_table ;;
  let n := sum_sum contingency_table in
  let r := Z.of_nat (nrows contingency_table) in
  let k := Z.of_nat (ncols contingency_table) in
  Ok (true_divide chi2 (n * (Z.min r k - 1))).

(** *** Cramér's V as the specification words it

    Pearson's chi-squared statistic over the table, no continuity
    correction; [n] the total count; [r], [k] the table's dimensions;
    the result [sqrt(chi2 / (n (min(r,k) - 1)))]. *)
Definition pearson_chi2 (M : matrix) : Q := chi2_sum (fun o _ => o) M.

Definition cramers_v_formula (x y : Series) : R :=
  let M := crosstab x y in
  sqrt (Q2R (pearson_chi2 M
             / inject_Z (total M
                         * (Z.min (Z.of_nat (nrows M)) (Z.of_nat (ncols M)) - 1)))).

Definition strs (l : list string) : Series := map Str l.

(* ================================================================== *)
(** ** Float arithmetic over the reals *)

Definition fneg (a : fl R) : fl R :=
  match a with
  | Fin x => Fin (- x)%R
  | PInf => NInf
  | NInf => PInf
  | NaN => NaN
  end.

Definition fadd (a b : fl R) : fl R :=
  match a, b with
  | NaN, _ => NaN
  | _, NaN => NaN
  | Fin x, Fin y => Fin (x + y)%R
  | PInf, NInf => NaN
  | NInf, PInf => NaN
  | PInf, _ => PInf
  | _, PInf => PInf
  | NInf, _ => NInf
  | _, NInf => NInf
  end.

Definition fsub (a b : fl R) : fl R := fadd a (fneg b).

(** An infinity scaled by a finite factor: NaN for the factor 0. *)
Definition scale_inf (positive : bool) (x : R) : fl R :=
  if Req_EM_T x 0 then NaN
  else if Rlt_dec 0 x then (if positive then PInf else NInf)
  else (if positive then NInf else PInf).

Definition fmul (a b : fl R) : fl R :=
  match a, b with
  | NaN, _ => NaN
  | _, NaN => NaN
  | Fin x, Fin y => Fin (x * y)%R
  | PInf, Fin y => scale_inf true y
  | NInf, Fin y => scale_inf false y
  | Fin x, PInf => scale_inf true x
  | Fin x, NInf => scale_inf false x
  | PInf, PInf => PInf
  | NInf, NInf => PInf
  | PInf, NInf => NInf
  | NInf, PInf => NInf
  end.

Definition fdiv (a b : fl R) : fl R :=
  match a, b with
  | NaN, _ => NaN
  | _, NaN => NaN
  | Fin x, Fin y =>
      if Req_EM_T y 0 then
        (if Req_EM_T x 0 then NaN
         else if Rlt_dec 0 x then PInf else NInf)
      else Fin (x / y)%R
  | Fin _, _ => Fin 0%R
  | PInf, Fin y => if Rlt_dec y 0 then NInf else PInf
  | NInf, Fin y => if Rlt_dec y 0 then PInf else NInf
  | _, _ => NaN
  end.

Definition fsqrt (a : fl R) : fl R :=
  match a with
  | Fin x => if Rlt_dec x 0 then NaN else Fin (sqrt x)
  | PInf => PInf
  | NInf => NaN
  | NaN => NaN
  end.

(** [a <= b] on floats: false as soon as one side is NaN. *)
Definition fle (a b : fl R) : Prop :=
  match a, b with
  | NaN, _ => False
  | _, NaN => False
  | Fin x, Fin y => (x <= y)%R
  | NInf, _ => True
  | _, PInf => True
  | _, _ => False
  end.

(* ================================================================== *)
(** ** [categorical_and_numeric_correlation]  (utils.py, lines 647-672) *)

(** [df[df[col] == category]]: the rows whose cell equals the category. *)
Definition select_eq (df : DataFrame) (col : string) (category : cell)
  : result DataFrame :=
  s <- getitem df col ;;
  Ok (mkDF (columns df)
           (map snd (filter (fun p => cell_eqb (fst p) category)
                            (combine s (rows df))))).

(** A Python dict in insertion order: assignment to a present key keeps its
    place. *)
Fixpoint dict_set {V} (d : list (string * V)) (k : string) (v : V)
  : list (string * V) :=
  match d with
  | [] => [(k, v)]
  | (k', v') :: d' =>
      if String.eqb k k' then (k', v) :: d' else (k', v') :: dict_set d' k v
  end.

(** [groups = [df[df[col] == category][numeric_feature]
              for category in df[col].unique()]]: one sample per distinct
    value of the column.  [unique()] lists a missing value as a value of
    its own, and no cell equals it, so its sample is empty. *)
Definition groups_of (df : DataFrame) (col numeric_feature : string)
  : result (list Series) :=
  s <- getitem df col ;;
  mapM (fun category =>
          sel <- select_eq df col category ;;
          getitem sel numeric_feature)
       (unique s).

Section Anova.
(** The p-value of the one-way F-test on at least two non-empty samples:
    the survival function of the F distribution is not modelled. *)
Variable anova_pvalue : list (list (option Q)) -> fl R.

(** The p-value of [scipy.stats.f_oneway] on the given samples (scipy 1.6
    and later): fewer than two samples is a [TypeError]; a sample of
    length 0 gives NaN (with a warning). *)
Definition f_oneway (samples : list Series) : result (fl R) :=
  if (List.length samples <? 2)%nat then Raise TypeError
  else
    arrays <- mapM to_numeric samples ;;
    if existsb (fun a => (List.length a =? 0)%nat) arrays then Ok NaN
    else Ok (anova_pvalue arrays).

Fixpoint p_values_loop (df : DataFrame) (numeric_feature : string)
         (categorical_columns : list string)
         (p_values : list (string * fl R))
  : result (list (string * fl R)) :=
  match categorical_columns with
  | [] => Ok p_values
  | col :: rest =>
      groups <- groups_of df col numeric_feature ;;
      p_value <- f_oneway groups ;;
      p_values_loop df numeric_feature rest (dict_set p_values col p_value)
  end.

(** The returned frame, as its rows (Feature, p_value). *)
Definition categorical_and_numeric_correlation
           (df : DataFrame) (numeric_feature : string)
           (categorical_columns : list string)
  : result (list (string * fl R)) :=
  p_values_loop df numeric_feature categorical_columns [].
End Anova.

(* ================================================================== *)
(** ** [count_prevalence_rate]  (utils.py, lines 704-741) *)

(** [Series.mean()] and [Series.sum()], both skipping missing entries; the
    mean of no entry is NaN, the sum of no entry is 0. *)
Definition series_mean (s : Series) : result (fl R) :=
  vs <- to_numeric s ;;
  match dropna vs with
  | [] => Ok NaN
  | a => Ok (Fin (Q2R (Qsum a / inject_Z (Z.of_nat (List.length a)))))
  end.

Definition series_sum (s : Series) : result Q :=
  vs <- to_numeric s ;;
  Ok (Qsum (dropna vs)).

Record PrevalenceRow : Type := mkPrev {
  Condition : string;
  Prevalence_Rate : fl R;
  Lower_Bound : fl R;
  Upper_Bound : fl R
}.

Section Wilson.
(** [scipy.stats.norm.isf(alpha / 2)] for [alpha = 0.05]: the 97.5th
    percentile of the standard normal distribution, 1.959963984540... *)
Variable crit : R.

(** [statsmodels.stats.proportion.proportion_confint(count, nobs,
    alpha=0.05, method="wilson")].  The Wilson branch is not clipped
    (only [normal] and [agresti_coull] are).  The operations are those of
    the source on exact reals; [Float64.proportion_confint] below has them
    on floats. *)
Definition proportion_confint (count : Q) (nobs : Z) : fl R * fl R :=
  let count_a := Fin (Q2R count) in
  let nobs_a := Fin (IZR nobs) in
  let q_ := fdiv count_a nobs_a in
  let crit2 := Fin (crit * crit)%R in
  let denom := fadd (Fin 1%R) (fdiv crit2 nobs_a) in
  let center := fdiv (fadd q_ (fdiv crit2 (fmul (Fin 2%R) nobs_a))) denom in
  let dist :=
    fmul (Fin crit)
         (fsqrt (fadd (fdiv (fmul q_ (fsub (Fin 1%R) q_)) nobs_a)
                      (fdiv crit2
                            (fmul (Fin 4%R) (fmul nobs_a nobs_a))))) in
  let dist := fdiv dist denom in
  let ci_low := fsub center dist in
  let ci_upp := fadd center dist in
  (ci_low, ci_upp).

Definition prevalence_of (df : DataFrame) (condition : string)
  : result PrevalenceRow :=
  s <- getitem df condition ;;
  prevalence <- series_mean s ;;
  s' <- getitem df condition ;;
  positive_count <- series_sum s' ;;
  let all_count := len df in
  let '(lower, upper) := proportion_confint positive_count all_count in
  Ok (mkPrev condition prevalence lower upper).

(** The returned frame, as its rows, in the order of [conditions]. *)
Definition count_prevalence_rate (df : DataFrame) (conditions : list string)
  : result (list PrevalenceRow) :=
  mapM (prevalence_of df) conditions.
End Wilson.

(** *** The Wilson score interval as the specification words it *)
Definition wilson_center (z p n : R) : R :=
  ((p + z * z / (2 * n)) / (1 + z * z / n))%R.
Definition wilson_half_width (z p n : R) : R :=
  (z * sqrt (p * (1 - p) / n + z * z / (4 * (n * n))) / (1 + z * z / n))%R.

(** A column is binary when every cell is the number 0 or 1 (booleans
    count as such). *)
Definition binary_cell (c : cell) : bool :=
  match c with
  | Num q => Qeq_bool q 0 || Qeq_bool q 1
  | _ => false
  end.

Definition binary_column (df : DataFrame) (col : string) : bool :=
  match getitem df col with
  | Ok s => forallb binary_cell s
  | Raise _ => false
  end.

(* ================================================================== *)
(** ** The Wilson interval in [float64]

    The computation of [proportion_confint] operation by operation on
    IEEE 754 binary64 numbers, to see what rounding does to the figures of a
    row (the model above computes with exact reals). *)

Module Float64.
Import PrimFloat.

(** [scipy.stats.norm.isf(0.025)], which prints as 1.9599639845400545. *)
Definition norm_isf : float := 0x1.f5c0331eeff86p+0%float.

(** [proportion_confint(count, nobs, alpha=0.05, method="wilson")]:
    [q_ = count / nobs], [crit2 = crit**2], [denom = 1 + crit2 / nobs],
    [center = (q_ + crit2 / (2 * nobs)) / denom],
    [dist = crit * sqrt(q_ * (1 - q_) / nobs + crit2 / (4 * nobs**2))],
    [dist /= denom], the bounds [center - dist] and [center + dist]. *)
Definition proportion_confint (count nobs : float) : float * float :=
  let q_ := (count / nobs)%float in
  let crit := norm_isf in
  let crit2 := (crit * crit)%float in
  let denom := (1 + crit2 / nobs)%float in
  let center := ((q_ + crit2 / (2 * nobs)) / denom)%float in
  let dist :=
    (crit * sqrt (q_ * (1 - q_) / nobs + crit2 / (4 * (nobs * nobs))))%float in
  let dist := (dist / denom)%float in
  ((center - dist)%float, (center + dist)%float).

(** The mean of a column of [n] entries with sum [total]. *)
Definition mean (total n : float) : float := (total / n)%float.

(** The row of a column of seven ones: prevalence and upper bound. *)
Definition seven_ones_prevalence : float := mean 7 7.
Definition seven_ones_upper : float := snd (proportion_confint 7 7).

(** The upper bound on 38 ones, and the lower bound on 77 zeros. *)
Definition all_ones_38_upper : float := snd (proportion_confint 38 38).
Definition all_zeros_77_lower : float := fst (proportion_confint 0 77).

Definition one : float := 1%float.
Definition zero : float := 0%float.

(** [a < b] on floats. *)
Definition below (a b : float) : bool := ltb a b.

End Float64.

(* ================================================================== *)
(** ** Vocabulary of the statements *)

(** The cell of a row in the named column of a frame. *)
Definition value_at (df : DataFrame) (col : string) (r : Row) : cell :=
  match index_of col (columns df) with
  | Some pos => at_col pos r
  | None => NA
  end.

(** Two rows in ascending order of the column, both holding a number. *)
Definition col_le (df : DataFrame) (col : string) (r1 r2 : Row) : Prop :=
  match value_at df col r1, value_at df col r2 with
  | Num a, Num b => a <= b
  | _, _ => False
  end.

(** The last [k] elements of a list. *)
Definition lastn {A} (k : nat) (l : list A) : list A :=
  skipn (List.length l - k) l.

(** *** The IQR rule as the specification words it

    Quartiles by linear interpolation between the closest ranks of the
    sorted values: the fractional rank [h = p (m - 1)] lies between the
    ranks [floor h] and [ceil h]. *)
Definition rank_interp (a : list Q) (p : Q) : Q :=
  let h := p * inject_Z (Z.of_nat (List.length a) - 1) in
  let v_lo := nth (Z.to_nat (Qfloor h)) a 0 in
  let v_hi := nth (Z.to_nat (Qceiling h)) a 0 in
  v_lo + (h - inject_Z (Qfloor h)) * (v_hi - v_lo).

Definition iqr_lower (Q1 Q3 : Q) : Q := Q1 - (3 # 2) * (Q3 - Q1).
Definition iqr_upper (Q1 Q3 : Q) : Q := Q3 + (3 # 2) * (Q3 - Q1).

(** The number of non-missing values of a column. *)
Definition count_values (df : DataFrame) (col : string) : nat :=
  match getitem df col with
  | Ok s => List.length (filter (fun c => negb (isna c)) s)
  | Raise _ => O
  end.

(** A numeric column: present, and no cell holds a label. *)
Definition numeric_column (df : DataFrame) (col : string) : bool :=
  match getitem df col with
  | Ok s => forallb (fun c => match c with Str _ => false | _ => true end) s
  | Raise _ => false
  end.

(** The frame [find_outliers] returns on a numeric column with a value. *)
Definition outliers_frame (df : DataFrame) (pos : nat) (a : list Q) (n : Z)
  : DataFrame :=
  let sorted := sort_by (fun v : Q => v) a in
  let Q1 := percentile_linear sorted (1 # 4) in
  let Q3 := percentile_linear sorted (3 # 4) in
  mkDF (columns df)
       (last_rows n
          (sort_by (num_key pos)
             (filter (fun r => outside (iqr_lower Q1 Q3) (iqr_upper Q1 Q3)
                                        (at_col pos r))
                     (rows df)))).

(** What the IQR rule asks of a call on a column with the numeric view [vs]:
    quartiles of the sorted values, the rows outside the fences selected,
    sorted ascending, the last [limit] of them returned. *)
Definition follows_iqr_rule (other : query_fn) (df : DataFrame) (col : string) (limit : Z)
           (vs : list (option Q)) : Prop :=
  exists (a : list Q) (Q1 Q3 : Q) (sel : Row -> bool) (L : list Row)
         (out : DataFrame),
    Permutation a (dropna vs) /\ StronglySorted Qle a
    /\ Q1 == rank_interp a (1 # 4) /\ Q3 == rank_interp a (3 # 4)
    /\ (forall r, sel r = true
                  <-> exists v, value_at df col r = Num v
                                /\ (v < iqr_lower Q1 Q3 \/ iqr_upper Q1 Q3 < v))
    /\ Permutation L (filter sel (rows df))
    /\ StronglySorted (col_le df col) L
    /\ find_outliers other df col limit = Ok out
    /\ columns out = columns df
    /\ rows out = lastn (Z.to_nat limit) L.

(** The spec's worked example: quartiles, upper fence, the flagged row. *)
Definition iqr_example_holds : Prop :=
  exists (s : Series) (q1 q3 : Q),
    getitem spec_example "v" = Ok s
    /\ quantile s (1 # 4) = Ok (Some q1) /\ quantile s (3 # 4) = Ok (Some q3)
    /\ q1 == 13 # 4 /\ q3 == 31 # 4
    /\ q3 - q1 == 9 # 2
    /\ iqr_upper q1 q3 == 29 # 2
    /\ forall other limit, (1 <= limit)%Z ->
         find_outliers other spec_example "v" limit
         = Ok (mkDF ["v"%string] [mkRow 9 [Num (inject_Z 100)]]).

(** A column of whole numbers of magnitude at most 2^40, missing entries
    allowed.  On such a column every [float64] operation of [find_outliers]
    is exact (the quartiles are multiples of 1/4 and the fences multiples
    of 1/8, all below 2^43, and a decimal text of a float reads back as the
    same float), so the exact numbers of this model are the numbers the
    code computes and compares. *)
Definition small_integer (c : cell) : bool :=
  match c with
  | Num q => Qeq_bool q (inject_Z (Qfloor q))
             && Qle_bool (Qabs q) (inject_Z (2 ^ 40))
  | NA => true
  | Str _ => false
  end.

Definition small_integers (df : DataFrame) (col : string) : bool :=
  match getitem df col with
  | Ok s => forallb small_integer s
  | Raise _ => false
  end.

(** A stand-in for [query_other] in examples that do not reach it. *)
Definition unread : query_fn := fun _ _ _ _ => Raise ValueError.

(** A frame where a column is called like another one in parentheses: the
    rows hold 2 in [v], except the first, which holds 1000 there and
    nothing in [(v)]. *)
Definition paren_frame : DataFrame :=
  mkDF ["v"; "(v)"]%string
       [mkRow 0 [Num (inject_Z 1000); NA];
        mkRow 1 [Num (inject_Z 2); Num (inject_Z 1)];
        mkRow 2 [Num (inject_Z 2); Num (inject_Z 2)];
        mkRow 3 [Num (inject_Z 2); Num (inject_Z 3)]].

(** A frame whose only column has a name in parentheses. *)
Definition paren_only : DataFrame :=
  frame_of "(v)" (nums [1; 2; 3; 4; 5; 6; 7; 8; 9; 100]%Z).

(** A frame with two high outliers. *)
Definition two_high : DataFrame :=
  frame_of "v" (nums [1; 2; 3; 4; 5; 6; 7; 8; 9; 100; 200]%Z).

(** A frame whose column has three values. *)
Definition three_values : DataFrame := frame_of "v" (nums [1; 2; 3]%Z).

(** [M'] is [M] with rows and columns exchanged. *)
Definition transposed (M M' : matrix) : Prop :=
  nrows M' = ncols M /\ ncols M' = nrows M
  /\ forall i j, (i < nrows M)%nat -> (j < ncols M)%nat ->
                 entry M' j i = entry M i j.

(** Two results of a rational computation agree: the same exception, or
    equal numbers. *)
Definition same_result (a b : result Q) : Prop :=
  match a, b with
  | Ok u, Ok v => u == v
  | Raise e, Raise e' => e = e'
  | _, _ => False
  end.

Definition swap_pair {A B} (p : A * B) : B * A := (snd p, fst p).

(** The statistic [chi2_contingency] returns on a table that passes its
    checks. *)
Definition chi2_value (M : matrix) : Q :=
  let r := Z.of_nat (nrows M) in
  let k := Z.of_nat (ncols M) in
  let dof := (r * k - (r + k) + 2 - 1)%Z in
  if (dof =? 0)%Z then 0
  else if (dof =? 1)%Z then chi2_sum yates M
  else chi2_sum (fun o _ => o) M.

(** Two binary columns that agree row by row, and a constant column. *)
Definition yes_no : Series := strs ["a"; "a"; "b"; "b"]%string.
Definition constant : Series := strs ["a"; "a"; "a"; "a"]%string.

(** The number of observed categories of a column: its distinct labels,
    missing entries apart. *)
Definition n_observed (x : Series) : nat :=
  List.length (unique (filter (fun c => negb (isna c)) x)).

(** Two columns with two observed categories each whose only rows with both
    entries present carry the same label of the first. *)
Definition x_y_y : Series := [Str "x"; Str "y"; Str "y"].
Definition na_u_v : Series := [NA; Str "u"; Str "v"].

(** Two columns with a table of two rows and three columns. *)
Definition two_by : Series := strs ["x"; "x"; "x"; "y"; "y"; "y"]%string.
Definition three_by : Series := strs ["u"; "v"; "w"; "u"; "u"; "v"]%string.

(** The number of distinct values of a column as [unique()] lists them (a
    missing value counts as one); 0 when there is no such column. *)
Definition n_categories (df : DataFrame) (col : string) : nat :=
  match getitem df col with
  | Ok s => List.length (unique s)
  | Raise _ => O
  end.

(** The number of non-empty samples among the groups of a column. *)
Definition n_nonempty_groups (df : DataFrame) (col numeric_feature : string)
  : nat :=
  match groups_of df col numeric_feature with
  | Ok groups =>
      List.length (filter (fun g => negb (List.length g =? 0)%nat) groups)
  | Raise _ => O
  end.

Definition labelled (l : list (cell * Z)) : DataFrame :=
  mkDF ["g"; "y"]%string
       (map (fun p => mkRow (Z.of_nat (fst p))
                            [fst (snd p); Num (inject_Z (snd (snd p)))])
            (combine (seq 0 (List.length l)) l)).

(** One label and a missing label; one label throughout. *)
Definition one_label_and_missing : DataFrame :=
  labelled [(Str "a", 1); (Str "a", 2); (NA, 3)]%Z.
Definition one_label : DataFrame :=
  labelled [(Str "a", 1); (Str "a", 2); (Str "a", 3)]%Z.

Definition has_column (df : DataFrame) (col : string) : bool :=
  match index_of col (columns df) with
  | Some _ => true
  | None => false
  end.

(** The query text of a call is one this model reads, whatever the bounds:
    the column text is a name and no column of the frame is called [nan]. *)
Definition plain_query (df : DataFrame) (col : string) : bool :=
  is_name col && negb (has_column df "nan").

(** The rounded critical value the specification quotes. *)
Definition z_quoted : R := (1959964 / 1000000)%R.

(** A frame with the column [c] and no row; a frame of 50 ones and 50
    zeros. *)
Definition no_rows : DataFrame := mkDF ["c"%string] [].
Definition fifty_fifty : DataFrame :=
  frame_of "c" (nums (repeat 1%Z 50 ++ repeat 0%Z 50)).

(** The containment the Prevalence Record asks for. *)
Definition interval_ok (row : PrevalenceRow) : Prop :=
  fle (Lower_Bound row) (Prevalence_Rate row)
  /\ fle (Prevalence_Rate row) (Upper_Bound row)
  /\ fle (Fin 0%R) (Lower_Bound row)
  /\ fle (Upper_Bound row) (Fin 1%R).

(** The same up to a tolerance: each comparison may fail by at most [eps],
    which is what rounding leaves of it. *)
Definition interval_within (eps : R) (row : PrevalenceRow) : Prop :=
  match Lower_Bound row, Prevalence_Rate row, Upper_Bound row with
  | Fin lower, Fin prevalence, Fin upper =>
      (lower - eps <= prevalence /\ prevalence <= upper + eps
       /\ - eps <= lower /\ upper <= 1 + eps)%R
  | _, _, _ => False
  end.

(** The tolerance allowed for floating-point rounding (the 1e-9 of the
    specification). *)
Definition rounding : R := (1 / 10 ^ 9)%R.

(** Two floats agree up to rounding: the same special value, or numbers
    within the tolerance of each other. *)
Definition fl_close (a b : fl R) : Prop :=
  match a, b with
  | Fin u, Fin v => (Rabs (u - v) <= rounding)%R
  | PInf, PInf => True
  | NInf, NInf => True
  | NaN, NaN => True
  | _, _ => False
  end.

(** Two outcomes agree up to rounding: the same exception, or values that
    agree up to rounding. *)
Definition outcome_close (a b : result (fl R)) : Prop :=
  match a, b with
  | Ok u, Ok v => fl_close u v
  | Raise e, Raise e' => e = e'
  | _, _ => False
  end.

(** A column of seven ones. *)
Definition seven_ones : DataFrame := frame_of "c" (nums (repeat 1%Z 7)).

(** [df[condition].sum()] as a number (0 when the column is absent or holds
    a label). *)
Definition positive_count (df : DataFrame) (condition : string) : Q :=
  match getitem df condition with
  | Ok s => match series_sum s with
            | Ok c => c
            | Raise _ => 0
            end
  | Raise _ => 0
  end.

(** The Wilson bounds of the specification's closed form. *)
Definition wilson_lower (z p n : R) : R :=
  (wilson_center z p n - wilson_half_width z p n)%R.
Definition wilson_upper (z p n : R) : R :=
  (wilson_center z p n + wilson_half_width z p n)%R.

(** The critical value [norm.isf(0.025)] = 1.959963984540..., to six
    decimals. *)
Definition crit_range (crit : R) : Prop :=
  (1959963 / 1000000 <= crit <= 1959965 / 1000000)%R.

(** The radicand and the denominator of the Wilson formulas. *)
Definition wilson_radicand (z p n : R) : R :=
  (p * (1 - p) / n + z * z / (4 * (n * n)))%R.
Definition wilson_denom (z n : R) : R := (1 + z * z / n)%R.

(* ================================================================== *)
(** ** [categorical_correlation_matrix]  (utils.py, lines 573-597) *)

(** The dtype of a column, as far as [select_dtypes] looks at it. *)
Inductive dtype : Type :=
| ObjectDtype
| CategoryDtype
| NumberDtype.

(** A frame together with the dtype of each of its columns (in column
    order). *)
Record TypedFrame : Type := mkTyped { frame : DataFrame; dtypes : list dtype }.

Definition is_categorical (d : dtype) : bool :=
  match d with
  | ObjectDtype | CategoryDtype => true
  | NumberDtype => false
  end.

(** [df.select_dtypes(include=["object", "category"]).columns]: the names of
    the object and category columns, in frame order. *)
Definition select_dtypes (tf : TypedFrame) : list string :=
  map fst (filter (fun p => is_categorical (snd p))
                  (combine (columns (frame tf)) (dtypes tf))).

(** [enumerate(l)] *)
Definition enumerate {A} (l : list A) : list (nat * A) :=
  combine (seq 0 (List.length l)) l.

(** The value assigned to [corr_matrix.iloc[i, j]]. *)
Definition corr_entry (df : DataFrame) (i : nat) (col1 : string)
           (j : nat) (col2 : string) : result (fl R) :=
  if negb (i =? j)%nat then
    x <- getitem df col1 ;;
    y <- getitem df col2 ;;
    cramers_v x y
  else Ok (Fin 1%R).

(** The returned frame: its index (also its columns) and its values row by
    row. *)
Record CorrMatrix : Type :=
  mkCorr { corr_index : list string; corr_values : list (list (fl R)) }.

(** The two nested loops fill the matrix in row-major order; the first
    exception ends the call.  (Column names are taken to be distinct: with
    a repeated name [df[col]] is a frame, not a series.) *)
Definition categorical_correlation_matrix (tf : TypedFrame)
  : result CorrMatrix :=
  let df := frame tf in
  let categorical_columns := select_dtypes tf in
  values <- mapM (fun ic1 =>
                    mapM (fun jc2 =>
                            corr_entry df (fst ic1) (snd ic1)
                                       (fst jc2) (snd jc2))
                         (enumerate categorical_columns))
                 (enumerate categorical_columns) ;;
  Ok (mkCorr categorical_columns values).

(** The entry of a matrix of floats at a position. *)
Definition corr_at (m : CorrMatrix) (i j : nat) : fl R :=
  nth j (nth i (corr_values m) []) NaN.

(* ================================================================== *)
(** ** [count_group_total_percentage]  (utils.py, lines 345-375)

    The key columns are columns of numbers or labels, not of category
    dtype, so [observed=False] has nothing to add: the groups are the
    observed ones.  Column names of the frame are taken to be distinct. *)

(** The order in which pandas lists group keys: numbers before strings,
    numbers by value, strings by code point, a missing value last. *)
Definition cell_leb (a b : cell) : bool :=
  match a, b with
  | Num x, Num y => Qle_bool x y
  | Num _, _ => true
  | Str _, Num _ => false
  | Str s, Str t => String.leb s t
  | Str _, NA => true
  | NA, NA => true
  | NA, _ => false
  end.

Definition pair_eqb (p q : cell * cell) : bool :=
  cell_eqb (fst p) (fst q) && cell_eqb (snd p) (snd q).

(** Keys of a two-level group index compare level by level. *)
Definition pair_leb (p q : cell * cell) : bool :=
  if cell_eqb (fst p) (fst q) then cell_leb (snd p) (snd q)
  else cell_leb (fst p) (fst q).

Section SortLeb.
Variable A : Type.
Variable leb : A -> A -> bool.

Fixpoint insert_leb (a : A) (l : list A) : list A :=
  match l with
  | [] => [a]
  | b :: l' => if leb a b then a :: l else b :: insert_leb a l'
  end.

Fixpoint sort_leb (l : list A) : list A :=
  match l with
  | [] => []
  | a :: l' => insert_leb a (sort_leb l')
  end.
End SortLeb.

Arguments insert_leb {A} leb a l.
Arguments sort_leb {A} leb l.

Fixpoint unique_pairs (l : list (cell * cell)) : list (cell * cell) :=
  match l with
  | [] => []
  | p :: l' => p :: filter (fun q => negb (pair_eqb p q)) (unique_pairs l')
  end.

(** One row of [count_data]: the two keys and the size of the group. *)
Record GroupSize : Type :=
  mkSize { key1 : cell; key2 : cell; size : Z }.

(** The sizes of the groups of a list of key pairs, sorted by key. *)
Definition groupby_size (ps : list (cell * cell)) : list GroupSize :=
  map (fun g => mkSize (fst g) (snd g) (count_pair ps (fst g) (snd g)))
      (sort_leb pair_leb (unique_pairs ps)).

(** [df.groupby([feature_1, feature_2], observed=False).size()]: rows with a
    missing key are dropped, the groups come sorted by their keys. *)
Definition group_sizes (df : DataFrame) (feature_1 feature_2 : string)
  : result (list GroupSize) :=
  x <- getitem df feature_1 ;;
  y <- getitem df feature_2 ;;
  Ok (groupby_size (observed_pairs x y)).

(** [count_data.groupby(feature_1, observed=False)["count"].sum()]: one
    total per key of the first level, sorted by key. *)
Definition group_totals (count_data : list GroupSize) : list (cell * Z) :=
  map (fun a =>
         (a, Zsum (map size
                       (filter (fun g => cell_eqb (key1 g) a) count_data))))
      (sort_leb cell_leb (unique (map key1 count_data))).

(** The total a left merge on the key attaches to a row: that of the
    matching row of the right frame, a missing value without match. *)
Fixpoint merge_total (a : cell) (totals : list (cell * Z)) : cell :=
  match totals with
  | [] => NA
  | (a', t) :: rest =>
      if cell_eqb a a' then Num (inject_Z t) else merge_total a rest
  end.

(** Element-wise arithmetic of columns.  A zero divisor gives NaN or an
    infinity in numpy; it is a missing value here (no total is zero). *)
Definition div_cell (a b : cell) : cell :=
  match a, b with
  | Num x, Num y => if Qeq_bool y 0 then NA else Num (x / y)
  | _, _ => NA
  end.

Definition times_100 (a : cell) : cell :=
  match a with
  | Num x => Num (x * inject_Z 100)
  | _ => NA
  end.

(** [round(x, 1)] on a column rounds half to even at the first decimal.
    (On floats, a value that should sit exactly on a tie may sit a hair
    beside it; the exact value is rounded here.) *)
Definition round_half_even (t : Q) : Z :=
  let f := Qfloor t in
  match Qcompare (t - inject_Z f) (1 # 2) with
  | Lt => f
  | Gt => (f + 1)%Z
  | Eq => if Z.even f then f else (f + 1)%Z
  end.

Definition round1 (q : Q) : Q :=
  inject_Z (round_half_even (q * inject_Z 10)) / inject_Z 10.

Definition round1_cell (a : cell) : cell :=
  match a with
  | Num x => Num (round1 x)
  | _ => NA
  end.

Fixpoint set_nth {A} (n : nat) (a : A) (l : list A) : list A :=
  match n, l with
  | _, [] => []
  | O, _ :: l' => a :: l'
  | S n', b :: l' => b :: set_nth n' a l'
  end.

(** [df[name] = values]: the column is replaced when there is one of that
    name and appended otherwise. *)
Definition set_column (df : DataFrame) (name : string) (values : list cell)
  : DataFrame :=
  match index_of name (columns df) with
  | Some pos =>
      mkDF (columns df)
           (map (fun rv => mkRow (label (fst rv))
                                 (set_nth pos (snd rv) (cells (fst rv))))
                (combine (rows df) values))
  | None =>
      mkDF (columns df ++ [name])
           (map (fun rv => mkRow (label (fst rv)) (cells (fst rv) ++ [snd rv]))
                (combine (rows df) values))
  end.

Definition nodup_names (names : list string) : bool :=
  forallb (fun p => negb (existsb (String.eqb (snd p))
                                  (firstn (fst p) names)))
          (enumerate names).

(** [reset_index(name=...)] refuses to insert an index level under a name
    the frame already has ([ValueError]); after the merge the column
    [total] exists under that name only if [feature_2] is not called
    [total] as well (else the two get suffixes and the lookup of ["total"]
    is a [KeyError]). *)
Definition count_group_total_percentage
           (df : DataFrame) (feature_1 feature_2 : string)
  : result DataFrame :=
  sizes <- group_sizes df feature_1 feature_2 ;;
  if negb (nodup_names [feature_1; feature_2; "count"%string])
  then Raise ValueError
  else
    let totals := group_totals sizes in
    if String.eqb feature_1 "total" then Raise ValueError
    else if String.eqb feature_2 "total" then Raise KeyError
    else
      let count_data_with_totals :=
        mkDF [feature_1; feature_2; "count"; "total"]%string
             (map (fun ig =>
                     mkRow (Z.of_nat (fst ig))
                           [key1 (snd ig); key2 (snd ig);
                            Num (inject_Z (size (snd ig)));
                            merge_total (key1 (snd ig)) totals])
                  (enumerate sizes)) in
      counts <- getitem count_data_with_totals "count" ;;
      tots <- getitem count_data_with_totals "total" ;;
      let percentage :=
        map (fun ct => round1_cell (times_100 (div_cell (fst ct) (snd ct))))
            (combine counts tots) in
      Ok (set_column count_data_with_totals "percentage" percentage).

(** A frame of two label columns for the examples. *)
Definition two_keys : DataFrame :=
  mkDF ["f"; "g"]%string
       [mkRow 0 [Str "b"; Str "x"]; mkRow 1 [Str "a"; Str "y"];
        mkRow 2 [Str "b"; Str "x"]; mkRow 3 [Str "a"; NA];
        mkRow 4 [Str "b"; Str "w"]; mkRow 5 [Str "a"; Str "y"];
        mkRow 6 [Str "a"; Str "x"]].

(* ================================================================== *)
(** ** Further vocabulary *)

(** The quartiles [find_outliers] computes on a column, and its fences;
    nothing when the column is absent, holds a label or has no value. *)
Definition quartiles (df : DataFrame) (col : string) : option (Q * Q) :=
  match getitem df col with
  | Ok s =>
      match quantile s (1 # 4), quantile s (3 # 4) with
      | Ok (Some q1), Ok (Some q3) => Some (q1, q3)
      | _, _ => None
      end
  | Raise _ => None
  end.

Definition fences (df : DataFrame) (col : string) : option (Q * Q) :=
  match quartiles df col with
  | Some (q1, q3) => Some (iqr_lower q1 q3, iqr_upper q1 q3)
  | None => None
  end.

(** A row strictly outside the fences of the column. *)
Definition flagged (df : DataFrame) (col : string) (r : Row) : bool :=
  match fences df col with
  | Some (lo, up) => outside lo up (value_at df col r)
  | None => false
  end.

(** A row whose value lies strictly above the upper fence. *)
Definition above_upper (df : DataFrame) (col : string) (r : Row) : bool :=
  match fences df col, value_at df col r with
  | Some (_, up), Num v => negb (Qle_bool v up)
  | _, _ => false
  end.

(** Two frames with three columns each for the examples. *)
Definition three_labels : TypedFrame :=
  mkTyped
    (mkDF ["a"; "b"; "n"]%string
          [mkRow 0 [Str "x"; Str "u"; Num 1];
           mkRow 1 [Str "x"; Str "v"; Num 2];
           mkRow 2 [Str "y"; Str "u"; Num 3];
           mkRow 3 [Str "y"; Str "w"; Num 4]])
    [ObjectDtype; CategoryDtype; NumberDtype].

Definition low_and_high : DataFrame :=
  frame_of "v" (nums [-100; 1; 2; 3; 4; 5; 6; 7; 8; 9; 100; 200]%Z).

(** Two columns of a frame have a row where both hold a value. *)
Definition shares_row (df : DataFrame) (col1 col2 : string) : bool :=
  match getitem df col1, getitem df col2 with
  | Ok x, Ok y => match observed_pairs x y with
                  | [] => false
                  | _ :: _ => true
                  end
  | _, _ => false
  end.

(** The keys of a dict after one more assignment. *)
Definition add_key (keys : list string) (k : string) : list string :=
  if existsb (String.eqb k) keys then keys else keys ++ [k].

(** The p-value one pass of the loop computes for a column. *)
Definition column_p_value (anova_pvalue : list (list (option Q)) -> fl R)
           (df : DataFrame) (numeric_feature col : string) : result (fl R) :=
  groups <- groups_of df col numeric_feature ;;
  f_oneway anova_pvalue groups.

(** A column with a missing entry. *)
Definition has_missing (df : DataFrame) (col : string) : bool :=
  match getitem df col with
  | Ok s => existsb isna s
  | Raise _ => false
  end.

(** Two labels and a missing one; two labels. *)
Definition two_labels_and_missing : DataFrame :=
  labelled [(Str "a", 1); (Str "b", 2); (NA, 3); (Str "a", 5)]%Z.
Definition two_labels : DataFrame :=
  labelled [(Str "a", 1); (Str "b", 2); (Str "b", 3); (Str "a", 5)]%Z.

(** A column whose cells are 0, 1 or missing. *)
Definition binary_or_missing_cell (c : cell) : bool :=
  match c with
  | Num q => Qeq_bool q 0 || Qeq_bool q 1
  | NA => true
  | Str _ => false
  end.

Definition binary_or_missing (df : DataFrame) (col : string) : bool :=
  match getitem df col with
  | Ok s => forallb binary_or_missing_cell s
  | Raise _ => false
  end.

(** One positive among four rows, two of them missing; a condition and its
    complement. *)
Definition half_missing : DataFrame :=
  frame_of "c" [Num 1; NA; NA; Num 0].

Definition complementary : DataFrame :=
  mkDF ["c"; "d"]%string
       [mkRow 0 [Num 1; Num 0]; mkRow 1 [Num 0; Num 1];
        mkRow 2 [Num 0; Num 1]].

(** The rows of a frame with both keys present, as pairs of labels. *)
Definition complete_pairs (df : DataFrame) (feature_1 feature_2 : string)
  : list (cell * cell) :=
  match getitem df feature_1, getitem df feature_2 with
  | Ok x, Ok y => observed_pairs x y
  | _, _ => []
  end.

(** The number a row holds in a column (0 where it holds none). *)
Definition number_at (df : DataFrame) (col : string) (r : Row) : Q :=
  match value_at df col r with
  | Num q => q
  | _ => 0
  end.

(** The two keys of a row of the result. *)
Definition keys_at (df : DataFrame) (feature_1 feature_2 : string) (r : Row)
  : cell * cell :=
  (value_at df feature_1 r, value_at df feature_2 r).

(** The key column is of category dtype.  With such a key
    [groupby(..., observed=False)] also lists the categories no row
    carries, with size 0, which [group_sizes] above does not. *)
Definition category_key (tf : TypedFrame) (col : string) : bool :=
  match index_of col (columns (frame tf)) with
  | Some pos => match nth_error (dtypes tf) pos with
                | Some CategoryDtype => true
                | _ => false
                end
  | None => false
  end.

(** [two_keys] with its two columns of labels. *)
Definition two_keys_typed : TypedFrame :=
  mkTyped two_keys [ObjectDtype; ObjectDtype].

(** What [count_group_total_percentage] returns on [two_keys] by the
    columns [f] and [g]. *)
Definition two_keys_result : DataFrame :=
  mkDF ["f"; "g"; "count"; "total"; "percentage"]%string
       [mkRow 0 [Str "a"; Str "x"; Num (1 # 1); Num (3 # 1); Num (333 # 10)];
        mkRow 1 [Str "a"; Str "y"; Num (2 # 1); Num (3 # 1); Num (667 # 10)];
        mkRow 2 [Str "b"; Str "w"; Num (1 # 1); Num (3 # 1); Num (333 # 10)];
        mkRow 3 [Str "b"; Str "x"; Num (2 # 1); Num (3 # 1); Num (667 # 10)]].

(* ================================================================== *)
(** * Proofs *)

(** ** The result monad *)

Lemma bind_Ok_inv {A B} (m : result A) (k : A -> result B) (b : B) :
  (x <- m ;; k x) = Ok b -> exists a, m = Ok a /\ k a = Ok b.
Proof. destruct m as [a|e]; simpl; [eauto | discriminate]. Qed.

Lemma mapM_Ok_length {A B} (f : A -> result B) (xs : list A) (ys : list B) :
  mapM f xs = Ok ys -> List.length ys = List.length xs.
Proof.
  revert ys; induction xs as [|x xs IH]; simpl; intros ys H.
  - now inversion H.
  - apply bind_Ok_inv in H as (y & _ & H).
    apply bind_Ok_inv in H as (ys' & Hys & H).
    inversion H; subst; simpl; f_equal; auto.
Qed.

(** ** Insertion sort by key *)

Section SortByFacts.
Variable A : Type.
Variable key : A -> Q.

Lemma insert_by_perm (a : A) (l : list A) :
  Permutation (insert_by key a l) (a :: l).
Proof.
  induction l as [|b l IH]; simpl; [reflexivity|].
  destruct (Qle_bool (key a) (key b)); [reflexivity|].
  rewrite IH. apply perm_swap.
Qed.

Lemma sort_by_perm (l : list A) : Permutation (sort_by key l) l.
Proof.
  induction l as [|a l IH]; simpl; [reflexivity|].
  rewrite insert_by_perm. now constructor.
Qed.

Lemma insert_by_sorted (a : A) (l : list A) :
  StronglySorted (fun x y => key x <= key y) l ->
  StronglySorted (fun x y => key x <= key y) (insert_by key a l).
Proof.
  induction 1 as [|b l Hs IH Hb]; simpl.
  - repeat constructor.
  - destruct (Qle_bool (key a) (key b)) eqn:E.
    + apply Qle_bool_iff in E.
      constructor; [now constructor|].
      constructor; [exact E|].
      rewrite Forall_forall in *; intros c Hc.
      eapply Qle_trans; [exact E | auto].
    + assert (key b <= key a) as Hba.
      { apply Qlt_le_weak, Qnot_le_lt. intros H.
        apply Qle_bool_iff in H. congruence. }
      constructor; [exact IH|].
      rewrite Forall_forall; intros c Hc.
      apply (Permutation_in _ (insert_by_perm a l)) in Hc.
      destruct Hc as [<-|Hc]; [exact Hba|].
      rewrite Forall_forall in Hb; auto.
Qed.

Lemma sort_by_sorted (l : list A) :
  StronglySorted (fun x y => key x <= key y) (sort_by key l).
Proof.
  induction l as [|a l IH]; simpl; [constructor|].
  now apply insert_by_sorted.
Qed.
End SortByFacts.

(** ** Suffixes *)

Lemma skipn_incl {A} (n : nat) (l : list A) : incl (skipn n l) l.
Proof.
  revert l; induction n as [|n IH]; intros [|a l]; simpl;
    try apply incl_refl.
  apply incl_tl, IH.
Qed.

Lemma skipn_sorted {A} (R : A -> A -> Prop) (n : nat) (l : list A) :
  StronglySorted R l -> StronglySorted R (skipn n l).
Proof.
  revert l; induction n as [|n IH]; intros [|a l] H; simpl; auto.
  apply IH. now inversion H.
Qed.

Lemma last_rows_nonneg {A} (n : Z) (l : list A) :
  (0 <= n)%Z -> last_rows n l = lastn (Z.to_nat n) l.
Proof.
  intros Hn. unfold last_rows, lastn.
  destruct (n =? 0)%Z eqn:E0.
  - apply Z.eqb_eq in E0; subst; simpl.
    rewrite Nat.sub_0_r. symmetry; apply skipn_all.
  - apply Z.eqb_neq in E0.
    destruct (0 <? n)%Z eqn:E1; [reflexivity|].
    apply Z.ltb_ge in E1. lia.
Qed.

Lemma lastn_length {A} (k : nat) (l : list A) :
  (List.length (lastn k l) <= k)%nat.
Proof. unfold lastn. rewrite length_skipn. lia. Qed.

(** ** [find_outliers]: how a call unfolds *)

Lemma getitem_Ok_inv (df : DataFrame) (col : string) (s : Series) :
  getitem df col = Ok s ->
  exists pos, index_of col (columns df) = Some pos
              /\ s = map (at_col pos) (rows df).
Proof.
  unfold getitem. destruct (index_of col (columns df)) as [pos|];
    [|discriminate].
  intros H; inversion H; eauto.
Qed.

Lemma quantile_some (s : Series) (vs : list (option Q)) (q : Q) :
  to_numeric s = Ok vs -> dropna vs <> [] ->
  quantile s q
  = Ok (Some (percentile_linear (sort_by (fun v : Q => v) (dropna vs)) q)).
Proof.
  intros Hs Hne. unfold quantile. rewrite Hs; simpl.
  destruct (dropna vs); [congruence | reflexivity].
Qed.

Lemma quantile_none (s : Series) (vs : list (option Q)) (q : Q) :
  to_numeric s = Ok vs -> dropna vs = [] -> quantile s q = Ok None.
Proof. intros Hs He. unfold quantile. rewrite Hs; simpl. now rewrite He. Qed.

Lemma operand_column_name (col : string) :
  is_name col = true -> operand_column col = Some col.
Proof. unfold operand_column. now intros ->. Qed.

Lemma outside_has_number (lo up : Q) (pos : nat) (r : Row) :
  outside lo up (at_col pos r) = true -> has_number pos r = true.
Proof. unfold has_number. destruct (at_col pos r); simpl; congruence. Qed.

Lemma filter_all {A} (f : A -> bool) (l : list A) :
  (forall a, In a l -> f a = true) -> filter f l = l.
Proof.
  intros H. induction l as [|a l IH]; simpl; [reflexivity|].
  rewrite (H a (or_introl eq_refl)). f_equal. apply IH.
  intros b Hb. apply H. now right.
Qed.

Lemma filter_none {A} (f : A -> bool) (l : list A) :
  (forall a, In a l -> f a = false) -> filter f l = [].
Proof.
  intros H. induction l as [|a l IH]; simpl; [reflexivity|].
  rewrite (H a (or_introl eq_refl)). apply IH.
  intros b Hb. apply H. now right.
Qed.

(** Sorting rows that all hold a number in the column. *)
Lemma sort_values_numbers (cols : list string) (l : list Row)
      (col : string) (pos : nat) :
  index_of col cols = Some pos ->
  (forall r, In r l -> has_number pos r = true) ->
  sort_values (mkDF cols l) col = Ok (mkDF cols (sort_by (num_key pos) l)).
Proof.
  intros Hpos Hall. unfold sort_values. cbn [columns rows]. rewrite Hpos.
  rewrite (filter_all _ _ Hall).
  rewrite filter_none; [now rewrite app_nil_r|].
  intros r Hr. now rewrite (Hall r Hr).
Qed.

(** The query on a column pasted as a plain name, with finite bounds. *)
Lemma query_name (other : query_fn) (df : DataFrame) (col : string)
      (pos : nat) (vs : list (option Q)) (lo up : Q) :
  is_name col = true ->
  index_of col (columns df) = Some pos ->
  to_numeric (map (at_col pos) (rows df)) = Ok vs ->
  query other df col (Some lo) (Some up)
  = Ok (mkDF (columns df)
             (filter (fun r => outside lo up (at_col pos r)) (rows df))).
Proof.
  intros Hname Hpos Hnum. unfold query.
  rewrite (operand_column_name col Hname), Hpos, Hnum. reflexivity.
Qed.

Lemma find_outliers_values (other : query_fn) (df : DataFrame) (col : string)
      (n : Z) (pos : nat) (vs : list (option Q)) :
  is_name col = true ->
  index_of col (columns df) = Some pos ->
  to_numeric (map (at_col pos) (rows df)) = Ok vs ->
  dropna vs <> [] ->
  find_outliers other df col n = Ok (outliers_frame df pos (dropna vs) n).
Proof.
  intros Hname Hpos Hnum Hne. unfold find_outliers, getitem.
  rewrite Hpos. cbn [bind].
  rewrite !(fun q => quantile_some _ vs q Hnum Hne). cbn [bind lift2].
  rewrite (query_name other df col pos vs _ _ Hname Hpos Hnum). cbn [bind].
  rewrite (sort_values_numbers _ _ col pos Hpos).
  - reflexivity.
  - intros r Hr. apply filter_In in Hr as [_ Hr].
    now apply outside_has_number in Hr.
Qed.

Lemma find_outliers_no_value (other : query_fn) (df : DataFrame)
      (col : string) (n : Z) (pos : nat) (vs : list (option Q)) :
  plain_query df col = true ->
  index_of col (columns df) = Some pos ->
  to_numeric (map (at_col pos) (rows df)) = Ok vs ->
  dropna vs = [] ->
  find_outliers other df col n = Raise UndefinedVariableError.
Proof.
  intros Hplain Hpos Hnum He.
  unfold plain_query, has_column in Hplain.
  apply andb_true_iff in Hplain as [Hname Hnan].
  unfold find_outliers, getitem.
  rewrite Hpos. cbn [bind].
  rewrite !(fun q => quantile_none _ vs q Hnum He). cbn [bind lift2].
  unfold query. rewrite (operand_column_name col Hname).
  destruct (index_of "nan" (columns df)); [discriminate | reflexivity].
Qed.

Lemma find_outliers_Ok_inv (other : query_fn) (df : DataFrame) (col : string)
      (n : Z) (out : DataFrame) :
  plain_query df col = true ->
  find_outliers other df col n = Ok out ->
  exists pos vs,
    index_of col (columns df) = Some pos
    /\ to_numeric (map (at_col pos) (rows df)) = Ok vs
    /\ dropna vs <> []
    /\ out = outliers_frame df pos (dropna vs) n.
Proof.
  intros Hplain H.
  assert (is_name col = true) as Hname.
  { unfold plain_query in Hplain. now apply andb_true_iff in Hplain. }
  destruct (index_of col (columns df)) as [pos|] eqn:Hpos.
  - destruct (to_numeric (map (at_col pos) (rows df))) as [vs|e] eqn:Hnum.
    + destruct (dropna vs) as [|v a] eqn:Hd.
      * rewrite (find_outliers_no_value other df col n pos vs Hplain Hpos
                   Hnum Hd) in H.
        discriminate.
      * exists pos, vs. repeat split; auto; try congruence.
        rewrite (find_outliers_values other df col n pos vs Hname Hpos Hnum)
          in H by congruence.
        rewrite Hd in H. congruence.
    + unfold find_outliers, getitem, quantile in H.
      rewrite Hpos in H; simpl in H. rewrite Hnum in H. discriminate.
  - unfold find_outliers, getitem in H. rewrite Hpos in H. discriminate.
Qed.

(** Whatever the query selects, the limit enters through [tail] alone. *)
Lemma find_outliers_by_tail (other : query_fn) (df : DataFrame)
      (col : string) (n : Z) (out : DataFrame) :
  find_outliers other df col n = Ok out ->
  exists sorted : DataFrame,
    forall n', find_outliers other df col n' = Ok (tail sorted n').
Proof.
  unfold find_outliers. intros H.
  destruct (getitem df col) as [s|]; [|discriminate]. cbn [bind] in *.
  destruct (quantile s (1 # 4)) as [q1|]; [|discriminate]. cbn [bind] in *.
  destruct (quantile s (3 # 4)) as [q3|]; [|discriminate]. cbn [bind] in *.
  destruct (query other df col _ _) as [selected|]; [|discriminate].
  cbn [bind] in *.
  destruct (sort_values selected col) as [sorted|]; [|discriminate].
  exists sorted. reflexivity.
Qed.

(** ** The row test *)

Lemma outside_spec (lower upper : Q) (c : cell) :
  outside lower upper c = true
  <-> exists v, c = Num v /\ (v < lower \/ upper < v).
Proof.
  destruct c as [v|s|]; simpl.
  - rewrite orb_true_iff, !negb_true_iff. split.
    + intros [H|H]; exists v; split; auto; [left|right];
        apply Qnot_le_lt; intros Hle; apply Qle_bool_iff in Hle; congruence.
    + intros (w & Hw & H). inversion Hw; subst w.
      destruct H as [H|H]; [left|right];
        apply not_true_is_false; intros Hle; apply Qle_bool_iff in Hle;
        apply Qlt_not_le in H; contradiction.
  - split; [discriminate | intros (v & H & _); discriminate].
  - split; [discriminate | intros (v & H & _); discriminate].
Qed.

(** ** Code quantile against closest-rank interpolation *)

Lemma ceiling_floor_cases (h : Q) :
  (Qceiling h = Qfloor h /\ h == inject_Z (Qfloor h))
  \/ (Qceiling h = (Qfloor h + 1)%Z /\ inject_Z (Qfloor h) < h).
Proof.
  pose proof (Qfloor_le h) as Hfl.
  pose proof (Qlt_floor h) as Hlt.
  pose proof (Qle_ceiling h) as Hce.
  pose proof (Qceiling_lt h) as Hcl.
  assert (Qfloor h <= Qceiling h)%Z as H1.
  { rewrite Zle_Qle. eapply Qle_trans; eauto. }
  assert (Qceiling h - 1 < Qfloor h + 1)%Z as H2.
  { rewrite Zlt_Qlt. eapply Qlt_trans; eauto. }
  assert (Qceiling h = Qfloor h \/ Qceiling h = (Qfloor h + 1)%Z) as [E|E]
    by lia.
  - left. split; [exact E|]. apply Qle_antisym; [|exact Hfl].
    rewrite <- E. exact Hce.
  - right. split; [exact E|]. rewrite E in Hcl.
    replace (Qfloor h + 1 - 1)%Z with (Qfloor h) in Hcl by lia. exact Hcl.
Qed.

Lemma percentile_linear_rank_interp (a : list Q) (p : Q) :
  a <> [] -> 0 <= p -> p <= 1 ->
  percentile_linear a p == rank_interp a p.
Proof.
  intros Hne Hp0 Hp1.
  unfold percentile_linear, rank_interp, lerp.
  set (m := Z.of_nat (List.length a)).
  assert (1 <= m)%Z as Hm.
  { subst m. destruct a; [congruence | simpl List.length; lia]. }
  assert (inject_Z (m - 1) * p == p * inject_Z (m - 1)) as Hh by ring.
  rewrite (Qfloor_comp _ _ Hh).
  set (h := p * inject_Z (m - 1)) in *.
  assert (h <= inject_Z (m - 1)) as Hhm.
  { subst h. rewrite <- (Qmult_1_l (inject_Z (m - 1))) at 2.
    apply Qmult_le_compat_r; [exact Hp1|].
    change 0 with (inject_Z 0). rewrite <- Zle_Qle. lia. }
  destruct (ceiling_floor_cases h) as [[Ec Eh]|[Ec Eh]]; rewrite Ec.
  - setoid_replace (inject_Z (m - 1) * p - inject_Z (Qfloor h)) with 0
      by (rewrite Hh; fold h; rewrite Eh at 1; ring).
    ring.
  - assert (Qfloor h + 1 <= m - 1)%Z as Hlo.
    { assert (Qfloor h < m - 1)%Z; [|lia].
      rewrite Zlt_Qlt. eapply Qlt_le_trans; eauto. }
    rewrite Z.min_l by exact Hlo.
    rewrite Hh. fold h. ring.
Qed.

(** ** [find_outliers]: the claims *)

Lemma StronglySorted_impl_in {A} (R R' : A -> A -> Prop) (l : list A) :
  (forall x y, In x l -> In y l -> R x y -> R' x y) ->
  StronglySorted R l -> StronglySorted R' l.
Proof.
  intros Himp H. induction H as [|a l Hs IH Ha]; constructor.
  - apply IH. intros x y Hx Hy. apply Himp; now right.
  - rewrite Forall_forall in *. intros y Hy.
    apply Himp; [now left | now right | auto].
Qed.

Lemma to_numeric_dropna_length (s : Series) (vs : list (option Q)) :
  to_numeric s = Ok vs ->
  List.length (dropna vs)
  = List.length (filter (fun c => negb (isna c)) s).
Proof.
  revert vs; induction s as [|c s IH]; simpl; intros vs H.
  - now inversion H.
  - destruct c as [q|t|]; try discriminate;
      apply bind_Ok_inv in H as (vs' & Hvs & H); inversion H; subst; simpl;
      rewrite (IH _ Hvs); reflexivity.
Qed.

Lemma numeric_to_numeric (s : Series) :
  forallb (fun c => match c with Str _ => false | _ => true end) s = true ->
  exists vs, to_numeric s = Ok vs.
Proof.
  induction s as [|c s IH]; simpl; intros H; [eauto|].
  apply andb_true_iff in H as [Hc Hs]. destruct (IH Hs) as [vs Hvs].
  destruct c; try discriminate; rewrite Hvs; simpl; eauto.
Qed.

Lemma selected_sorted (df : DataFrame) (col : string) (pos : nat)
      (lo up : Q) :
  index_of col (columns df) = Some pos ->
  StronglySorted (col_le df col)
    (sort_by (num_key pos)
       (filter (fun r => outside lo up (at_col pos r)) (rows df))).
Proof.
  intros Hpos.
  eapply StronglySorted_impl_in; [|apply sort_by_sorted].
  intros x y Hx Hy Hle.
  assert (forall r,
             In r (sort_by (num_key pos)
                     (filter (fun r => outside lo up (at_col pos r))
                             (rows df))) ->
             exists v, at_col pos r = Num v) as Hnum.
  { intros r Hr.
    apply (Permutation_in _ (sort_by_perm _ _ _)) in Hr.
    apply filter_In in Hr as [_ Hr].
    apply outside_spec in Hr as (v & Hv & _). eauto. }
  destruct (Hnum x Hx) as [vx Ex], (Hnum y Hy) as [vy Ey].
  unfold col_le, value_at. rewrite Hpos, Ex, Ey.
  unfold num_key in Hle. now rewrite Ex, Ey in Hle.
Qed.

Lemma lastn_zero {A} (l : list A) : lastn 0 l = [].
Proof. unfold lastn. rewrite Nat.sub_0_r. apply skipn_all. Qed.

(** C4 as the claim states it fails.  With the limit -1 the code returns
    the selected rows but the first, which are not "the last -1 rows".  On
    a column called [(v)] the text of the query reads as the column [v]:
    the rows are selected by their value in [v], and a row that holds no
    value in [(v)] is returned. *)
Lemma find_outliers_rule_fails :
  (forall other,
      ~ follows_iqr_rule other two_high "v" (-1)
          (map (fun z => Some (inject_Z z))
               [1; 2; 3; 4; 5; 6; 7; 8; 9; 100; 200]%Z))
  /\ (forall other,
         ~ follows_iqr_rule other paren_frame "(v)" 5
             [None; Some (inject_Z 1); Some (inject_Z 2); Some (inject_Z 3)]).
Proof.
  split; intros other
                (a & Q1 & Q3 & sel & L & out & _ & _ & _ & _ & Hsel & HL & _
                 & Hf & _ & Hrows).
  - assert (find_outliers other two_high "v" (-1)
            = Ok (mkDF ["v"%string] [mkRow 10 [Num (inject_Z 200)]])) as E
        by reflexivity.
    rewrite E in Hf. inversion Hf; subst out.
    change (Z.to_nat (-1)) with O in Hrows. rewrite lastn_zero in Hrows.
    discriminate.
  - assert (find_outliers other paren_frame "(v)" 5
            = Ok (mkDF ["v"; "(v)"]%string
                       [mkRow 0 [Num (inject_Z 1000); NA]])) as E
        by reflexivity.
    rewrite E in Hf. inversion Hf; subst out. cbn [rows] in Hrows.
    assert (In (mkRow 0 [Num (inject_Z 1000); NA]) L) as Hin.
    { apply (skipn_incl (List.length L - Z.to_nat 5)).
      fold (lastn (Z.to_nat 5) L). rewrite <- Hrows. now left. }
    apply (Permutation_in _ HL) in Hin. apply filter_In in Hin as [_ Hin].
    apply Hsel in Hin as (v & Hv & _). discriminate.
Qed.

(** C4, amended.  On a column that is pasted as a plain name and holds
    whole numbers of magnitude up to 2^40, at least one, and for a limit
    that is a count, [find_outliers] follows the IQR rule: Q1 and Q3 are
    the closest-rank linear interpolations at 1/4 and 3/4 of the sorted
    non-missing values, the fences are [Q1 - 1.5 IQR] and [Q3 + 1.5 IQR],
    exactly the rows strictly outside the fences are selected, they are
    sorted ascending by the column and the last [limit] of them are
    returned.  On the data 1..9, 100 this gives Q1 = 3.25, Q3 = 7.75,
    IQR = 4.5, upper fence 14.5 and the single row holding 100. *)
Theorem find_outliers_iqr_rule (other : query_fn) (df : DataFrame)
        (col : string) (limit : Z) (s : Series) (vs : list (option Q))
        (Hname : is_name col = true)
        (Hcol : getitem df col = Ok s)
        (Hexact : forallb small_integer s = true)
        (Hnum : to_numeric s = Ok vs)
        (Hval : dropna vs <> [])
        (Hlimit : (0 <= limit)%Z) :
  follows_iqr_rule other df col limit vs /\ iqr_example_holds.
Proof.
  split.
  - apply getitem_Ok_inv in Hcol as (pos & Hpos & ->).
    set (a := sort_by (fun v : Q => v) (dropna vs)).
    set (Q1 := percentile_linear a (1 # 4)).
    set (Q3 := percentile_linear a (3 # 4)).
    set (sel := fun r => outside (iqr_lower Q1 Q3) (iqr_upper Q1 Q3)
                                 (at_col pos r)).
    assert (a <> []) as Ha.
    { intros E. apply Hval.
      apply Permutation_nil. rewrite <- E. apply sort_by_perm. }
    exists a, Q1, Q3, sel, (sort_by (num_key pos) (filter sel (rows df))),
      (outliers_frame df pos (dropna vs) limit).
    repeat split.
    + apply sort_by_perm.
    + apply (sort_by_sorted Q (fun v : Q => v)).
    + apply percentile_linear_rank_interp; [exact Ha | |]; discriminate.
    + apply percentile_linear_rank_interp; [exact Ha | |]; discriminate.
    + unfold sel, value_at. rewrite Hpos. apply outside_spec.
    + unfold sel, value_at. rewrite Hpos. apply outside_spec.
    + apply sort_by_perm.
    + apply selected_sorted. exact Hpos.
    + apply find_outliers_values; assumption.
    + unfold outliers_frame; simpl.
      now rewrite last_rows_nonneg by exact Hlimit.
  - eexists _, _, _. split; [reflexivity|].
    split; [reflexivity|]. split; [reflexivity|].
    split; [reflexivity|]. split; [reflexivity|].
    split; [reflexivity|]. split; [reflexivity|].
    intros other' n Hn.
    rewrite (find_outliers_values other' spec_example "v" n 0
               (map (fun z => Some (inject_Z z))
                    [1; 2; 3; 4; 5; 6; 7; 8; 9; 100]%Z));
      [|reflexivity|reflexivity|reflexivity|discriminate].
    unfold outliers_frame. rewrite last_rows_nonneg by lia.
    unfold lastn.
    match goal with
    | |- context [sort_by (num_key 0) ?l] =>
        let l' := eval vm_compute in (sort_by (num_key 0) l) in
        change (sort_by (num_key 0) l) with l'
    end.
    simpl List.length.
    replace (1 - Z.to_nat n)%nat with O by lia.
    reflexivity.
Qed.

Lemma find_outliers_iqr_rule_witness :
  follows_iqr_rule unread spec_example "v" 5
    (map (fun z => Some (inject_Z z)) [1; 2; 3; 4; 5; 6; 7; 8; 9; 100]%Z)
  /\ iqr_example_holds.
Proof.
  apply (find_outliers_iqr_rule unread spec_example "v" 5
           (nums [1; 2; 3; 4; 5; 6; 7; 8; 9; 100]%Z)).
  - reflexivity.
  - reflexivity.
  - reflexivity.
  - reflexivity.
  - discriminate.
  - lia.
Defined.

(** C7 as the claim states it fails.  A column with three values (fewer
    than four) makes [find_outliers] return a frame, here one without rows,
    and raise nothing.  The failures the code does have come from the text
    of the query, not from a count: a column with ten values fails when it
    is called [(v)] and the frame has no column [v]. *)
Lemma find_outliers_three_values_returns :
  (count_values three_values "v" < 4)%nat
  /\ (forall other,
         find_outliers other three_values "v" 5 = Ok (mkDF ["v"%string] []))
  /\ (4 <= count_values paren_only "(v)")%nat
  /\ (forall other,
         find_outliers other paren_only "(v)" 5 = Raise UndefinedVariableError).
Proof.
  split; [change (3 < 4)%nat; lia|].
  split; [reflexivity|].
  split; [change (4 <= 10)%nat; lia | reflexivity].
Qed.

(** C7, amended.  [find_outliers] has no minimum-count guard.  On a numeric
    column that is pasted into the query as a plain name, in a frame
    without a column called [nan], it fails exactly when the column has no
    non-missing value, the error being the [UndefinedVariableError] of the
    query on a NaN bound; with one value or more (so also with 1, 2 or 3)
    it returns a frame. *)
Theorem find_outliers_fails_only_without_values
        (other : query_fn) (df : DataFrame) (col : string) (limit : Z)
        (Hplain : plain_query df col = true)
        (Hnumeric : numeric_column df col = true) :
  (count_values df col = O ->
   find_outliers other df col limit = Raise UndefinedVariableError)
  /\ ((1 <= count_values df col)%nat ->
      returns (find_outliers other df col limit)).
Proof.
  assert (is_name col = true) as Hname.
  { unfold plain_query in Hplain. now apply andb_true_iff in Hplain. }
  unfold numeric_column, count_values in *.
  destruct (getitem df col) as [s|e] eqn:Hs; [|discriminate].
  destruct (numeric_to_numeric s Hnumeric) as [vs Hvs].
  rewrite <- (to_numeric_dropna_length s vs Hvs).
  apply getitem_Ok_inv in Hs as (pos & Hpos & ->).
  split; intros Hc.
  - apply (find_outliers_no_value other df col limit pos vs Hplain Hpos Hvs).
    now apply length_zero_iff_nil.
  - eexists.
    apply (find_outliers_values other df col limit pos vs Hname Hpos Hvs).
    intros E. rewrite E in Hc. simpl in Hc. lia.
Qed.

Lemma find_outliers_fails_only_without_values_witness :
  (count_values three_values "v" = O ->
   find_outliers unread three_values "v" 5 = Raise UndefinedVariableError)
  /\ ((1 <= count_values three_values "v")%nat ->
      returns (find_outliers unread three_values "v" 5)).
Proof.
  apply (find_outliers_fails_only_without_values unread three_values "v" 5).
  - reflexivity.
  - reflexivity.
Defined.

(** C10 as the claim states it fails.  With the limit -1, [tail] drops the
    first selected row and keeps the rest, so one row comes back, which is
    more than the limit.  And on the column [(v)] of [paren_frame] the
    query selects by the column [v]: the row returned holds no value in
    [(v)]. *)
Lemma find_outliers_negative_limit :
  (forall other,
      find_outliers other two_high "v" (-1)
      = Ok (mkDF ["v"%string] [mkRow 10 [Num (inject_Z 200)]]))
  /\ ~ (Z.of_nat (List.length [mkRow 10 [Num (inject_Z 200)]]) <= -1)%Z
  /\ (forall other,
         find_outliers other paren_frame "(v)" 5
         = Ok (mkDF ["v"; "(v)"]%string [mkRow 0 [Num (inject_Z 1000); NA]]))
  /\ value_at paren_frame "(v)" (mkRow 0 [Num (inject_Z 1000); NA]) = NA.
Proof.
  split; [reflexivity|]. split; [simpl; lia|].
  split; reflexivity.
Qed.

(** C10, amended.  For every frame without a column called [nan], every
    column pasted into the query as a plain name and every limit that is
    not negative, a frame returned by [find_outliers] has at most [limit]
    rows, each a row of the input, in ascending order of the column, none
    with a missing value in the column. *)
Theorem find_outliers_result_rows
        (other : query_fn) (df : DataFrame) (col : string) (limit : Z)
        (out : DataFrame)
        (Hplain : plain_query df col = true)
        (Hlimit : (0 <= limit)%Z)
        (Hout : find_outliers other df col limit = Ok out) :
  (Z.of_nat (List.length (rows out)) <= limit)%Z
  /\ incl (rows out) (rows df)
  /\ StronglySorted (col_le df col) (rows out)
  /\ (forall r, In r (rows out) -> value_at df col r <> NA).
Proof.
  apply find_outliers_Ok_inv in Hout as (pos & vs & Hpos & Hnum & Hne & ->);
    [|exact Hplain].
  unfold outliers_frame; simpl.
  rewrite last_rows_nonneg by exact Hlimit. unfold lastn.
  set (sel := fun r => outside _ _ (at_col pos r)).
  assert (incl (skipn (List.length (sort_by (num_key pos)
                                      (filter sel (rows df)))
                       - Z.to_nat limit)
                      (sort_by (num_key pos) (filter sel (rows df))))
               (filter sel (rows df))) as Hincl.
  { intros r Hr. apply skipn_incl in Hr.
    now apply (Permutation_in _ (sort_by_perm _ _ _)) in Hr. }
  repeat split.
  - pose proof (lastn_length (Z.to_nat limit)
                  (sort_by (num_key pos) (filter sel (rows df)))) as Hl.
    unfold lastn in Hl. lia.
  - intros r Hr. apply Hincl in Hr. now apply filter_In in Hr.
  - apply skipn_sorted. apply selected_sorted. exact Hpos.
  - intros r Hr. apply Hincl in Hr. apply filter_In in Hr as [_ Hr].
    apply outside_spec in Hr as (v & Hv & _).
    unfold value_at. rewrite Hpos, Hv. discriminate.
Qed.

Lemma find_outliers_result_rows_witness :
  (Z.of_nat (List.length [mkRow 9 [Num (inject_Z 100)]]) <= 5)%Z
  /\ incl [mkRow 9 [Num (inject_Z 100)]] (rows spec_example)
  /\ StronglySorted (col_le spec_example "v") [mkRow 9 [Num (inject_Z 100)]]
  /\ (forall r, In r [mkRow 9 [Num (inject_Z 100)]] ->
                value_at spec_example "v" r <> NA).
Proof.
  apply (find_outliers_result_rows unread spec_example "v" 5
           (mkDF ["v"%string] [mkRow 9 [Num (inject_Z 100)]])).
  - reflexivity.
  - lia.
  - reflexivity.
Defined.

(* ================================================================== *)
(** ** Sums over index lists *)

Lemma Zsum_add_map {A} (f g : A -> Z) (l : list A) :
  Zsum (map (fun x => f x + g x)%Z l) = (Zsum (map f l) + Zsum (map g l))%Z.
Proof. induction l as [|a l IH]; simpl; [reflexivity | rewrite IH; lia]. Qed.

Lemma Zsum_exchange {A B} (f : A -> B -> Z) (la : list A) (lb : list B) :
  Zsum (map (fun a => Zsum (map (fun b => f a b) lb)) la)
  = Zsum (map (fun b => Zsum (map (fun a => f a b) la)) lb).
Proof.
  induction la as [|a la IH]; simpl.
  - induction lb as [|b lb IHb]; simpl; [reflexivity | now rewrite <- IHb].
  - rewrite IH, <- Zsum_add_map. reflexivity.
Qed.

Lemma Qsum_add_map {A} (f g : A -> Q) (l : list A) :
  Qsum (map (fun x => f x + g x) l) == Qsum (map f l) + Qsum (map g l).
Proof. induction l as [|a l IH]; simpl; [ring | rewrite IH; ring]. Qed.

Lemma Qsum_exchange {A B} (f : A -> B -> Q) (la : list A) (lb : list B) :
  Qsum (map (fun a => Qsum (map (fun b => f a b) lb)) la)
  == Qsum (map (fun b => Qsum (map (fun a => f a b) la)) lb).
Proof.
  induction la as [|a la IH]; simpl.
  - induction lb as [|b lb IHb]; simpl; [reflexivity | rewrite <- IHb; ring].
  - rewrite IH, <- Qsum_add_map. reflexivity.
Qed.

Lemma Qeq_of_eq (a b : Q) : a = b -> a == b.
Proof. intros ->. reflexivity. Qed.

Lemma Zsum_nonneg (l : list Z) :
  (forall z, In z l -> (0 <= z)%Z) -> (0 <= Zsum l)%Z.
Proof.
  induction l as [|a l IH]; simpl; intros H; [lia|].
  pose proof (H a (or_introl eq_refl)).
  assert (0 <= Zsum l)%Z by (apply IH; intros; apply H; now right). lia.
Qed.

Lemma Zsum_ge_member (l : list Z) (z : Z) :
  (forall y, In y l -> (0 <= y)%Z) -> In z l -> (z <= Zsum l)%Z.
Proof.
  induction l as [|a l IH]; simpl; intros H Hz; [contradiction|].
  destruct Hz as [->|Hz].
  - assert (0 <= Zsum l)%Z by (apply Zsum_nonneg; intros; apply H; now right).
    lia.
  - pose proof (H a (or_introl eq_refl)).
    assert (z <= Zsum l)%Z by (apply IH; auto). lia.
Qed.

Lemma existsb_prod_swap {A B} (f : A * B -> bool) (g : B * A -> bool)
      (la : list A) (lb : list B) :
  (forall a b, In a la -> In b lb -> f (a, b) = g (b, a)) ->
  existsb f (list_prod la lb) = existsb g (list_prod lb la).
Proof.
  intros H. apply eq_true_iff_eq. rewrite !existsb_exists. split.
  - intros ([a b] & Hin & Hf). apply in_prod_iff in Hin as [Ha Hb].
    exists (b, a). split; [now apply in_prod_iff|]. now rewrite <- H.
  - intros ([b a] & Hin & Hg). apply in_prod_iff in Hin as [Hb Ha].
    exists (a, b). split; [now apply in_prod_iff|]. now rewrite H.
Qed.

(** ** Exchanging rows and columns *)

Section Transposed.
Variables M M' : matrix.
Hypothesis HT : transposed M M'.

Lemma row_sum_transposed (i : nat) :
  (i < nrows M)%nat -> col_sum M' i = row_sum M i.
Proof.
  destruct HT as (Hr & Hc & He). intros Hi.
  unfold row_sum, col_sum. rewrite Hr. f_equal.
  apply map_ext_in. intros j Hj. apply in_seq in Hj. apply He; lia.
Qed.

Lemma col_sum_transposed (j : nat) :
  (j < ncols M)%nat -> row_sum M' j = col_sum M j.
Proof.
  destruct HT as (Hr & Hc & He). intros Hj.
  unfold row_sum, col_sum. rewrite Hc. f_equal.
  apply map_ext_in. intros i Hi. apply in_seq in Hi. apply He; lia.
Qed.

Lemma sum_sum_total : sum_sum M = total M.
Proof.
  unfold sum_sum, total, row_sum, col_sum.
  symmetry. apply (Zsum_exchange (fun i j => entry M i j)).
Qed.

Lemma total_transposed : total M' = total M.
Proof.
  rewrite <- sum_sum_total. unfold total at 1, sum_sum.
  destruct HT as (Hr & Hc & He). rewrite Hr. f_equal.
  apply map_ext_in. intros j Hj. apply in_seq in Hj.
  apply col_sum_transposed; lia.
Qed.

Lemma expected_transposed (i j : nat) :
  (i < nrows M)%nat -> (j < ncols M)%nat ->
  expected M' j i = expected M i j.
Proof.
  intros Hi Hj. unfold expected.
  rewrite total_transposed, col_sum_transposed, row_sum_transposed by lia.
  now rewrite Z.mul_comm.
Qed.

Lemma chi2_sum_transposed (adjust : Q -> Q -> Q) :
  chi2_sum adjust M' == chi2_sum adjust M.
Proof.
  pose proof HT as (Hr & Hc & He).
  unfold chi2_sum. rewrite Hr, Hc.
  rewrite (Qsum_exchange
             (fun i j =>
                pearson_term
                  (adjust (inject_Z (entry M i j)) (expected M i j))
                  (expected M i j))).
  apply Qeq_of_eq. f_equal.
  apply map_ext_in. intros j Hj. apply in_seq in Hj. f_equal.
  apply map_ext_in. intros i Hi. apply in_seq in Hi.
  rewrite expected_transposed, He by lia. reflexivity.
Qed.

Lemma chi2_contingency_transposed :
  same_result (chi2_contingency M') (chi2_contingency M).
Proof.
  pose proof HT as (Hr & Hc & He).
  unfold chi2_contingency, cells_of. rewrite Hr, Hc.
  rewrite (existsb_prod_swap
             (fun p => (entry M' (fst p) (snd p) <? 0)%Z)
             (fun p => (entry M (fst p) (snd p) <? 0)%Z)).
  2:{ intros j i Hj Hi. apply in_seq in Hj, Hi. simpl.
      rewrite He by lia. reflexivity. }
  destruct (existsb _ (list_prod (seq 0 (nrows M)) (seq 0 (ncols M))));
    [reflexivity|].
  rewrite (Nat.mul_comm (ncols M) (nrows M)).
  destruct (Z.of_nat (nrows M * ncols M) =? 0)%Z; [reflexivity|].
  rewrite (existsb_prod_swap
             (fun p => Qeq_bool (expected M' (fst p) (snd p)) 0)
             (fun p => Qeq_bool (expected M (fst p) (snd p)) 0)).
  2:{ intros j i Hj Hi. apply in_seq in Hj, Hi. simpl.
      rewrite expected_transposed by lia. reflexivity. }
  destruct (existsb _ (list_prod (seq 0 (nrows M)) (seq 0 (ncols M))));
    [reflexivity|].
  replace (Z.of_nat (ncols M) * Z.of_nat (nrows M)
           - (Z.of_nat (ncols M) + Z.of_nat (nrows M)) + 2 - 1)%Z
    with (Z.of_nat (nrows M) * Z.of_nat (ncols M)
          - (Z.of_nat (nrows M) + Z.of_nat (ncols M)) + 2 - 1)%Z by lia.
  destruct (_ =? 0)%Z; [simpl; reflexivity|].
  destruct (_ =? 1)%Z; simpl; apply chi2_sum_transposed.
Qed.
End Transposed.

(* ================================================================== *)
(** ** The contingency table of two series *)

Lemma nth_map_default {A B} (f : A -> B) (l : list A) (d : A) (d' : B)
      (i : nat) :
  (i < List.length l)%nat -> nth i (map f l) d' = f (nth i l d).
Proof.
  intros Hi. rewrite (nth_indep _ d' (f d)) by now rewrite length_map.
  apply map_nth.
Qed.

Lemma unique_nil (l : list cell) : unique l = [] -> l = [].
Proof. destruct l; simpl; [reflexivity | discriminate]. Qed.

Lemma unique_incl (a : cell) (l : list cell) : In a (unique l) -> In a l.
Proof.
  induction l as [|b l IH]; simpl; [auto|].
  intros [H|H]; [now left|]. apply filter_In in H as [H _]. right; auto.
Qed.

Lemma cell_same_refl (a : cell) : cell_same a a = true.
Proof.
  destruct a as [q|s|]; unfold cell_same; simpl; auto.
  - apply Qeq_bool_iff. reflexivity.
  - apply String.eqb_refl.
Qed.

Lemma cell_same_trans (a b c : cell) :
  cell_same a b = true -> cell_same b c = true -> cell_same a c = true.
Proof.
  destruct a as [q|s|], b as [q'|s'|], c as [q''|s''|];
    unfold cell_same; simpl; try discriminate; auto.
  - rewrite !Qeq_bool_iff. intros H1 H2. now rewrite H1.
  - rewrite !String.eqb_eq. congruence.
Qed.

Lemma cell_same_eqb (a b : cell) :
  isna b = false -> cell_same a b = true -> cell_eqb b a = true.
Proof.
  destruct a as [q|s|], b as [q'|s'|];
    unfold cell_same; simpl; try discriminate; auto.
  - rewrite !Qeq_bool_iff. intros _ H. now symmetry.
  - rewrite !String.eqb_eq. congruence.
Qed.

Lemma unique_cover (a : cell) (l : list cell) :
  In a l -> exists b, In b (unique l) /\ cell_same b a = true.
Proof.
  induction l as [|c l IH]; simpl; [contradiction|].
  intros [->|H].
  - exists a. split; [now left | apply cell_same_refl].
  - destruct (IH H) as (b & Hb & Hba).
    destruct (cell_same c b) eqn:E.
    + exists c. split; [now left | eapply cell_same_trans; eauto].
    + exists b. split; [|exact Hba]. right. apply filter_In.
      split; [exact Hb | now rewrite E].
Qed.

Lemma observed_pairs_notna (x y : Series) (p : cell * cell) :
  In p (observed_pairs x y) -> isna (fst p) = false /\ isna (snd p) = false.
Proof.
  unfold observed_pairs. intros H. apply filter_In in H as [_ H].
  apply andb_true_iff in H as [H1 H2].
  now rewrite negb_true_iff in H1, H2.
Qed.

Lemma observed_pairs_swap (x y : Series) :
  observed_pairs y x = map swap_pair (observed_pairs x y).
Proof.
  unfold observed_pairs. revert y.
  induction x as [|a x IH]; intros [|b y]; simpl; try reflexivity.
  rewrite (andb_comm (negb (isna b))).
  destruct (negb (isna a) && negb (isna b)); simpl; now rewrite IH.
Qed.

Lemma count_pair_swap (ps : list (cell * cell)) (a b : cell) :
  count_pair (map swap_pair ps) b a = count_pair ps a b.
Proof.
  unfold count_pair. f_equal.
  induction ps as [|p ps IH]; simpl; [reflexivity|].
  rewrite (andb_comm (cell_eqb (snd p) b)).
  destruct (cell_eqb (fst p) a && cell_eqb (snd p) b); simpl; now rewrite IH.
Qed.

Lemma count_pair_nonneg (ps : list (cell * cell)) (a b : cell) :
  (0 <= count_pair ps a b)%Z.
Proof. unfold count_pair. lia. Qed.

Lemma count_pair_pos (ps : list (cell * cell)) (p : cell * cell) (a b : cell) :
  In p ps -> cell_eqb (fst p) a = true -> cell_eqb (snd p) b = true ->
  (1 <= count_pair ps a b)%Z.
Proof.
  intros Hin Ha Hb. unfold count_pair.
  assert (In p (filter (fun p => cell_eqb (fst p) a && cell_eqb (snd p) b) ps))
    as H by (apply filter_In; split; [exact Hin | now rewrite Ha, Hb]).
  destruct (filter _ ps); [contradiction | simpl List.length; lia].
Qed.

Section Crosstab.
Variables x y : Series.

Lemma crosstab_nrows : nrows (crosstab x y) = List.length (row_labels x y).
Proof. unfold crosstab, nrows. now rewrite length_map. Qed.

Lemma crosstab_ncols : ncols (crosstab x y) = List.length (col_labels x y).
Proof.
  unfold crosstab, ncols.
  destruct (row_labels x y) as [|a R'] eqn:E; simpl.
  - unfold row_labels in E. apply unique_nil in E. apply map_eq_nil in E.
    unfold col_labels. now rewrite E.
  - now rewrite length_map.
Qed.

Lemma crosstab_entry (i j : nat) :
  (i < List.length (row_labels x y))%nat -> (j < List.length (col_labels x y))%nat ->
  entry (crosstab x y) i j
  = count_pair (observed_pairs x y)
               (nth i (row_labels x y) NA) (nth j (col_labels x y) NA).
Proof.
  intros Hi Hj. unfold entry, crosstab.
  rewrite (nth_map_default _ (row_labels x y) NA) by exact Hi.
  now rewrite (nth_map_default _ (col_labels x y) NA) by exact Hj.
Qed.

Lemma crosstab_entry_nonneg (i j : nat) :
  (i < nrows (crosstab x y))%nat -> (j < ncols (crosstab x y))%nat ->
  (0 <= entry (crosstab x y) i j)%Z.
Proof.
  rewrite crosstab_nrows, crosstab_ncols. intros Hi Hj.
  rewrite crosstab_entry by assumption. apply count_pair_nonneg.
Qed.

Lemma crosstab_row_has_count (i : nat) :
  (i < nrows (crosstab x y))%nat ->
  exists j, (j < ncols (crosstab x y))%nat
            /\ (1 <= entry (crosstab x y) i j)%Z.
Proof.
  rewrite crosstab_nrows, crosstab_ncols. intros Hi.
  assert (In (nth i (row_labels x y) NA) (map fst (observed_pairs x y)))
    as Ha by (apply unique_incl, nth_In, Hi).
  apply in_map_iff in Ha as (p & Hp & Hin).
  destruct (observed_pairs_notna x y p Hin) as [Hna Hnb].
  destruct (unique_cover (snd p) (map snd (observed_pairs x y)))
    as (b & Hb & Hsame); [now apply in_map|].
  destruct (In_nth _ _ NA Hb) as (j & Hj & Ej).
  exists j. split; [exact Hj|].
  rewrite crosstab_entry by assumption.
  apply (count_pair_pos _ p); [exact Hin | |].
  - rewrite Hp. apply cell_same_eqb; [now rewrite <- Hp|].
    apply cell_same_refl.
  - unfold col_labels. rewrite Ej. now apply cell_same_eqb.
Qed.

Lemma crosstab_row_sum_pos (i : nat) :
  (i < nrows (crosstab x y))%nat -> (1 <= row_sum (crosstab x y) i)%Z.
Proof.
  intros Hi. destruct (crosstab_row_has_count i Hi) as (j & Hj & Hij).
  unfold row_sum. eapply Z.le_trans; [exact Hij|].
  apply Zsum_ge_member.
  - intros z Hz. apply in_map_iff in Hz as (j' & <- & Hj').
    apply in_seq in Hj'. apply crosstab_entry_nonneg; lia.
  - apply in_map_iff. exists j. split; [reflexivity|].
    apply in_seq. lia.
Qed.
End Crosstab.

Lemma crosstab_transposed (x y : Series) :
  transposed (crosstab x y) (crosstab y x).
Proof.
  assert (map fst (observed_pairs y x) = map snd (observed_pairs x y)) as Hf.
  { rewrite observed_pairs_swap, map_map. reflexivity. }
  assert (map snd (observed_pairs y x) = map fst (observed_pairs x y)) as Hs.
  { rewrite observed_pairs_swap, map_map. reflexivity. }
  repeat split.
  - rewrite crosstab_nrows, crosstab_ncols.
    unfold row_labels, col_labels. now rewrite Hf.
  - rewrite crosstab_nrows, crosstab_ncols.
    unfold row_labels, col_labels. now rewrite Hs.
  - rewrite crosstab_nrows, crosstab_ncols. intros i j Hi Hj.
    assert (row_labels y x = col_labels x y) as Er
        by (unfold row_labels, col_labels; now rewrite Hf).
    assert (col_labels y x = row_labels x y) as Ec
        by (unfold row_labels, col_labels; now rewrite Hs).
    rewrite !crosstab_entry; rewrite ?Er, ?Ec; try assumption.
    rewrite observed_pairs_swap. apply count_pair_swap.
Qed.

Lemma crosstab_col_sum_pos (x y : Series) (j : nat) :
  (j < ncols (crosstab x y))%nat -> (1 <= col_sum (crosstab x y) j)%Z.
Proof.
  intros Hj. pose proof (crosstab_transposed x y) as HT.
  rewrite <- (col_sum_transposed _ _ HT) by exact Hj.
  apply crosstab_row_sum_pos. destruct HT as (Hr & _). now rewrite Hr.
Qed.

Lemma crosstab_ncols_pos (x y : Series) :
  (1 <= nrows (crosstab x y))%nat -> (1 <= ncols (crosstab x y))%nat.
Proof.
  intros Hr. destruct (crosstab_row_has_count x y 0) as (j & Hj & _); lia.
Qed.

Lemma crosstab_total_pos (x y : Series) :
  (1 <= nrows (crosstab x y))%nat -> (1 <= total (crosstab x y))%Z.
Proof.
  intros Hr. unfold total.
  eapply Z.le_trans; [apply (crosstab_row_sum_pos x y 0); lia|].
  apply Zsum_ge_member.
  - intros z Hz. apply in_map_iff in Hz as (i & <- & Hi).
    apply in_seq in Hi.
    pose proof (crosstab_row_sum_pos x y i). lia.
  - apply in_map_iff. exists O. split; [reflexivity|]. apply in_seq. lia.
Qed.

Lemma crosstab_expected_pos (x y : Series) (i j : nat) :
  (i < nrows (crosstab x y))%nat -> (j < ncols (crosstab x y))%nat ->
  0 < expected (crosstab x y) i j.
Proof.
  intros Hi Hj. unfold expected.
  pose proof (crosstab_row_sum_pos x y i Hi).
  pose proof (crosstab_col_sum_pos x y j Hj).
  assert (1 <= total (crosstab x y))%Z by (apply crosstab_total_pos; lia).
  apply Qlt_shift_div_l.
  - change 0 with (inject_Z 0). rewrite <- Zlt_Qlt. lia.
  - rewrite Qmult_0_l. change 0 with (inject_Z 0). rewrite <- Zlt_Qlt. nia.
Qed.

(** A table with at least one row passes every check of
    [chi2_contingency]. *)
Lemma crosstab_chi2_defined (x y : Series) :
  (1 <= nrows (crosstab x y))%nat ->
  chi2_contingency (crosstab x y) = Ok (chi2_value (crosstab x y)).
Proof.
  intros Hr. pose proof (crosstab_ncols_pos x y Hr) as Hc.
  unfold chi2_contingency, chi2_value, cells_of.
  set (M := crosstab x y) in *.
  destruct (existsb (fun p => (entry M (fst p) (snd p) <? 0)%Z) _) eqn:E1.
  { apply existsb_exists in E1 as ([i j] & Hin & Hlt).
    apply in_prod_iff in Hin as [Hi Hj]. apply in_seq in Hi, Hj.
    simpl in Hlt. apply Z.ltb_lt in Hlt.
    pose proof (crosstab_entry_nonneg x y i j). fold M in H. lia. }
  destruct (Z.of_nat (nrows M * ncols M) =? 0)%Z eqn:E2.
  { apply Z.eqb_eq in E2. nia. }
  destruct (existsb (fun p => Qeq_bool (expected M (fst p) (snd p)) 0) _)
    eqn:E3.
  { apply existsb_exists in E3 as ([i j] & Hin & Hz).
    apply in_prod_iff in Hin as [Hi Hj]. apply in_seq in Hi, Hj.
    simpl in Hz. apply Qeq_bool_iff in Hz.
    pose proof (crosstab_expected_pos x y i j) as Hpos. fold M in Hpos.
    rewrite Hz in Hpos. exfalso.
    apply (Qlt_irrefl 0). apply Hpos; lia. }
  repeat match goal with
         | |- context [if ?c then _ else _] => destruct c
         end; reflexivity.
Qed.

(** ** The statistic is not negative *)

Lemma Qsum_nonneg (l : list Q) :
  (forall q, In q l -> 0 <= q) -> 0 <= Qsum l.
Proof.
  induction l as [|a l IH]; simpl; intros H; [apply Qle_refl|].
  pose proof (H a (or_introl eq_refl)).
  assert (0 <= Qsum l) by (apply IH; intros; apply H; now right). lra.
Qed.

Lemma pearson_term_nonneg (o e : Q) : 0 < e -> 0 <= pearson_term o e.
Proof.
  intros He. unfold pearson_term. apply Qle_shift_div_l; [exact He|].
  rewrite Qmult_0_l. generalize (o - e). intros t. nra.
Qed.

Lemma crosstab_chi2_sum_nonneg (adjust : Q -> Q -> Q) (x y : Series) :
  0 <= chi2_sum adjust (crosstab x y).
Proof.
  unfold chi2_sum. apply Qsum_nonneg.
  intros q Hq. apply in_map_iff in Hq as (i & <- & Hi). apply in_seq in Hi.
  apply Qsum_nonneg.
  intros q Hq. apply in_map_iff in Hq as (j & <- & Hj). apply in_seq in Hj.
  apply pearson_term_nonneg. apply crosstab_expected_pos; lia.
Qed.

Lemma crosstab_chi2_value_nonneg (x y : Series) :
  0 <= chi2_value (crosstab x y).
Proof.
  unfold chi2_value.
  repeat match goal with
         | |- context [if ?c then _ else _] => destruct c
         end;
    [apply Qle_refl | apply crosstab_chi2_sum_nonneg ..].
Qed.

(** ** [cramers_v]: how a call unfolds *)

Lemma cramers_v_radicand_sqrt (x y : Series) :
  cramers_v x y = (q <- cramers_v_radicand x y ;; Ok (np_sqrt q)).
Proof.
  unfold cramers_v, cramers_v_radicand.
  destruct (chi2_contingency (crosstab x y)); reflexivity.
Qed.

(** With at least two rows and two columns the result is a number. *)
Lemma cramers_v_number (x y : Series) :
  (2 <= nrows (crosstab x y))%nat -> (2 <= ncols (crosstab x y))%nat ->
  cramers_v x y
  = Ok (Fin (sqrt (Q2R (chi2_value (crosstab x y)
                        / inject_Z (total (crosstab x y)
                                    * (Z.min (Z.of_nat (nrows (crosstab x y)))
                                             (Z.of_nat (ncols (crosstab x y)))
                                       - 1)))))).
Proof.
  intros Hr Hc. unfold cramers_v.
  rewrite crosstab_chi2_defined by lia. simpl.
  rewrite sum_sum_total.
  set (M := crosstab x y) in *.
  assert (1 <= total M)%Z as Hn by (apply crosstab_total_pos; fold M; lia).
  set (d := (total M * (Z.min (Z.of_nat (nrows M)) (Z.of_nat (ncols M)) - 1))%Z).
  assert (0 < d)%Z as Hd by (subst d; nia).
  unfold true_divide.
  destruct (d =? 0)%Z eqn:E; [apply Z.eqb_eq in E; lia|].
  unfold np_sqrt.
  assert (0 <= chi2_value M / inject_Z d) as Hq.
  { apply Qle_shift_div_l.
    - change 0 with (inject_Z 0). rewrite <- Zlt_Qlt. exact Hd.
    - rewrite Qmult_0_l. apply crosstab_chi2_value_nonneg. }
  apply Qle_bool_iff in Hq. now rewrite Hq.
Qed.

(** ** [cramers_v]: the claims *)

Lemma Q2R_quarter : Q2R (4294967296 # 17179869184) = (1 / 4)%R.
Proof. unfold Q2R; simpl. lra. Qed.

(** C1.  On two binary columns that agree row by row the table is
    [[2,0],[0,2]]: Pearson's statistic is 4 and the formula of the claim
    gives [sqrt(4 / (4 * 1)) = 1], while [cramers_v] returns 1/2, because
    [chi2_contingency] is called with its default [correction=True] and
    Yates-corrects every 2 x 2 table (statistic 1). *)
Theorem cramers_v_yates_on_2x2 :
  crosstab yes_no yes_no = [[2; 0]; [0; 2]]%Z
  /\ pearson_chi2 (crosstab yes_no yes_no) == 4
  /\ cramers_v_formula yes_no yes_no = 1%R
  /\ chi2_contingency (crosstab yes_no yes_no) = Ok (chi2_sum yates [[2; 0]; [0; 2]]%Z)
  /\ chi2_sum yates [[2; 0]; [0; 2]]%Z == 1
  /\ cramers_v yes_no yes_no = Ok (Fin (1 / 2)%R)
  /\ cramers_v yes_no yes_no <> Ok (Fin (cramers_v_formula yes_no yes_no)).
Proof.
  assert (cramers_v_formula yes_no yes_no = 1%R) as Hf.
  { unfold cramers_v_formula.
    match goal with
    | |- sqrt (Q2R ?q) = _ =>
        let q' := eval vm_compute in q in change q with q'
    end.
    replace (Q2R _) with 1%R by (unfold Q2R; simpl; lra).
    apply sqrt_1. }
  assert (cramers_v yes_no yes_no = Ok (Fin (1 / 2)%R)) as Hv.
  { rewrite cramers_v_radicand_sqrt.
    match goal with
    | |- (q <- ?m ;; _) = _ =>
        let m' := eval vm_compute in m in change m with m'
    end.
    simpl. rewrite Q2R_quarter. do 2 f_equal.
    apply sqrt_lem_1; lra. }
  repeat split; try reflexivity; try assumption.
  rewrite Hv, Hf. intros H. inversion H. lra.
Qed.

(** Off the 2 x 2 case the correction is not applied and [cramers_v] is
    the formula. *)
Lemma cramers_v_formula_off_2x2 (x y : Series) :
  (2 <= nrows (crosstab x y))%nat -> (2 <= ncols (crosstab x y))%nat ->
  (3 <= nrows (crosstab x y) \/ 3 <= ncols (crosstab x y))%nat ->
  cramers_v x y = Ok (Fin (cramers_v_formula x y)).
Proof.
  intros Hr Hc H3. rewrite cramers_v_number by assumption.
  unfold cramers_v_formula, pearson_chi2, chi2_value.
  set (M := crosstab x y) in *.
  destruct (_ =? 0)%Z eqn:E0; [apply Z.eqb_eq in E0; nia|].
  destruct (_ =? 1)%Z eqn:E1; [apply Z.eqb_eq in E1; nia|].
  reflexivity.
Qed.

(** C2 as the claim states it fails: two columns with two observed
    categories each, whose rows with both entries present all carry one
    label of the first column, give a table with a single row; both calls
    return NaN, and NaN is within no tolerance of NaN. *)
Lemma cramers_v_two_categories_each_nan :
  n_observed x_y_y = 2%nat /\ n_observed na_u_v = 2%nat
  /\ cramers_v x_y_y na_u_v = Ok NaN
  /\ cramers_v na_u_v x_y_y = Ok NaN.
Proof.
  split; [reflexivity|]. split; [reflexivity|].
  split; rewrite cramers_v_radicand_sqrt;
    match goal with
    | |- (q <- ?m ;; _) = _ =>
        let m' := eval vm_compute in m in change m with m'
    end; reflexivity.
Qed.

(** C2, amended.  For two columns whose table (over the rows where both
    entries are present) has at least two rows and two columns,
    [cramers_v(a, b)] and [cramers_v(b, a)] are both numbers and differ by
    at most 1e-9 (in exact arithmetic they coincide: the two tables are
    transposes of each other and the statistic sums the same terms). *)
Theorem cramers_v_symmetric (a b : Series)
        (Ha : (2 <= nrows (crosstab a b))%nat)
        (Hb : (2 <= ncols (crosstab a b))%nat) :
  exists v w : R,
    cramers_v a b = Ok (Fin v) /\ cramers_v b a = Ok (Fin w)
    /\ (Rabs (v - w) <= 1 / 10 ^ 9)%R.
Proof.
  pose proof (crosstab_transposed a b) as HT.
  pose proof HT as (Hr & Hc & _).
  eexists _, _. split; [apply cramers_v_number; assumption|].
  split; [apply cramers_v_number; lia|].
  rewrite Hr, Hc, (total_transposed _ _ HT), (Z.min_comm (Z.of_nat (ncols _))).
  pose proof (chi2_contingency_transposed _ _ HT) as Hs.
  rewrite !crosstab_chi2_defined in Hs by lia. simpl in Hs.
  match goal with
  | |- (Rabs (sqrt (Q2R ?p) - sqrt (Q2R ?q)) <= _)%R =>
      assert (q == p) as Hq by (now rewrite Hs)
  end.
  rewrite (Qeq_eqR _ _ Hq).
  unfold Rminus. rewrite Rplus_opp_r, Rabs_R0.
  apply Rlt_le, Rdiv_lt_0_compat; [lra | apply pow_lt; lra].
Qed.

Lemma cramers_v_symmetric_witness :
  exists v w : R,
    cramers_v two_by three_by = Ok (Fin v)
    /\ cramers_v three_by two_by = Ok (Fin w)
    /\ (Rabs (v - w) <= 1 / 10 ^ 9)%R.
Proof.
  apply (cramers_v_symmetric two_by three_by).
  - vm_compute. lia.
  - vm_compute. lia.
Defined.

(** C5 as the claim states it fails: a constant column against a binary
    one gives a 1 x 2 table, and [cramers_v] returns NaN without raising. *)
Lemma cramers_v_constant_column_nan :
  Z.min (Z.of_nat (nrows (crosstab constant yes_no)))
        (Z.of_nat (ncols (crosstab constant yes_no))) = 1%Z
  /\ cramers_v constant yes_no = Ok NaN.
Proof.
  split; [reflexivity|].
  rewrite cramers_v_radicand_sqrt.
  match goal with
  | |- (q <- ?m ;; _) = _ =>
      let m' := eval vm_compute in m in change m with m'
  end.
  reflexivity.
Qed.

(** C5, amended.  Whenever the table has a single row or a single column
    ([min(r, k) = 1]), [cramers_v] raises nothing and returns NaN: the
    statistic is [0.0] for [dof = 0], the divisor [n * (min(r,k) - 1)] is
    0, and numpy's [0.0 / 0] is NaN. *)
Theorem cramers_v_single_category (x y : Series)
        (Hmin : Z.min (Z.of_nat (nrows (crosstab x y)))
                      (Z.of_nat (ncols (crosstab x y))) = 1%Z) :
  cramers_v x y = Ok NaN.
Proof.
  unfold cramers_v.
  rewrite crosstab_chi2_defined by lia. simpl.
  rewrite Hmin. unfold chi2_value.
  set (M := crosstab x y) in *.
  destruct (_ =? 0)%Z eqn:E0; [|apply Z.eqb_neq in E0; nia].
  replace (sum_sum M * (1 - 1))%Z with 0%Z by lia.
  reflexivity.
Qed.

Lemma cramers_v_single_category_witness : cramers_v constant yes_no = Ok NaN.
Proof.
  apply (cramers_v_single_category constant yes_no).
  reflexivity.
Defined.

(* ================================================================== *)
(** ** [categorical_and_numeric_correlation]: the claims *)

Section AnovaFacts.
Variable anova_pvalue : list (list (option Q)) -> fl R.

Lemma groups_of_length (df : DataFrame) (col numeric_feature : string)
      (groups : list Series) :
  groups_of df col numeric_feature = Ok groups ->
  List.length groups = n_categories df col.
Proof.
  unfold groups_of, n_categories.
  destruct (getitem df col) as [s|e]; simpl; [|discriminate].
  apply mapM_Ok_length.
Qed.

Lemma f_oneway_few (groups : list Series) :
  (List.length groups < 2)%nat ->
  f_oneway anova_pvalue groups = Raise TypeError.
Proof.
  intros H. unfold f_oneway.
  destruct (List.length groups <? 2)%nat eqn:E; [reflexivity|].
  apply Nat.ltb_ge in E. lia.
Qed.

Lemma p_values_loop_raises (df : DataFrame) (numeric_feature c : string)
      (cols : list string) (acc : list (string * fl R)) :
  In c cols -> (n_categories df c < 2)%nat ->
  raises (p_values_loop anova_pvalue df numeric_feature cols acc).
Proof.
  intros Hin Hfew. revert acc.
  induction cols as [|col rest IH]; intros acc; [contradiction|].
  simpl.
  destruct (groups_of df col numeric_feature) as [groups|e] eqn:Hg; simpl;
    [|now exists e].
  destruct (f_oneway anova_pvalue groups) as [p|e] eqn:Hf; simpl;
    [|now exists e].
  destruct Hin as [->|Hin]; [|now apply IH].
  rewrite f_oneway_few in Hf; [discriminate|].
  now rewrite (groups_of_length _ _ _ _ Hg).
Qed.
End AnovaFacts.

(** C8 as the claim states it fails: a column with one observed label and a
    missing entry yields one non-empty group only, and the function returns
    a table (with a NaN p-value) instead of raising. *)
Lemma anova_one_group_with_missing_returns :
  n_nonempty_groups one_label_and_missing "g" "y" = 1%nat
  /\ categorical_and_numeric_correlation (fun _ => Fin 0%R)
       one_label_and_missing "y" ["g"%string]
     = Ok [("g"%string, NaN)].
Proof. split; reflexivity. Qed.

(** C8, amended.  [categorical_and_numeric_correlation] fails whenever some
    listed categorical column has fewer than two distinct values, a missing
    value counting as one; the error is the one [f_oneway] raises for fewer
    than two samples (or an earlier [KeyError]).  A column without missing
    entries and with only one observed group is such a column. *)
Theorem anova_fails_below_two_categories
        (anova_pvalue : list (list (option Q)) -> fl R)
        (df : DataFrame) (numeric_feature : string)
        (categorical_columns : list string) (c : string)
        (Hlisted : In c categorical_columns)
        (Hfew : (n_categories df c < 2)%nat) :
  raises (categorical_and_numeric_correlation anova_pvalue df numeric_feature
            categorical_columns).
Proof.
  unfold categorical_and_numeric_correlation.
  now apply p_values_loop_raises with (c := c).
Qed.

Lemma anova_fails_below_two_categories_witness :
  raises (categorical_and_numeric_correlation (fun _ => Fin 0%R)
            one_label "y" ["g"%string]).
Proof.
  apply (anova_fails_below_two_categories (fun _ => Fin 0%R)
           one_label "y" ["g"%string] "g"%string).
  - left. reflexivity.
  - vm_compute. lia.
Defined.

(* ================================================================== *)
(** ** Float arithmetic on finite operands *)

Lemma fdiv_fin (a b : R) : b <> 0%R -> fdiv (Fin a) (Fin b) = Fin (a / b)%R.
Proof. intros H. simpl. destruct (Req_EM_T b 0); [contradiction | reflexivity]. Qed.

Lemma fdiv_zero_zero : fdiv (Fin 0%R) (Fin 0%R) = NaN.
Proof. simpl. destruct (Req_EM_T 0 0); [reflexivity | congruence]. Qed.

Lemma fsqrt_fin (a : R) : (0 <= a)%R -> fsqrt (Fin a) = Fin (sqrt a).
Proof. intros H. simpl. destruct (Rlt_dec a 0); [lra | reflexivity]. Qed.

Lemma Q2R_inject_Z (z : Z) : Q2R (inject_Z z) = IZR z.
Proof. unfold Q2R; simpl. lra. Qed.

Lemma Q2R_zero : Q2R 0 = 0%R.
Proof. unfold Q2R; simpl. lra. Qed.

(** ** The Wilson interval on the reals *)

Lemma le_sqrt (t A : R) : (0 <= A)%R -> (t * t <= A)%R -> (t <= sqrt A)%R.
Proof.
  intros HA Ht. destruct (Rle_dec t 0) as [Hn|Hp].
  - pose proof (sqrt_pos A). lra.
  - apply Rle_trans with (sqrt (t * t)).
    + rewrite sqrt_square by lra. apply Rle_refl.
    + now apply sqrt_le_1_alt.
Qed.

Lemma sqrt_le (t A : R) : (0 <= t)%R -> (A <= t * t)%R -> (sqrt A <= t)%R.
Proof.
  intros Ht HA. apply Rle_trans with (sqrt (t * t)).
  - now apply sqrt_le_1_alt.
  - rewrite sqrt_square by exact Ht. apply Rle_refl.
Qed.

Section WilsonReal.
Variables z p n : R.
Hypothesis Hz : (0 <= z)%R.
Hypothesis Hn : (0 < n)%R.
Hypothesis Hp : (0 <= p <= 1)%R.

Lemma wilson_inv_pos : (0 < / n)%R.
Proof. apply Rinv_0_lt_compat, Hn. Qed.

Lemma wilson_radicand_inv :
  wilson_radicand z p n = (p * (1 - p) * / n + z * z * / n * / n / 4)%R.
Proof. unfold wilson_radicand. field. lra. Qed.

Lemma wilson_radicand_nonneg : (0 <= wilson_radicand z p n)%R.
Proof.
  rewrite wilson_radicand_inv. pose proof wilson_inv_pos.
  assert (0 <= p * (1 - p))%R by nra.
  assert (0 <= (z * / n) * (z * / n))%R by nra.
  nra.
Qed.

Lemma wilson_denom_inv : wilson_denom z n = (1 + z * z * / n)%R.
Proof. unfold wilson_denom. field. lra. Qed.

Lemma wilson_denom_pos : (0 < wilson_denom z n)%R.
Proof. rewrite wilson_denom_inv. pose proof wilson_inv_pos. nra. Qed.

(** Bounds on the square root that give the four inequalities. *)
Lemma wilson_sqrt_lower : (z * / n * (1 / 2 - p) <= sqrt (wilson_radicand z p n))%R.
Proof.
  apply le_sqrt; [apply wilson_radicand_nonneg|].
  rewrite wilson_radicand_inv. pose proof wilson_inv_pos.
  assert (0 <= p * (1 - p))%R by nra.
  assert (0 <= (z * / n) * (z * / n) * (p * (1 - p)))%R
    by (apply Rmult_le_pos; nra).
  nra.
Qed.

Lemma wilson_sqrt_upper : (z * / n * (p - 1 / 2) <= sqrt (wilson_radicand z p n))%R.
Proof.
  apply le_sqrt; [apply wilson_radicand_nonneg|].
  rewrite wilson_radicand_inv. pose proof wilson_inv_pos.
  assert (0 <= p * (1 - p))%R by nra.
  assert (0 <= (z * / n) * (z * / n) * (p * (1 - p)))%R
    by (apply Rmult_le_pos; nra).
  nra.
Qed.

Lemma wilson_zsqrt_le_low : (z * sqrt (wilson_radicand z p n) <= p + z * z * / n / 2)%R.
Proof.
  pose proof wilson_inv_pos. pose proof wilson_radicand_nonneg as HA.
  replace (z * sqrt (wilson_radicand z p n))%R with (sqrt (z * z * wilson_radicand z p n))
    by (rewrite sqrt_mult by nra; now rewrite sqrt_square by exact Hz).
  apply sqrt_le; [nra|].
  rewrite wilson_radicand_inv.
  assert (0 <= z * z * / n * (p * p))%R
    by (apply Rmult_le_pos; nra).
  nra.
Qed.

Lemma wilson_zsqrt_le_high : (z * sqrt (wilson_radicand z p n) <= (1 - p) + z * z * / n / 2)%R.
Proof.
  pose proof wilson_inv_pos. pose proof wilson_radicand_nonneg as HA.
  replace (z * sqrt (wilson_radicand z p n))%R with (sqrt (z * z * wilson_radicand z p n))
    by (rewrite sqrt_mult by nra; now rewrite sqrt_square by exact Hz).
  apply sqrt_le; [nra|].
  rewrite wilson_radicand_inv.
  assert (0 <= z * z * / n * ((1 - p) * (1 - p)))%R
    by (apply Rmult_le_pos; nra).
  nra.
Qed.

Lemma wilson_bounds_form :
  (wilson_center z p n - wilson_half_width z p n
   = (p + z * z * / n / 2 - z * sqrt (wilson_radicand z p n)) / wilson_denom z n)%R
  /\ (wilson_center z p n + wilson_half_width z p n
      = (p + z * z * / n / 2 + z * sqrt (wilson_radicand z p n)) / wilson_denom z n)%R.
Proof.
  pose proof wilson_denom_pos as HD.
  unfold wilson_center, wilson_half_width.
  fold (wilson_radicand z p n). fold (wilson_denom z n).
  split; field; lra.
Qed.

Lemma wilson_contains :
  (0 <= wilson_center z p n - wilson_half_width z p n)%R
  /\ (wilson_center z p n - wilson_half_width z p n <= p)%R
  /\ (p <= wilson_center z p n + wilson_half_width z p n)%R
  /\ (wilson_center z p n + wilson_half_width z p n <= 1)%R.
Proof.
  destruct wilson_bounds_form as [-> ->].
  pose proof wilson_denom_pos as HD. pose proof wilson_inv_pos as Hi.
  pose proof wilson_sqrt_lower. pose proof wilson_sqrt_upper.
  pose proof wilson_zsqrt_le_low. pose proof wilson_zsqrt_le_high.
  pose proof (sqrt_pos (wilson_radicand z p n)).
  repeat split.
  - apply Rmult_le_reg_r with (wilson_denom z n); [exact HD|].
    unfold Rdiv. rewrite Rmult_assoc, Rinv_l by lra. lra.
  - apply Rmult_le_reg_r with (wilson_denom z n); [exact HD|].
    unfold Rdiv. rewrite Rmult_assoc, Rinv_l by lra.
    rewrite wilson_denom_inv. nra.
  - apply Rmult_le_reg_r with (wilson_denom z n); [exact HD|].
    unfold Rdiv. rewrite Rmult_assoc, Rinv_l by lra.
    rewrite wilson_denom_inv. nra.
  - apply Rmult_le_reg_r with (wilson_denom z n); [exact HD|].
    unfold Rdiv. rewrite Rmult_assoc, Rinv_l by lra.
    rewrite wilson_denom_inv. lra.
Qed.
End WilsonReal.

(** ** [proportion_confint] on a proportion *)

Lemma proportion_confint_fin (crit : R) (count : Q) (nobs : Z) :
  (0 < nobs)%Z ->
  (0 <= Q2R count / IZR nobs <= 1)%R ->
  proportion_confint crit count nobs
  = (Fin (wilson_lower crit (Q2R count / IZR nobs) (IZR nobs)),
     Fin (wilson_upper crit (Q2R count / IZR nobs) (IZR nobs))).
Proof.
  intros Hn Hp.
  assert (0 < IZR nobs)%R as Hn' by now apply IZR_lt.
  pose proof (wilson_radicand_nonneg crit _ _ Hn' Hp) as HA.
  pose proof (wilson_denom_pos crit _ Hn') as HD.
  unfold wilson_radicand in HA. unfold wilson_denom in HD.
  unfold proportion_confint.
  rewrite (fdiv_fin (Q2R count)) by lra.
  rewrite (fdiv_fin (crit * crit) (IZR nobs)) by lra.
  cbn [fadd fsub fneg fmul].
  rewrite (fdiv_fin (crit * crit) (2 * IZR nobs)) by lra.
  rewrite (fdiv_fin _ (IZR nobs)) by lra.
  rewrite (fdiv_fin (crit * crit) (4 * (IZR nobs * IZR nobs))) by nra.
  cbn [fadd fsub fneg fmul].
  rewrite (fdiv_fin _ (1 + crit * crit / IZR nobs)) by lra.
  rewrite fsqrt_fin by exact HA.
  cbn [fadd fsub fneg fmul].
  rewrite (fdiv_fin _ (1 + crit * crit / IZR nobs)) by lra.
  cbn [fadd fsub fneg fmul].
  reflexivity.
Qed.

Lemma proportion_confint_empty (crit : R) :
  proportion_confint crit 0 0 = (NaN, NaN).
Proof.
  unfold proportion_confint. rewrite Q2R_zero, fdiv_zero_zero.
  reflexivity.
Qed.

(** ** Binary columns *)

Lemma binary_series (s : Series) :
  forallb binary_cell s = true ->
  exists vs, to_numeric s = Ok vs
             /\ List.length (dropna vs) = List.length s
             /\ 0 <= Qsum (dropna vs)
             /\ Qsum (dropna vs) <= inject_Z (Z.of_nat (List.length s)).
Proof.
  induction s as [|c s IH]; intros H.
  - exists []. repeat split; simpl; try apply Qle_refl.
  - simpl in H. apply andb_true_iff in H as [Hc Hs].
    destruct (IH Hs) as (vs & Hvs & Hlen & H0 & H1).
    destruct c as [q| |]; try discriminate.
    exists (Some q :: vs). simpl. rewrite Hvs. simpl.
    rewrite Hlen. repeat split.
    + simpl in Hc. apply orb_true_iff in Hc as [Hq|Hq];
        apply Qeq_bool_iff in Hq; rewrite Hq; lra.
    + rewrite Zpos_P_of_succ_nat, <- Z.add_1_r, inject_Z_plus.
      simpl in Hc. apply orb_true_iff in Hc as [Hq|Hq];
        apply Qeq_bool_iff in Hq; rewrite Hq;
        change (inject_Z 1) with 1; lra.
Qed.

Lemma series_sum_Ok (s : Series) (vs : list (option Q)) :
  to_numeric s = Ok vs -> series_sum s = Ok (Qsum (dropna vs)).
Proof. intros H. unfold series_sum. now rewrite H. Qed.

Lemma series_mean_Ok (s : Series) (vs : list (option Q)) :
  to_numeric s = Ok vs -> dropna vs <> [] ->
  series_mean s
  = Ok (Fin (Q2R (Qsum (dropna vs)
                  / inject_Z (Z.of_nat (List.length (dropna vs)))))).
Proof.
  intros H Hne. unfold series_mean. rewrite H. cbn [bind].
  destruct (dropna vs); [congruence | reflexivity].
Qed.

Section PrevalenceFacts.
Variable crit : R.

Lemma prevalence_of_binary (df : DataFrame) (condition : string) :
  (0 < len df)%Z -> binary_column df condition = true ->
  let p := (Q2R (positive_count df condition) / IZR (len df))%R in
  (0 <= p <= 1)%R
  /\ prevalence_of crit df condition
     = Ok (mkPrev condition (Fin p)
                  (Fin (wilson_lower crit p (IZR (len df))))
                  (Fin (wilson_upper crit p (IZR (len df))))).
Proof.
  intros Hn Hbin. unfold binary_column in Hbin.
  unfold positive_count, prevalence_of.
  destruct (getitem df condition) as [s|e] eqn:Hs; [|discriminate].
  destruct (binary_series s Hbin) as (vs & Hvs & Hlen & H0 & H1).
  assert (List.length s = List.length (rows df)) as Hrows.
  { apply getitem_Ok_inv in Hs as (pos & _ & ->). apply length_map. }
  rewrite Hrows in Hlen, H1. fold (len df) in H1.
  rewrite (series_sum_Ok s vs Hvs).
  assert (0 < IZR (len df))%R as Hn' by now apply IZR_lt.
  assert (~ inject_Z (len df) == 0) as Hnz.
  { intros E. apply (Qeq_eqR) in E.
    rewrite Q2R_inject_Z, Q2R_zero in E. lra. }
  assert (0 <= Q2R (Qsum (dropna vs)) / IZR (len df) <= 1)%R as Hp.
  { apply Qle_Rle in H0, H1.
    rewrite Q2R_zero in H0. rewrite Q2R_inject_Z in H1.
    split.
    - apply Rmult_le_reg_r with (IZR (len df)); [exact Hn'|].
      unfold Rdiv. rewrite Rmult_assoc, Rinv_l by lra. lra.
    - apply Rmult_le_reg_r with (IZR (len df)); [exact Hn'|].
      unfold Rdiv. rewrite Rmult_assoc, Rinv_l by lra. lra. }
  cbv zeta. split; [exact Hp|].
  cbn [bind].
  rewrite (series_mean_Ok s vs Hvs)
    by (intros E; rewrite E in Hlen; unfold len in Hn; simpl in Hlen; lia).
  cbn [bind]. rewrite Hlen. fold (len df).
  rewrite Q2R_div, Q2R_inject_Z by exact Hnz.
  rewrite (series_sum_Ok s vs Hvs). cbn [bind].
  rewrite proportion_confint_fin by assumption.
  reflexivity.
Qed.

Lemma prevalence_of_empty (df : DataFrame) (condition : string) :
  rows df = [] -> has_column df condition = true ->
  prevalence_of crit df condition = Ok (mkPrev condition NaN NaN NaN).
Proof.
  intros Hrows Hcol. unfold has_column in Hcol.
  unfold prevalence_of, getitem, len.
  destruct (index_of condition (columns df)); [|discriminate].
  rewrite Hrows. unfold series_mean, series_sum.
  cbn [map bind to_numeric dropna Qsum fold_right List.length Z.of_nat].
  now rewrite proportion_confint_empty.
Qed.
End PrevalenceFacts.

(** ** [count_prevalence_rate]: the claims *)

Lemma crit_range_nonneg (crit : R) : crit_range crit -> (0 <= crit)%R.
Proof. unfold crit_range. lra. Qed.

Lemma crit_range_quoted : crit_range z_quoted.
Proof. unfold crit_range, z_quoted. lra. Qed.

Lemma len_zero_rows (df : DataFrame) : len df = 0%Z -> rows df = [].
Proof.
  unfold len. destruct (rows df); [reflexivity | simpl; lia].
Qed.

(** C3 as the claim states it fails.  On a frame without rows the returned
    row holds NaN three times, and no comparison with NaN holds.  And the
    bounds are computed in [float64] and not clamped: on a column of seven
    ones the upper bound comes out below the prevalence 1.0, on 38 ones it
    comes out above 1, on 77 zeros the lower bound comes out below 0. *)
Lemma prevalence_row_of_empty_frame_not_contained :
  (exists row : PrevalenceRow,
      count_prevalence_rate z_quoted no_rows ["c"%string] = Ok [row]
      /\ ~ interval_ok row)
  /\ Float64.below Float64.seven_ones_upper Float64.seven_ones_prevalence
     = true
  /\ Float64.below Float64.one Float64.all_ones_38_upper = true
  /\ Float64.below Float64.all_zeros_77_lower Float64.zero = true.
Proof.
  split.
  - exists (mkPrev "c" NaN NaN NaN). split.
    + unfold count_prevalence_rate. cbn [mapM].
      now rewrite prevalence_of_empty.
    + unfold interval_ok. simpl. tauto.
  - repeat split; vm_compute; reflexivity.
Qed.

(** In exact arithmetic the interval contains the proportion and lies in
    the unit interval. *)
Lemma wilson_interval_exact (crit : R) (df : DataFrame)
      (conditions : list string)
      (Hcrit : crit_range crit)
      (Hrows : (0 < len df)%Z)
      (Hbinary : forallb (binary_column df) conditions = true) :
  exists out : list PrevalenceRow,
    count_prevalence_rate crit df conditions = Ok out
    /\ map Condition out = conditions
    /\ Forall (fun row =>
                 interval_ok row
                 /\ exists lower p upper : R,
                     Lower_Bound row = Fin lower
                     /\ Prevalence_Rate row = Fin p
                     /\ Upper_Bound row = Fin upper)
              out.
Proof.
  apply crit_range_nonneg in Hcrit.
  unfold count_prevalence_rate.
  induction conditions as [|c cs IH].
  - exists []. repeat split; constructor.
  - simpl in Hbinary. apply andb_true_iff in Hbinary as [Hc Hcs].
    destruct (IH Hcs) as (out & Hout & Hnames & Hall).
    destruct (prevalence_of_binary crit df c Hrows Hc) as [Hp Hrow].
    cbv zeta in Hp, Hrow.
    cbn [mapM]. rewrite Hrow, Hout. cbn [bind].
    eexists. split; [reflexivity|]. split; [simpl; now rewrite Hnames|].
    constructor; [|exact Hall].
    assert (0 < IZR (len df))%R as Hn by now apply IZR_lt.
    pose proof (wilson_contains crit _ _ Hcrit Hn Hp) as (H0 & H1 & H2 & H3).
    split.
    + unfold interval_ok, wilson_lower, wilson_upper. simpl. auto.
    + cbn [Lower_Bound Prevalence_Rate Upper_Bound].
      eexists _, _, _. repeat split; reflexivity.
Qed.

Lemma interval_ok_within (eps : R) (row : PrevalenceRow) :
  (0 <= eps)%R ->
  interval_ok row ->
  (exists lower p upper : R,
      Lower_Bound row = Fin lower /\ Prevalence_Rate row = Fin p
      /\ Upper_Bound row = Fin upper) ->
  interval_within eps row.
Proof.
  intros Heps (H1 & H2 & H3 & H4) (lower & p & upper & El & Ep & Eu).
  unfold interval_within. rewrite El, Ep, Eu in *.
  simpl in H1, H2, H3, H4. lra.
Qed.

(** C3, amended.  For every frame with at least one row and every list of
    binary condition columns, [count_prevalence_rate] returns one row per
    condition, and each row satisfies [lower <= prevalence <= upper] with
    [0 <= lower] and [upper <= 1], each up to a rounding error of at most
    1e-9: the bounds are not clamped. *)
Theorem wilson_interval_contains (crit : R) (df : DataFrame)
        (conditions : list string)
        (Hcrit : crit_range crit)
        (Hrows : (0 < len df)%Z)
        (Hbinary : forallb (binary_column df) conditions = true) :
  exists out : list PrevalenceRow,
    count_prevalence_rate crit df conditions = Ok out
    /\ map Condition out = conditions
    /\ Forall (interval_within (1 / 10 ^ 9)) out.
Proof.
  destruct (wilson_interval_exact crit df conditions Hcrit Hrows Hbinary)
    as (out & Hout & Hnames & Hall).
  exists out. split; [exact Hout|]. split; [exact Hnames|].
  eapply Forall_impl; [|exact Hall].
  intros row [Hok Hfin]. apply interval_ok_within; [|exact Hok|exact Hfin].
  apply Rlt_le, Rdiv_lt_0_compat; [lra | apply pow_lt; lra].
Qed.

Lemma wilson_interval_contains_witness :
  exists out : list PrevalenceRow,
    count_prevalence_rate z_quoted fifty_fifty ["c"%string] = Ok out
    /\ map Condition out = ["c"%string]
    /\ Forall (interval_within (1 / 10 ^ 9)) out.
Proof.
  apply (wilson_interval_contains z_quoted fifty_fifty ["c"%string]).
  - unfold crit_range, z_quoted. lra.
  - reflexivity.
  - reflexivity.
Defined.

(** C6 as the claim states it fails: on a frame without rows
    [count_prevalence_rate] returns a table. *)
Lemma count_prevalence_rate_no_rows_returns :
  len no_rows = 0%Z
  /\ count_prevalence_rate z_quoted no_rows ["c"%string]
     = Ok [mkPrev "c" NaN NaN NaN].
Proof.
  split; [reflexivity|].
  unfold count_prevalence_rate. cbn [mapM].
  now rewrite prevalence_of_empty.
Qed.

(** C6, amended.  When the frame has no rows ([n = 0]) and every condition
    names a column, [count_prevalence_rate] raises nothing and returns one
    row per condition whose prevalence and bounds are NaN: the mean of no
    entry is NaN, and [0 / 0] in [proportion_confint] is NaN. *)
Theorem count_prevalence_rate_empty (crit : R) (df : DataFrame)
        (conditions : list string)
        (Hn : len df = 0%Z)
        (Hcols : forallb (has_column df) conditions = true) :
  count_prevalence_rate crit df conditions
  = Ok (map (fun c => mkPrev c NaN NaN NaN) conditions).
Proof.
  apply len_zero_rows in Hn. unfold count_prevalence_rate.
  induction conditions as [|c cs IH]; [reflexivity|].
  simpl in Hcols. apply andb_true_iff in Hcols as [Hc Hcs].
  cbn [mapM map]. rewrite (prevalence_of_empty crit df c Hn Hc).
  rewrite (IH Hcs). reflexivity.
Qed.

Lemma count_prevalence_rate_empty_witness :
  count_prevalence_rate z_quoted no_rows ["c"%string]
  = Ok (map (fun c => mkPrev c NaN NaN NaN) ["c"%string]).
Proof.
  apply (count_prevalence_rate_empty z_quoted no_rows ["c"%string]).
  - reflexivity.
  - reflexivity.
Defined.

(** The interval for one half out of a hundred, for any critical value in
    the six-decimal range. *)
Lemma wilson_half_of_hundred (z : R) :
  crit_range z ->
  (4038 / 10000 <= wilson_lower z (1 / 2) 100 <= 4039 / 10000)%R
  /\ (5961 / 10000 <= wilson_upper z (1 / 2) 100 <= 5962 / 10000)%R.
Proof.
  intros Hz. pose proof (crit_range_nonneg z Hz) as Hz0.
  unfold crit_range in Hz.
  assert (0 < 100)%R as Hn by lra.
  assert (0 <= 1 / 2 <= 1)%R as Hp by lra.
  destruct (wilson_bounds_form z (1 / 2) 100 Hn) as [El Eu].
  unfold wilson_lower, wilson_upper. rewrite El, Eu.
  unfold wilson_denom.
  set (A := wilson_radicand z (1 / 2) 100).
  assert (A = 1 / 2 * (1 - 1 / 2) / 100 + z * z / (4 * (100 * 100)))%R
    as EA by reflexivity.
  assert (3841454 / 1000000 <= z * z <= 3841463 / 1000000)%R as Hzz by nra.
  assert (5095 / 100000 <= sqrt A)%R as HS1
      by (apply le_sqrt; rewrite EA; lra).
  assert (sqrt A <= 5096 / 100000)%R as HS2
      by (apply sqrt_le; rewrite ?EA; lra).
  assert (z * sqrt A <= 1959965 / 1000000 * (5096 / 100000))%R as HzS2
      by (apply Rmult_le_compat; lra).
  assert (1959963 / 1000000 * (5095 / 100000) <= z * sqrt A)%R as HzS1
      by (apply Rmult_le_compat; lra).
  assert (0 < 1 + z * z / 100)%R as HD by lra.
  repeat split.
  - apply Rmult_le_reg_r with (1 + z * z / 100)%R; [exact HD|].
    unfold Rdiv at 3. rewrite Rmult_assoc, Rinv_l by lra. lra.
  - apply Rmult_le_reg_r with (1 + z * z / 100)%R; [exact HD|].
    unfold Rdiv at 1. rewrite Rmult_assoc, Rinv_l by lra. lra.
  - apply Rmult_le_reg_r with (1 + z * z / 100)%R; [exact HD|].
    unfold Rdiv at 3. rewrite Rmult_assoc, Rinv_l by lra. lra.
  - apply Rmult_le_reg_r with (1 + z * z / 100)%R; [exact HD|].
    unfold Rdiv at 1. rewrite Rmult_assoc, Rinv_l by lra. lra.
Qed.

(** C9.  For a binary condition column with 50 ones among 100 rows,
    [count_prevalence_rate] returns the prevalence 0.5 and the bounds of the
    closed-form Wilson score interval at the critical value; the bounds are
    within 0.002 of 0.404 and 0.596, and within 0.002 of the closed form
    evaluated at z = 1.959964. *)
Theorem wilson_known_value (crit : R) (df : DataFrame) (condition : string)
        (Hcrit : crit_range crit)
        (Hbinary : binary_column df condition = true)
        (Hn : len df = 100%Z)
        (Hcount : positive_count df condition == 50) :
  exists lower upper : R,
    count_prevalence_rate crit df [condition]
    = Ok [mkPrev condition (Fin (1 / 2)%R) (Fin lower) (Fin upper)]
    /\ lower = (wilson_center crit (1 / 2) 100
                - wilson_half_width crit (1 / 2) 100)%R
    /\ upper = (wilson_center crit (1 / 2) 100
                + wilson_half_width crit (1 / 2) 100)%R
    /\ (Rabs (lower - 404 / 1000) <= 2 / 1000)%R
    /\ (Rabs (upper - 596 / 1000) <= 2 / 1000)%R
    /\ (Rabs (lower - wilson_lower z_quoted (1 / 2) 100) <= 2 / 1000)%R
    /\ (Rabs (upper - wilson_upper z_quoted (1 / 2) 100) <= 2 / 1000)%R.
Proof.
  assert (0 < len df)%Z as Hpos by lia.
  destruct (prevalence_of_binary crit df condition Hpos Hbinary) as [_ Hrow].
  cbv zeta in Hrow.
  assert (Q2R (positive_count df condition) / IZR (len df) = 1 / 2)%R as Hp.
  { rewrite (Qeq_eqR _ _ Hcount), Hn.
    change 50 with (inject_Z 50). rewrite Q2R_inject_Z. lra. }
  rewrite Hp, Hn in Hrow.
  exists (wilson_lower crit (1 / 2) 100), (wilson_upper crit (1 / 2) 100).
  split.
  { unfold count_prevalence_rate. cbn [mapM]. now rewrite Hrow. }
  pose proof (wilson_half_of_hundred crit Hcrit) as [Hl Hu].
  pose proof (wilson_half_of_hundred z_quoted crit_range_quoted) as [Hl' Hu'].
  repeat split; try reflexivity; apply Rabs_le; lra.
Qed.

Lemma wilson_known_value_witness :
  exists lower upper : R,
    count_prevalence_rate z_quoted fifty_fifty ["c"%string]
    = Ok [mkPrev "c" (Fin (1 / 2)%R) (Fin lower) (Fin upper)]
    /\ lower = (wilson_center z_quoted (1 / 2) 100
                - wilson_half_width z_quoted (1 / 2) 100)%R
    /\ upper = (wilson_center z_quoted (1 / 2) 100
                + wilson_half_width z_quoted (1 / 2) 100)%R
    /\ (Rabs (lower - 404 / 1000) <= 2 / 1000)%R
    /\ (Rabs (upper - 596 / 1000) <= 2 / 1000)%R
    /\ (Rabs (lower - wilson_lower z_quoted (1 / 2) 100) <= 2 / 1000)%R
    /\ (Rabs (upper - wilson_upper z_quoted (1 / 2) 100) <= 2 / 1000)%R.
Proof.
  apply (wilson_known_value z_quoted fifty_fifty "c"%string).
  - unfold crit_range, z_quoted. lra.
  - reflexivity.
  - reflexivity.
  - reflexivity.
Defined.

(* ================================================================== *)
(** * Further properties of the code *)

(** ** [find_outliers]: outcomes *)

Lemma to_numeric_label (s : Series) :
  forallb (fun c => match c with Str _ => false | _ => true end) s = false ->
  to_numeric s = Raise TypeError.
Proof.
  induction s as [|c s IH]; simpl; [discriminate|].
  destruct c as [q|t|]; simpl; intros H; try reflexivity;
    now rewrite (IH H).
Qed.

Lemma has_column_getitem (df : DataFrame) (col : string) :
  has_column df col = true -> exists s, getitem df col = Ok s.
Proof.
  unfold has_column, getitem.
  destruct (index_of col (columns df)); [eauto | discriminate].
Qed.

(** X1.  When the column is pasted into the query as a plain name and no
    column is called [nan], the outcome of [find_outliers] is decided by
    the column alone: [KeyError] exactly when the frame has no such column,
    [TypeError] exactly when the column holds a label,
    [UndefinedVariableError] exactly when it is numeric without any value,
    and otherwise a frame with the columns of the input. *)
Theorem find_outliers_outcome (other : query_fn) (df : DataFrame)
        (col : string) (limit : Z)
        (Hplain : plain_query df col = true) :
  match find_outliers other df col limit with
  | Raise KeyError => has_column df col = false
  | Raise TypeError =>
      has_column df col = true /\ numeric_column df col = false
  | Raise UndefinedVariableError =>
      numeric_column df col = true /\ count_values df col = O
  | Raise ValueError => False
  | Ok out =>
      numeric_column df col = true /\ (1 <= count_values df col)%nat
      /\ columns out = columns df
  end.
Proof.
  assert (is_name col = true) as Hname.
  { unfold plain_query in Hplain. now apply andb_true_iff in Hplain. }
  unfold has_column, numeric_column, count_values.
  destruct (index_of col (columns df)) as [pos|] eqn:Hpos.
  - unfold getitem at 1 2 3 4 5. rewrite Hpos.
    set (s := map (at_col pos) (rows df)).
    destruct (forallb _ s) eqn:Hnum.
    + destruct (numeric_to_numeric s Hnum) as [vs Hvs].
      rewrite <- (to_numeric_dropna_length s vs Hvs).
      destruct (dropna vs) as [|v a] eqn:Hd.
      * rewrite (find_outliers_no_value other df col limit pos vs Hplain Hpos
                   Hvs Hd).
        split; reflexivity.
      * rewrite (find_outliers_values other df col limit pos vs Hname Hpos
                   Hvs)
          by congruence.
        rewrite Hd. repeat split. simpl. lia.
    + apply to_numeric_label in Hnum.
      unfold find_outliers, getitem, quantile. rewrite Hpos. cbn [bind].
      fold s. rewrite Hnum. cbn [bind]. split; reflexivity.
  - unfold find_outliers, getitem. rewrite Hpos. reflexivity.
Qed.

Lemma find_outliers_outcome_witness :
  match find_outliers unread three_values "v" 5 with
  | Raise KeyError => has_column three_values "v" = false
  | Raise TypeError =>
      has_column three_values "v" = true
      /\ numeric_column three_values "v" = false
  | Raise UndefinedVariableError =>
      numeric_column three_values "v" = true
      /\ count_values three_values "v" = O
  | Raise ValueError => False
  | Ok out =>
      numeric_column three_values "v" = true
      /\ (1 <= count_values three_values "v")%nat
      /\ columns out = columns three_values
  end.
Proof.
  apply (find_outliers_outcome unread three_values "v" 5).
  reflexivity.
Defined.

(** ** [find_outliers]: the limit *)

Lemma skipn_suffix {A} (a b : nat) (l : list A) :
  (b <= a)%nat -> skipn b l = firstn (a - b) (skipn b l) ++ skipn a l.
Proof.
  intros H. rewrite <- (firstn_skipn (a - b) (skipn b l)) at 1.
  f_equal. rewrite skipn_skipn. f_equal. lia.
Qed.

(** X2.  Raising the limit only puts further rows in front: for limits
    [0 <= n <= n'], the rows returned for [n] are the last rows of those
    returned for [n']. *)
Theorem find_outliers_limit_suffix (other : query_fn) (df : DataFrame)
        (col : string) (n n' : Z) (out out' : DataFrame)
        (Hn : (0 <= n <= n')%Z)
        (Hout : find_outliers other df col n = Ok out)
        (Hout' : find_outliers other df col n' = Ok out') :
  exists front : list Row, rows out' = front ++ rows out.
Proof.
  destruct (find_outliers_by_tail other df col n out Hout) as [sorted Hs].
  rewrite Hs in Hout, Hout'.
  inversion Hout; subst out. inversion Hout'; subst out'.
  unfold tail. cbn [rows].
  rewrite !last_rows_nonneg by lia. unfold lastn.
  eexists. apply skipn_suffix. lia.
Qed.

Lemma find_outliers_limit_suffix_witness :
  exists front : list Row,
    rows (mkDF ["v"%string] [mkRow 10 [Num (inject_Z 100)];
                             mkRow 11 [Num (inject_Z 200)]])
    = front ++ rows (mkDF ["v"%string] [mkRow 11 [Num (inject_Z 200)]]).
Proof.
  apply (find_outliers_limit_suffix unread low_and_high "v" 1 2).
  - lia.
  - reflexivity.
  - reflexivity.
Defined.

Lemma quartiles_values (df : DataFrame) (col : string) (pos : nat)
      (vs : list (option Q)) :
  index_of col (columns df) = Some pos ->
  to_numeric (map (at_col pos) (rows df)) = Ok vs ->
  dropna vs <> [] ->
  quartiles df col
  = Some (percentile_linear (sort_by (fun v : Q => v) (dropna vs)) (1 # 4),
          percentile_linear (sort_by (fun v : Q => v) (dropna vs)) (3 # 4)).
Proof.
  intros Hpos Hvs Hne. unfold quartiles, getitem. rewrite Hpos.
  now rewrite !(fun q => quantile_some _ vs q Hvs Hne).
Qed.

Lemma flagged_outside (df : DataFrame) (col : string) (pos : nat)
      (vs : list (option Q)) (r : Row) :
  index_of col (columns df) = Some pos ->
  to_numeric (map (at_col pos) (rows df)) = Ok vs ->
  dropna vs <> [] ->
  flagged df col r
  = outside
      (iqr_lower
         (percentile_linear (sort_by (fun v : Q => v) (dropna vs)) (1 # 4))
         (percentile_linear (sort_by (fun v : Q => v) (dropna vs)) (3 # 4)))
      (iqr_upper
         (percentile_linear (sort_by (fun v : Q => v) (dropna vs)) (1 # 4))
         (percentile_linear (sort_by (fun v : Q => v) (dropna vs)) (3 # 4)))
      (at_col pos r).
Proof.
  intros Hpos Hvs Hne. unfold flagged, fences, value_at.
  rewrite (quartiles_values df col pos vs Hpos Hvs Hne), Hpos. reflexivity.
Qed.

(** The rows [find_outliers] returns, through [flagged]. *)
Lemma find_outliers_rows_flagged (other : query_fn) (df : DataFrame)
      (col : string) (n : Z) (out : DataFrame) :
  plain_query df col = true ->
  find_outliers other df col n = Ok out ->
  exists pos,
    index_of col (columns df) = Some pos
    /\ (forall r, flagged df col r = true -> exists v, at_col pos r = Num v)
    /\ rows out
       = last_rows n (sort_by (num_key pos)
                              (filter (flagged df col) (rows df))).
Proof.
  intros Hplain H.
  apply find_outliers_Ok_inv in H as (pos & vs & Hpos & Hvs & Hne & ->);
    [|exact Hplain].
  exists pos. split; [exact Hpos|]. split.
  - intros r Hr. rewrite (flagged_outside df col pos vs r Hpos Hvs Hne) in Hr.
    apply outside_spec in Hr as (v & Hv & _). eauto.
  - unfold outliers_frame. cbn [rows]. do 2 f_equal.
    apply filter_ext. intros r.
    now rewrite (flagged_outside df col pos vs r Hpos Hvs Hne).
Qed.

(** X3.  On a column of whole numbers of magnitude up to 2^40 that is
    pasted into the query as a plain name, and for a limit that is a count,
    the number of rows returned is the smaller of the limit and the number
    of rows outside the fences; when the limit is not below that number,
    all of them are returned. *)
Theorem find_outliers_count (other : query_fn) (df : DataFrame)
        (col : string) (limit : Z) (out : DataFrame)
        (Hplain : plain_query df col = true)
        (Hexact : small_integers df col = true)
        (Hlimit : (0 <= limit)%Z)
        (Hout : find_outliers other df col limit = Ok out) :
  List.length (rows out)
  = Nat.min (Z.to_nat limit)
            (List.length (filter (flagged df col) (rows df)))
  /\ ((List.length (filter (flagged df col) (rows df)) <= Z.to_nat limit)%nat ->
      Permutation (rows out) (filter (flagged df col) (rows df))).
Proof.
  apply find_outliers_rows_flagged in Hout as (pos & _ & _ & ->);
    [|exact Hplain].
  rewrite last_rows_nonneg by exact Hlimit. unfold lastn.
  pose proof (Permutation_length
                (sort_by_perm Row (num_key pos)
                   (filter (flagged df col) (rows df)))) as Hlen.
  split.
  - rewrite length_skipn. lia.
  - intros Hle.
    replace (_ - Z.to_nat limit)%nat with O by lia.
    apply sort_by_perm.
Qed.

Lemma find_outliers_count_witness :
  List.length (rows (mkDF ["v"%string] [mkRow 10 [Num (inject_Z 100)];
                                        mkRow 11 [Num (inject_Z 200)]]))
  = Nat.min (Z.to_nat 2)
            (List.length (filter (flagged low_and_high "v")
                                 (rows low_and_high)))
  /\ ((List.length (filter (flagged low_and_high "v") (rows low_and_high))
       <= Z.to_nat 2)%nat ->
      Permutation
        (rows (mkDF ["v"%string] [mkRow 10 [Num (inject_Z 100)];
                                  mkRow 11 [Num (inject_Z 200)]]))
        (filter (flagged low_and_high "v") (rows low_and_high))).
Proof.
  apply (find_outliers_count unread low_and_high "v" 2).
  - reflexivity.
  - reflexivity.
  - lia.
  - reflexivity.
Defined.

(** ** [find_outliers]: the high side comes first *)

Lemma sorted_suffix_all {A} (R : A -> A -> Prop) (P : A -> bool)
      (l : list A) (k : nat) :
  StronglySorted R l ->
  (forall x y, In x l -> In y l -> R x y -> P x = true -> P y = true) ->
  (k <= List.length (filter P l))%nat ->
  Forall (fun x => P x = true) (skipn (List.length l - k) l).
Proof.
  intros Hs. revert k.
  induction Hs as [|a l Hs IH Ha]; intros k Hup Hk; [constructor|].
  destruct (P a) eqn:Pa.
  - assert (Forall (fun x => P x = true) (a :: l)) as Hall.
    { constructor; [exact Pa|]. rewrite Forall_forall in *.
      intros y Hy. apply (Hup a y); simpl; auto. }
    rewrite Forall_forall in *. intros x Hx. apply Hall.
    eapply skipn_incl; eauto.
  - simpl in Hk. rewrite Pa in Hk.
    pose proof (filter_length_le P l) as Hfl.
    replace (List.length (a :: l) - k)%nat
      with (S (List.length l - k))
      by (change (List.length (a :: l)) with (S (List.length l)); lia).
    cbn [skipn]. apply IH; [|exact Hk].
    intros x y Hx Hy. apply Hup; now right.
Qed.

Lemma filter_length_perm {A} (P : A -> bool) (l l' : list A) :
  Permutation l l' ->
  List.length (filter P l) = List.length (filter P l').
Proof.
  induction 1 as [| x l l' _ IH | x y l | l l' l'' _ IH1 _ IH2]; simpl.
  - reflexivity.
  - destruct (P x); simpl; now rewrite IH.
  - destruct (P x), (P y); reflexivity.
  - now rewrite IH1.
Qed.

Lemma filter_filter_implied {A} (P Q : A -> bool) (l : list A) :
  (forall x, P x = true -> Q x = true) ->
  filter P (filter Q l) = filter P l.
Proof.
  intros H. induction l as [|a l IH]; simpl; [reflexivity|].
  destruct (Q a) eqn:Qa; simpl.
  - destruct (P a); now rewrite IH.
  - destruct (P a) eqn:Pa; [|exact IH].
    apply H in Pa. congruence.
Qed.

Lemma above_upper_flagged (df : DataFrame) (col : string) (r : Row) :
  above_upper df col r = true -> flagged df col r = true.
Proof.
  unfold above_upper, flagged.
  destruct (fences df col) as [[lo up]|]; [|discriminate].
  destruct (value_at df col r) as [v| |]; try discriminate.
  simpl. intros ->. apply orb_true_r.
Qed.

(** X4.  Low outliers come back only when the high ones do not fill the
    limit: on a column of whole numbers of magnitude up to 2^40 that is
    pasted into the query as a plain name, if at least [limit] rows lie
    strictly above the upper fence, every returned row lies strictly above
    the upper fence. *)
Theorem find_outliers_high_side_first (other : query_fn) (df : DataFrame)
        (col : string) (limit : Z) (out : DataFrame)
        (Hplain : plain_query df col = true)
        (Hexact : small_integers df col = true)
        (Hlimit : (0 <= limit)%Z)
        (Hhigh : (Z.to_nat limit
                  <= List.length (filter (above_upper df col) (rows df)))%nat)
        (Hout : find_outliers other df col limit = Ok out) :
  Forall (fun r => above_upper df col r = true) (rows out).
Proof.
  apply find_outliers_rows_flagged in Hout as (pos & Hpos & Hnum & ->);
    [|exact Hplain].
  rewrite last_rows_nonneg by exact Hlimit. unfold lastn.
  apply sorted_suffix_all
    with (R := fun x y => num_key pos x <= num_key pos y).
  - apply sort_by_sorted.
  - intros x y Hx Hy Hle Px.
    apply (Permutation_in _ (sort_by_perm _ _ _)) in Hx, Hy.
    apply filter_In in Hx as [_ Hx]. apply filter_In in Hy as [_ Hy].
    destruct (Hnum x Hx) as [vx Ex], (Hnum y Hy) as [vy Ey].
    unfold num_key in Hle. rewrite Ex, Ey in Hle.
    unfold above_upper, value_at in *. rewrite Hpos in *.
    destruct (fences df col) as [[lo up]|]; [|discriminate].
    rewrite Ex in Px. rewrite Ey.
    apply negb_true_iff in Px. apply negb_true_iff.
    apply not_true_is_false. intros Hyu. apply Qle_bool_iff in Hyu.
    assert (Qle_bool vx up = true); [|congruence].
    apply Qle_bool_iff. eapply Qle_trans; eauto.
  - rewrite (filter_length_perm _ _ _ (sort_by_perm _ _ _)).
    rewrite filter_filter_implied by apply above_upper_flagged.
    exact Hhigh.
Qed.

Lemma find_outliers_high_side_first_witness :
  Forall (fun r => above_upper low_and_high "v" r = true)
         (rows (mkDF ["v"%string] [mkRow 10 [Num (inject_Z 100)];
                                   mkRow 11 [Num (inject_Z 200)]])).
Proof.
  apply (find_outliers_high_side_first unread low_and_high "v" 2).
  - reflexivity.
  - reflexivity.
  - lia.
  - vm_compute. lia.
  - reflexivity.
Defined.

(** ** [find_outliers]: the quartiles are in order *)

Lemma sorted_nth_le (a : list Q) (i j : nat) :
  StronglySorted Qle a -> (i <= j)%nat -> (j < List.length a)%nat ->
  nth i a 0 <= nth j a 0.
Proof.
  intros Hs. revert i j.
  induction Hs as [|x a Hs IH Hx]; intros i j Hij Hj; [simpl in Hj; lia|].
  destruct i as [|i], j as [|j]; simpl in *; try lia.
  - apply Qle_refl.
  - rewrite Forall_forall in Hx. apply Hx, nth_In. lia.
  - apply IH; lia.
Qed.

Lemma lerp_between (a b t : Q) :
  a <= b -> 0 <= t -> t <= 1 -> a <= lerp a b t /\ lerp a b t <= b.
Proof. intros. unfold lerp. split; nra. Qed.

Lemma lerp_mono (a b t u : Q) : a <= b -> t <= u -> lerp a b t <= lerp a b u.
Proof. intros. unfold lerp. nra. Qed.

(** On sorted values the interpolated percentile grows with the rank. *)
Lemma percentile_linear_mono (a : list Q) (p q : Q) :
  StronglySorted Qle a -> a <> [] -> 0 <= p -> p <= q -> q <= 1 ->
  percentile_linear a p <= percentile_linear a q.
Proof.
  intros Hs Hne Hp Hpq Hq. unfold percentile_linear.
  set (m := Z.of_nat (List.length a)).
  assert (1 <= m)%Z as Hm.
  { subst m. destruct a; [congruence | simpl List.length; lia]. }
  assert (0 <= inject_Z (m - 1)) as Hm0
      by (change 0 with (inject_Z 0); rewrite <- Zle_Qle; lia).
  set (hp := inject_Z (m - 1) * p). set (hq := inject_Z (m - 1) * q).
  assert (0 <= hp) as Hhp0 by (subst hp; nra).
  assert (hp <= hq) as Hh by (subst hp hq; nra).
  assert (hq <= inject_Z (m - 1)) as Hhq by (subst hq; nra).
  pose proof (Qfloor_le hp) as Fp. pose proof (Qlt_floor hp) as Fp'.
  pose proof (Qfloor_le hq) as Fq. pose proof (Qlt_floor hq) as Fq'.
  assert (0 <= Qfloor hp)%Z as Lp0
      by (rewrite <- (Qfloor_Z 0); now apply Qfloor_resp_le).
  assert (Qfloor hp <= Qfloor hq)%Z as Lpq by now apply Qfloor_resp_le.
  assert (Qfloor hq <= m - 1)%Z as Lqm
      by (rewrite <- (Qfloor_Z (m - 1)); now apply Qfloor_resp_le).
  set (lp := Qfloor hp) in *. set (lq := Qfloor hq) in *.
  rewrite inject_Z_plus in Fp', Fq'. change (inject_Z 1) with 1 in Fp', Fq'.
  assert (forall i j : Z, (0 <= i <= j)%Z -> (j <= m - 1)%Z ->
                          nth (Z.to_nat i) a 0 <= nth (Z.to_nat j) a 0)
    as Hnth.
  { intros i j Hij Hj. apply sorted_nth_le; [exact Hs | lia | subst m; lia]. }
  destruct (lerp_between (nth (Z.to_nat lp) a 0)
              (nth (Z.to_nat (Z.min (lp + 1) (m - 1))) a 0)
              (hp - inject_Z lp)) as [_ Hup]; [apply Hnth; lia | lra | lra |].
  destruct (lerp_between (nth (Z.to_nat lq) a 0)
              (nth (Z.to_nat (Z.min (lq + 1) (m - 1))) a 0)
              (hq - inject_Z lq)) as [Hlow _]; [apply Hnth; lia | lra | lra |].
  destruct (Z.eq_dec lp lq) as [E|E].
  - rewrite <- E. apply lerp_mono; [apply Hnth; lia | rewrite <- E in *; lra].
  - eapply Qle_trans; [exact Hup|]. eapply Qle_trans; [|exact Hlow].
    apply Hnth; lia.
Qed.

(** X5.  The quartiles are in order and the fences enclose them:
    [lower <= Q1 <= Q3 <= upper]; so a row outside the fences has its value
    below Q1 or above Q3, never between the quartiles. *)
Theorem find_outliers_quartiles_ordered (df : DataFrame) (col : string)
        (q1 q3 : Q)
        (Hq : quartiles df col = Some (q1, q3)) :
  q1 <= q3 /\ iqr_lower q1 q3 <= q1 /\ q3 <= iqr_upper q1 q3
  /\ forall r, flagged df col r = true ->
               exists v, value_at df col r = Num v /\ (v < q1 \/ q3 < v).
Proof.
  assert (q1 <= q3) as H13.
  { unfold quartiles in Hq.
    destruct (getitem df col) as [s|e]; [|discriminate].
    unfold quantile in Hq.
    destruct (to_numeric s) as [vs|e]; [|discriminate]. cbn [bind] in Hq.
    destruct (dropna vs) as [|v a] eqn:Hd; [discriminate|].
    inversion Hq; subst q1 q3.
    change (percentile_linear (sort_by (fun x : Q => x) (v :: a)) (1 # 4)
            <= percentile_linear (sort_by (fun x : Q => x) (v :: a)) (3 # 4)).
    apply percentile_linear_mono; try discriminate.
    - apply (sort_by_sorted Q (fun x : Q => x)).
    - intros E.
      pose proof (Permutation_length (sort_by_perm Q (fun x : Q => x) (v :: a)))
        as Hl.
      rewrite E in Hl. discriminate. }
  assert (iqr_lower q1 q3 <= q1) as Hlo by (unfold iqr_lower; lra).
  assert (q3 <= iqr_upper q1 q3) as Hup by (unfold iqr_upper; lra).
  repeat split; try assumption.
  intros r Hr. unfold flagged, fences in Hr. rewrite Hq in Hr.
  apply outside_spec in Hr as (v & Hv & [H|H]); exists v; split; auto;
    [left | right]; lra.
Qed.

Lemma find_outliers_quartiles_ordered_witness :
  (13 # 4) <= (31 # 4)
  /\ iqr_lower (13 # 4) (31 # 4) <= 13 # 4
  /\ (31 # 4) <= iqr_upper (13 # 4) (31 # 4)
  /\ forall r, flagged spec_example "v" r = true ->
               exists v, value_at spec_example "v" r = Num v
                         /\ (v < 13 # 4 \/ (31 # 4) < v).
Proof.
  apply (find_outliers_quartiles_ordered spec_example "v").
  reflexivity.
Defined.

(** ** [cramers_v]: every outcome *)

Lemma np_sqrt_true_divide_compat (c c' : Q) (d : Z) :
  c == c' -> np_sqrt (true_divide c d) = np_sqrt (true_divide c' d).
Proof.
  intros E. unfold true_divide.
  destruct (d =? 0)%Z.
  - now rewrite E.
  - unfold np_sqrt.
    assert (c / inject_Z d == c' / inject_Z d) as E' by now rewrite E.
    rewrite (Qleb_comp 0 0 (Qeq_refl 0) _ _ E').
    now rewrite (Qeq_eqR _ _ E').
Qed.

Lemma cramers_v_comm (x y : Series) : cramers_v x y = cramers_v y x.
Proof.
  pose proof (crosstab_transposed x y) as HT.
  pose proof (chi2_contingency_transposed _ _ HT) as Hs.
  pose proof HT as (Hr & Hc & _).
  unfold cramers_v.
  destruct (chi2_contingency (crosstab y x)) as [c'|e'],
           (chi2_contingency (crosstab x y)) as [c|e];
    simpl in Hs; try contradiction; cbn [bind]; [|congruence].
  f_equal.
  rewrite Hr, Hc, (Z.min_comm (Z.of_nat (ncols _))).
  rewrite !sum_sum_total, (total_transposed _ _ HT).
  apply np_sqrt_true_divide_compat. now symmetry.
Qed.

Lemma rounding_nonneg : (0 <= rounding)%R.
Proof.
  unfold rounding. apply Rlt_le, Rdiv_lt_0_compat; [lra | apply pow_lt; lra].
Qed.

Lemma fl_close_refl (a : fl R) : fl_close a a.
Proof.
  destruct a as [u| | |]; simpl; trivial.
  unfold Rminus. rewrite Rplus_opp_r, Rabs_R0. apply rounding_nonneg.
Qed.

(** X6.  Swapping the two arguments of [cramers_v] does not change the
    kind of outcome, for every pair of series: the same exception both
    ways, NaN both ways, or two numbers within 1e-9 of each other. *)
Theorem cramers_v_swap (x y : Series) :
  outcome_close (cramers_v x y) (cramers_v y x).
Proof.
  rewrite (cramers_v_comm x y).
  destruct (cramers_v y x); simpl; [apply fl_close_refl | reflexivity].
Qed.

Lemma crosstab_no_pairs (x y : Series) :
  observed_pairs x y = [] <-> nrows (crosstab x y) = O.
Proof.
  rewrite crosstab_nrows. unfold row_labels. split.
  - intros ->. reflexivity.
  - intros H. apply length_zero_iff_nil in H. apply unique_nil in H.
    now apply map_eq_nil in H.
Qed.

Lemma cramers_v_no_pairs (x y : Series) :
  observed_pairs x y = [] -> cramers_v x y = Raise ValueError.
Proof.
  intros H. unfold cramers_v, crosstab, row_labels. rewrite H. reflexivity.
Qed.

Lemma cramers_v_pairs_returns (x y : Series) :
  observed_pairs x y <> [] -> returns (cramers_v x y).
Proof.
  intros H. unfold cramers_v.
  rewrite crosstab_chi2_defined.
  - cbn [bind]. eexists. reflexivity.
  - destruct (nrows (crosstab x y)) eqn:E; [|lia].
    apply crosstab_no_pairs in E. contradiction.
Qed.

Lemma cramers_v_raise_kind (x y : Series) (e : exn) :
  cramers_v x y = Raise e -> e = ValueError /\ observed_pairs x y = [].
Proof.
  intros He. destruct (observed_pairs x y) eqn:E.
  - rewrite cramers_v_no_pairs in He by exact E. split; congruence.
  - destruct (cramers_v_pairs_returns x y) as [v Hv]; [congruence|].
    congruence.
Qed.

(** X7.  [cramers_v] raises exactly when no row has both entries present
    (in particular on empty series), and the exception is then the
    [ValueError] of [chi2_contingency]; no other exception is raised. *)
Theorem cramers_v_raises_iff (x y : Series) :
  (cramers_v x y = Raise ValueError <-> observed_pairs x y = [])
  /\ (forall e, cramers_v x y = Raise e -> e = ValueError).
Proof.
  split; [split|].
  - intros H. now apply cramers_v_raise_kind in H.
  - apply cramers_v_no_pairs.
  - intros e He. now apply cramers_v_raise_kind in He.
Qed.

Lemma cramers_v_nan_single (x y : Series) :
  Z.min (Z.of_nat (nrows (crosstab x y))) (Z.of_nat (ncols (crosstab x y)))
  = 1%Z ->
  cramers_v x y = Ok NaN.
Proof.
  intros Hmin. unfold cramers_v.
  rewrite crosstab_chi2_defined by lia. simpl.
  rewrite Hmin. unfold chi2_value.
  set (M := crosstab x y) in *.
  destruct (_ =? 0)%Z eqn:E0; [|apply Z.eqb_neq in E0; nia].
  replace (sum_sum M * (1 - 1))%Z with 0%Z by lia.
  reflexivity.
Qed.

(** X8.  A value returned by [cramers_v] is NaN or a number that is not
    negative, never an infinity; it is NaN exactly when the contingency
    table has a single row or a single column. *)
Theorem cramers_v_value (x y : Series) (v : fl R)
        (Hv : cramers_v x y = Ok v) :
  (v = NaN \/ exists r : R, v = Fin r /\ (0 <= r)%R)
  /\ (v = NaN <->
      Z.min (Z.of_nat (nrows (crosstab x y)))
            (Z.of_nat (ncols (crosstab x y))) = 1%Z).
Proof.
  assert (1 <= nrows (crosstab x y))%nat as Hr.
  { destruct (nrows (crosstab x y)) eqn:E; [|lia].
    apply crosstab_no_pairs in E.
    rewrite (cramers_v_no_pairs x y E) in Hv. discriminate. }
  pose proof (crosstab_ncols_pos x y Hr) as Hc.
  destruct (Z.eq_dec (Z.min (Z.of_nat (nrows (crosstab x y)))
                            (Z.of_nat (ncols (crosstab x y)))) 1) as [E|E].
  - rewrite (cramers_v_nan_single x y E) in Hv. inversion Hv; subst.
    split; [now left | tauto].
  - rewrite cramers_v_number in Hv by lia. inversion Hv; subst.
    split.
    + right. eexists. split; [reflexivity | apply sqrt_pos].
    + split; [discriminate | contradiction].
Qed.

Lemma cramers_v_value_witness :
  (@NaN R = NaN \/ exists r : R, NaN = Fin r /\ (0 <= r)%R)
  /\ (@NaN R = NaN <->
      Z.min (Z.of_nat (nrows (crosstab constant yes_no)))
            (Z.of_nat (ncols (crosstab constant yes_no))) = 1%Z).
Proof.
  apply (cramers_v_value constant yes_no NaN).
  vm_compute. reflexivity.
Defined.

(** ** Loops that stop at the first exception *)

Lemma mapM_Ok_nth {A B} (f : A -> result B) (xs : list A) (ys : list B)
      (d : A) (d' : B) (i : nat) :
  mapM f xs = Ok ys -> (i < List.length xs)%nat ->
  f (nth i xs d) = Ok (nth i ys d').
Proof.
  revert ys i. induction xs as [|x xs IH]; intros ys i H Hi;
    [simpl in Hi; lia|].
  simpl in H. apply bind_Ok_inv in H as (y & Hy & H).
  apply bind_Ok_inv in H as (ys' & Hys & H). inversion H; subst.
  destruct i as [|i]; simpl; [exact Hy|].
  apply IH; [exact Hys | simpl in Hi; lia].
Qed.

Lemma mapM_returns {A B} (f : A -> result B) (xs : list A) :
  (forall x, In x xs -> returns (f x)) -> returns (mapM f xs).
Proof.
  induction xs as [|x xs IH]; intros H; simpl; [eexists; reflexivity|].
  destruct (H x (or_introl eq_refl)) as [y Hy]. rewrite Hy. cbn [bind].
  destruct IH as [ys Hys]; [intros; apply H; now right|].
  rewrite Hys. cbn [bind]. eexists; reflexivity.
Qed.

Lemma mapM_Raise_inv {A B} (f : A -> result B) (xs : list A) (e : exn) :
  mapM f xs = Raise e -> exists x, In x xs /\ f x = Raise e.
Proof.
  induction xs as [|x xs IH]; simpl; [discriminate|].
  destruct (f x) as [y|e'] eqn:Hx; cbn [bind].
  - destruct (mapM f xs) as [ys|e'']; cbn [bind]; [discriminate|].
    intros H. destruct IH as (x' & Hin & Hx'); [exact H|]. eauto.
  - intros H. inversion H; subst. eauto.
Qed.

Lemma enumerate_length {A} (l : list A) :
  List.length (enumerate l) = List.length l.
Proof. unfold enumerate. rewrite length_combine, length_seq. lia. Qed.

Lemma enumerate_nth {A} (l : list A) (d : A) (i : nat) :
  (i < List.length l)%nat -> nth i (enumerate l) (O, d) = (i, nth i l d).
Proof.
  intros Hi. unfold enumerate.
  rewrite combine_nth by apply length_seq.
  now rewrite seq_nth.
Qed.

Lemma enumerate_In {A} (l : list A) (d : A) (p : nat * A) :
  In p (enumerate l) ->
  (fst p < List.length l)%nat /\ snd p = nth (fst p) l d.
Proof.
  intros H. destruct (In_nth _ _ (O, d) H) as (i & Hi & E).
  rewrite enumerate_length in Hi. rewrite enumerate_nth in E by exact Hi.
  subst p. simpl. auto.
Qed.

(** ** [categorical_correlation_matrix] *)

Lemma index_of_In (c : string) (names : list string) :
  In c names -> exists pos, index_of c names = Some pos.
Proof.
  induction names as [|n names IH]; simpl; [contradiction|].
  intros H. destruct (String.eqb c n) eqn:E; [eauto|].
  destruct H as [->|H]; [rewrite String.eqb_refl in E; discriminate|].
  destruct (IH H) as [pos ->]. simpl. eauto.
Qed.

Lemma select_dtypes_getitem (tf : TypedFrame) (c : string) :
  In c (select_dtypes tf) -> exists s, getitem (frame tf) c = Ok s.
Proof.
  unfold select_dtypes. intros H.
  apply in_map_iff in H as ([c' d] & <- & H).
  apply filter_In in H as [H _]. apply in_combine_l in H.
  destruct (index_of_In c' _ H) as [pos Hpos].
  unfold getitem. simpl. rewrite Hpos. eauto.
Qed.

(** What the loops store at a position of the matrix. *)
Lemma corr_matrix_entry (tf : TypedFrame) (m : CorrMatrix) (i j : nat) :
  categorical_correlation_matrix tf = Ok m ->
  (i < List.length (select_dtypes tf))%nat ->
  (j < List.length (select_dtypes tf))%nat ->
  corr_entry (frame tf) i (nth i (select_dtypes tf) ""%string)
             j (nth j (select_dtypes tf) ""%string)
  = Ok (corr_at m i j).
Proof.
  intros H Hi Hj. unfold categorical_correlation_matrix in H.
  apply bind_Ok_inv in H as (values & Hvalues & H). inversion H; subst m.
  unfold corr_at. cbn [corr_values].
  pose proof (mapM_Ok_nth _ _ _ (O, ""%string) [] i Hvalues) as Hrow.
  rewrite enumerate_length in Hrow. specialize (Hrow Hi).
  rewrite enumerate_nth in Hrow by exact Hi. cbn [fst snd] in Hrow.
  pose proof (mapM_Ok_nth _ _ _ (O, ""%string) NaN j Hrow) as Hcell.
  rewrite enumerate_length in Hcell. specialize (Hcell Hj).
  rewrite enumerate_nth in Hcell by exact Hj. exact Hcell.
Qed.

Lemma corr_matrix_shape (tf : TypedFrame) (m : CorrMatrix) :
  categorical_correlation_matrix tf = Ok m ->
  corr_index m = select_dtypes tf
  /\ List.length (corr_values m) = List.length (select_dtypes tf)
  /\ forall i, (i < List.length (select_dtypes tf))%nat ->
               List.length (nth i (corr_values m) [])
               = List.length (select_dtypes tf).
Proof.
  intros H. unfold categorical_correlation_matrix in H.
  apply bind_Ok_inv in H as (values & Hvalues & H). inversion H; subst m.
  cbn [corr_index corr_values].
  split; [reflexivity|]. split.
  - rewrite (mapM_Ok_length _ _ _ Hvalues). apply enumerate_length.
  - intros i Hi.
    pose proof (mapM_Ok_nth _ _ _ (O, ""%string) [] i Hvalues) as Hrow.
    rewrite enumerate_length in Hrow. specialize (Hrow Hi).
    rewrite (mapM_Ok_length _ _ _ Hrow). apply enumerate_length.
Qed.

(** X9.  A returned matrix is square over the object and category columns
    of the frame, in frame order, and its diagonal is 1. *)
Theorem corr_matrix_square_unit_diagonal (tf : TypedFrame) (m : CorrMatrix)
        (Hm : categorical_correlation_matrix tf = Ok m) :
  corr_index m = select_dtypes tf
  /\ List.length (corr_values m) = List.length (select_dtypes tf)
  /\ (forall i, (i < List.length (select_dtypes tf))%nat ->
                List.length (nth i (corr_values m) [])
                = List.length (select_dtypes tf))
  /\ (forall i, (i < List.length (select_dtypes tf))%nat ->
                corr_at m i i = Fin 1%R).
Proof.
  destruct (corr_matrix_shape tf m Hm) as (H1 & H2 & H3).
  repeat split; try assumption.
  intros i Hi. pose proof (corr_matrix_entry tf m i i Hm Hi Hi) as H.
  unfold corr_entry in H. rewrite Nat.eqb_refl in H. simpl in H. congruence.
Qed.

Lemma corr_matrix_symmetric_exact (tf : TypedFrame) (m : CorrMatrix)
      (Hm : categorical_correlation_matrix tf = Ok m) :
  forall i j, corr_at m i j = corr_at m j i.
Proof.
  destruct (corr_matrix_shape tf m Hm) as (_ & Hlen & Hrows).
  assert (forall i j, (List.length (select_dtypes tf) <= i)%nat ->
                      corr_at m i j = NaN /\ corr_at m j i = NaN) as Hout.
  { intros i j Hi. unfold corr_at. split.
    - rewrite (nth_overflow (corr_values m)) by lia. now destruct j.
    - destruct (Nat.lt_ge_cases j (List.length (select_dtypes tf))) as [Hj|Hj].
      + apply nth_overflow. rewrite Hrows by exact Hj. exact Hi.
      + rewrite (nth_overflow (corr_values m)) by lia. now destruct i. }
  intros i j.
  destruct (Nat.lt_ge_cases i (List.length (select_dtypes tf))) as [Hi|Hi];
    [|destruct (Hout i j Hi) as [-> ->]; reflexivity].
  destruct (Nat.lt_ge_cases j (List.length (select_dtypes tf))) as [Hj|Hj];
    [|destruct (Hout j i Hj) as [-> ->]; reflexivity].
  pose proof (corr_matrix_entry tf m i j Hm Hi Hj) as Hij.
  pose proof (corr_matrix_entry tf m j i Hm Hj Hi) as Hji.
  unfold corr_entry in Hij, Hji. rewrite (Nat.eqb_sym j i) in Hji.
  destruct (i =? j)%nat; simpl in Hij, Hji; [congruence|].
  destruct (getitem (frame tf) (nth i (select_dtypes tf) ""%string)) as [x|e];
    [|discriminate].
  destruct (getitem (frame tf) (nth j (select_dtypes tf) ""%string)) as [y|e];
    [|discriminate].
  cbn [bind] in Hij, Hji. rewrite cramers_v_comm in Hji. congruence.
Qed.

Lemma corr_matrix_square_unit_diagonal_witness :
  exists m : CorrMatrix,
    categorical_correlation_matrix three_labels = Ok m
    /\ corr_index m = select_dtypes three_labels
    /\ List.length (corr_values m) = List.length (select_dtypes three_labels)
    /\ (forall i, (i < List.length (select_dtypes three_labels))%nat ->
                  List.length (nth i (corr_values m) [])
                  = List.length (select_dtypes three_labels))
    /\ (forall i, (i < List.length (select_dtypes three_labels))%nat ->
                  corr_at m i i = Fin 1%R).
Proof.
  eexists. split; [reflexivity|].
  apply (corr_matrix_square_unit_diagonal three_labels).
  reflexivity.
Defined.

(** X10.  A returned matrix is symmetric up to rounding: the entries at
    [(i, j)] and [(j, i)] are both NaN or two numbers within 1e-9 of each
    other, for all positions (the two are computed by separate calls). *)
Theorem corr_matrix_symmetric (tf : TypedFrame) (m : CorrMatrix)
        (Hm : categorical_correlation_matrix tf = Ok m) :
  forall i j, fl_close (corr_at m i j) (corr_at m j i).
Proof.
  intros i j. rewrite (corr_matrix_symmetric_exact tf m Hm i j).
  apply fl_close_refl.
Qed.

Lemma corr_matrix_symmetric_witness :
  exists m : CorrMatrix,
    categorical_correlation_matrix three_labels = Ok m
    /\ forall i j, fl_close (corr_at m i j) (corr_at m j i).
Proof.
  eexists. split; [reflexivity|].
  apply (corr_matrix_symmetric three_labels).
  reflexivity.
Defined.

(** The outcome of one assignment of the loops. *)
Lemma corr_entry_outcome (tf : TypedFrame) (i j : nat) :
  (i < List.length (select_dtypes tf))%nat ->
  (j < List.length (select_dtypes tf))%nat ->
  match corr_entry (frame tf) i (nth i (select_dtypes tf) ""%string)
                   j (nth j (select_dtypes tf) ""%string) with
  | Ok _ => i = j
            \/ shares_row (frame tf)
                 (nth i (select_dtypes tf) ""%string)
                 (nth j (select_dtypes tf) ""%string) = true
  | Raise e => e = ValueError /\ i <> j
               /\ shares_row (frame tf)
                    (nth i (select_dtypes tf) ""%string)
                    (nth j (select_dtypes tf) ""%string) = false
  end.
Proof.
  intros Hi Hj. unfold corr_entry, shares_row.
  destruct (Nat.eqb_spec i j) as [E|E]; simpl; [now left|].
  destruct (select_dtypes_getitem tf (nth i (select_dtypes tf) ""%string))
    as [x ->]; [now apply nth_In|].
  destruct (select_dtypes_getitem tf (nth j (select_dtypes tf) ""%string))
    as [y ->]; [now apply nth_In|].
  cbn [bind].
  destruct (cramers_v x y) as [v|e] eqn:Hv.
  - right. destruct (observed_pairs x y) eqn:Hp; [|reflexivity].
    rewrite (cramers_v_no_pairs x y Hp) in Hv. discriminate.
  - apply cramers_v_raise_kind in Hv as [-> ->]. auto.
Qed.

(** X11.  The matrix is returned exactly when every two categorical columns
    at different positions have a row where both hold a value; otherwise
    the call raises, and the exception is [ValueError]. *)
Theorem corr_matrix_returns_iff (tf : TypedFrame) :
  (returns (categorical_correlation_matrix tf)
   <-> forall i j, (i < List.length (select_dtypes tf))%nat ->
                   (j < List.length (select_dtypes tf))%nat -> i <> j ->
                   shares_row (frame tf)
                              (nth i (select_dtypes tf) ""%string)
                              (nth j (select_dtypes tf) ""%string) = true)
  /\ (forall e, categorical_correlation_matrix tf = Raise e -> e = ValueError).
Proof.
  pose proof (corr_entry_outcome tf) as Hentry.
  split; [split|].
  - intros [m Hm] i j Hi Hj Hij.
    pose proof (corr_matrix_entry tf m i j Hm Hi Hj) as H.
    specialize (Hentry i j Hi Hj). rewrite H in Hentry.
    destruct Hentry; [contradiction | assumption].
  - intros H. unfold categorical_correlation_matrix.
    destruct (mapM_returns
                (fun ic1 =>
                   mapM (fun jc2 =>
                           corr_entry (frame tf) (fst ic1) (snd ic1)
                                      (fst jc2) (snd jc2))
                        (enumerate (select_dtypes tf)))
                (enumerate (select_dtypes tf))) as [values Hv].
    + intros [i c1] Hin.
      apply (enumerate_In _ ""%string) in Hin as [Hi Ec1]. simpl in Hi, Ec1.
      apply mapM_returns. intros [j c2] Hin.
      apply (enumerate_In _ ""%string) in Hin as [Hj Ec2]. simpl in Hj, Ec2.
      cbn [fst snd]. subst c1 c2.
      specialize (Hentry i j Hi Hj).
      destruct (corr_entry _ _ _ _ _) as [v|e]; [eexists; reflexivity|].
      destruct Hentry as (_ & Hij & Hno). rewrite H in Hno by assumption.
      discriminate.
    + rewrite Hv. cbn [bind]. eexists. reflexivity.
  - intros e He. unfold categorical_correlation_matrix in He.
    destruct (mapM _ (enumerate (select_dtypes tf))) as [values|e'] eqn:Hv;
      cbn [bind] in He; [discriminate|].
    inversion He; subst e'.
    apply mapM_Raise_inv in Hv as ([i c1] & Hin & Hrow).
    apply (enumerate_In _ ""%string) in Hin as [Hi Ec1]. simpl in Hi, Ec1.
    apply mapM_Raise_inv in Hrow as ([j c2] & Hin & Hcell).
    apply (enumerate_In _ ""%string) in Hin as [Hj Ec2]. simpl in Hj, Ec2.
    cbn [fst snd] in Hcell. subst c1 c2.
    specialize (Hentry i j Hi Hj). rewrite Hcell in Hentry. tauto.
Qed.

(** ** [categorical_and_numeric_correlation]: the returned table *)

Lemma dict_set_keys {V} (d : list (string * V)) (k : string) (v : V) :
  map fst (dict_set d k v) = add_key (map fst d) k.
Proof.
  unfold add_key. induction d as [|[k' v'] d IH]; simpl; [reflexivity|].
  destruct (String.eqb k k'); simpl; [reflexivity|].
  rewrite IH. now destruct (existsb (String.eqb k) (map fst d)).
Qed.

Lemma dict_set_In_same {V} (d : list (string * V)) (k : string) (v : V) :
  In (k, v) (dict_set d k v).
Proof.
  induction d as [|[k' v'] d IH]; simpl; [now left|].
  destruct (String.eqb k k') eqn:E; simpl.
  - apply String.eqb_eq in E. subst. now left.
  - now right.
Qed.

Lemma dict_set_In_other {V} (d : list (string * V)) (k k' : string)
      (v v' : V) :
  k' <> k -> In (k', v') d -> In (k', v') (dict_set d k v).
Proof.
  intros Hne. induction d as [|[k0 v0] d IH]; simpl; [contradiction|].
  intros [H|H].
  - inversion H; subst. destruct (String.eqb k k') eqn:E.
    + apply String.eqb_eq in E. congruence.
    + now left.
  - destruct (String.eqb k k0); simpl; [now right | right; auto].
Qed.

Lemma p_values_loop_step (pv : list (list (option Q)) -> fl R)
      (df : DataFrame) (numeric_feature col : string) (rest : list string)
      (acc : list (string * fl R)) :
  p_values_loop pv df numeric_feature (col :: rest) acc
  = (p <- column_p_value pv df numeric_feature col ;;
     p_values_loop pv df numeric_feature rest (dict_set acc col p)).
Proof.
  simpl. unfold column_p_value.
  destruct (groups_of df col numeric_feature); reflexivity.
Qed.

Lemma p_values_loop_keys (pv : list (list (option Q)) -> fl R)
      (df : DataFrame) (numeric_feature : string) (cols : list string)
      (acc out : list (string * fl R)) :
  p_values_loop pv df numeric_feature cols acc = Ok out ->
  map fst out = fold_left add_key cols (map fst acc).
Proof.
  revert acc. induction cols as [|col rest IH]; intros acc H.
  - simpl in H. inversion H. reflexivity.
  - rewrite p_values_loop_step in H.
    apply bind_Ok_inv in H as (p & _ & H).
    rewrite (IH _ H), dict_set_keys. reflexivity.
Qed.

Lemma add_key_In (keys : list string) (k c : string) :
  In c (add_key keys k) <-> In c keys \/ c = k.
Proof.
  unfold add_key. destruct (existsb (String.eqb k) keys) eqn:E.
  - split; [auto|]. intros [H| ->]; [exact H|].
    apply existsb_exists in E as (k' & Hin & Ek).
    apply String.eqb_eq in Ek. now subst.
  - rewrite in_app_iff. simpl. intuition.
Qed.

Lemma add_key_NoDup (keys : list string) (k : string) :
  NoDup keys -> NoDup (add_key keys k).
Proof.
  intros H. unfold add_key. destruct (existsb (String.eqb k) keys) eqn:E;
    [exact H|].
  apply NoDup_app; [exact H | repeat constructor; auto |].
  intros x Hx [->|[]].
  assert (existsb (String.eqb x) keys = true); [|congruence].
  apply existsb_exists. exists x. split; [exact Hx | apply String.eqb_refl].
Qed.

Lemma fold_add_key_facts (cols keys : list string) :
  NoDup keys ->
  NoDup (fold_left add_key cols keys)
  /\ (forall c, In c (fold_left add_key cols keys) <-> In c keys \/ In c cols)
  /\ (NoDup (keys ++ cols) -> fold_left add_key cols keys = keys ++ cols).
Proof.
  revert keys. induction cols as [|col rest IH]; intros keys Hk; simpl.
  - split; [exact Hk|]. split; [intuition|]. intros _. now rewrite app_nil_r.
  - destruct (IH (add_key keys col) (add_key_NoDup keys col Hk))
      as (H1 & H2 & H3).
    split; [exact H1|]. split.
    + intros c. rewrite H2, add_key_In. intuition.
    + intros Hnd.
      assert (add_key keys col = keys ++ [col]) as E.
      { unfold add_key. destruct (existsb (String.eqb col) keys) eqn:E;
          [|reflexivity].
        apply existsb_exists in E as (k' & Hin & Ek).
        apply String.eqb_eq in Ek. subst k'.
        apply NoDup_remove_2 in Hnd. exfalso. apply Hnd.
        apply in_or_app. now left. }
      rewrite E in *. rewrite H3; rewrite <- app_assoc; [reflexivity|].
      exact Hnd.
Qed.

(** X12.  A returned table has one row per distinct listed column: its
    features are distinct and are exactly the listed names; when no name is
    listed twice they come in the order of the list. *)
Theorem anova_table_features
        (anova_pvalue : list (list (option Q)) -> fl R)
        (df : DataFrame) (numeric_feature : string)
        (categorical_columns : list string) (out : list (string * fl R))
        (Hout : categorical_and_numeric_correlation anova_pvalue df
                  numeric_feature categorical_columns = Ok out) :
  NoDup (map fst out)
  /\ (forall c, In c (map fst out) <-> In c categorical_columns)
  /\ (NoDup categorical_columns -> map fst out = categorical_columns).
Proof.
  unfold categorical_and_numeric_correlation in Hout.
  apply p_values_loop_keys in Hout. rewrite Hout. simpl.
  destruct (fold_add_key_facts categorical_columns [] (NoDup_nil _))
    as (H1 & H2 & H3).
  split; [exact H1|]. split.
  - intros c. rewrite H2. simpl. tauto.
  - exact H3.
Qed.

Lemma anova_table_features_witness :
  NoDup (map fst [("g"%string, Fin 0%R)])
  /\ (forall c, In c (map fst [("g"%string, Fin 0%R)])
                <-> In c ["g"; "g"]%string)
  /\ (NoDup ["g"; "g"]%string
      -> map fst [("g"%string, Fin 0%R)] = ["g"; "g"]%string).
Proof.
  apply (anova_table_features (fun _ => Fin 0%R) two_labels "y"
           ["g"; "g"]%string).
  reflexivity.
Defined.

(** ** [categorical_and_numeric_correlation]: the value stored for a column *)

Lemma p_values_loop_keeps (pv : list (list (option Q)) -> fl R)
      (df : DataFrame) (numeric_feature c : string) (p : fl R)
      (cols : list string) (acc out : list (string * fl R)) :
  p_values_loop pv df numeric_feature cols acc = Ok out ->
  column_p_value pv df numeric_feature c = Ok p ->
  In (c, p) acc -> In (c, p) out.
Proof.
  intros H Hp. revert acc H.
  induction cols as [|col rest IH]; intros acc H Hin.
  - simpl in H. inversion H; subst. exact Hin.
  - rewrite p_values_loop_step in H.
    apply bind_Ok_inv in H as (q & Hq & H).
    apply (IH _ H).
    destruct (String.eqb_spec c col) as [->|Hne].
    + assert (q = p) as -> by congruence. apply dict_set_In_same.
    + now apply dict_set_In_other.
Qed.

Lemma p_values_loop_stores (pv : list (list (option Q)) -> fl R)
      (df : DataFrame) (numeric_feature c : string)
      (cols : list string) (acc out : list (string * fl R)) :
  p_values_loop pv df numeric_feature cols acc = Ok out ->
  In c cols ->
  exists p, column_p_value pv df numeric_feature c = Ok p /\ In (c, p) out.
Proof.
  revert acc. induction cols as [|col rest IH]; intros acc H Hin;
    [contradiction|].
  rewrite p_values_loop_step in H.
  apply bind_Ok_inv in H as (q & Hq & H).
  destruct Hin as [->|Hin].
  - exists q. split; [exact Hq|].
    apply (p_values_loop_keeps pv df numeric_feature c q rest _ out H Hq).
    apply dict_set_In_same.
  - now apply (IH _ H).
Qed.

Lemma mapM_Ok_In {A B} (f : A -> result B) (xs : list A) (ys : list B)
      (x : A) :
  mapM f xs = Ok ys -> In x xs -> exists y, f x = Ok y /\ In y ys.
Proof.
  revert ys. induction xs as [|a xs IH]; intros ys H Hin; [contradiction|].
  simpl in H. apply bind_Ok_inv in H as (y & Hy & H).
  apply bind_Ok_inv in H as (ys' & Hys & H). inversion H; subst.
  destruct Hin as [->|Hin].
  - exists y. split; [exact Hy | now left].
  - destruct (IH _ Hys Hin) as (y' & Hy' & Hin'). exists y'.
    split; [exact Hy' | now right].
Qed.

Lemma cell_eqb_NA (c : cell) : cell_eqb c NA = false.
Proof. now destruct c. Qed.

Lemma unique_has_NA (s : Series) : existsb isna s = true -> In NA (unique s).
Proof.
  intros H. apply existsb_exists in H as (c & Hin & Hc).
  destruct c; try discriminate.
  destruct (unique_cover NA s Hin) as (b & Hb & Hsame).
  destruct b; try discriminate. exact Hb.
Qed.

(** The sample of a missing category is empty. *)
Lemma group_of_NA (df : DataFrame) (col numeric_feature : string)
      (g : Series) :
  (sel <- select_eq df col NA ;; getitem sel numeric_feature) = Ok g ->
  g = [].
Proof.
  unfold select_eq. destruct (getitem df col) as [s|e]; cbn [bind];
    [|discriminate].
  assert (filter (fun p : cell * Row => cell_eqb (fst p) NA)
                 (combine s (rows df)) = []) as ->.
  { induction (combine s (rows df)) as [|p l IH]; simpl; [reflexivity|].
    now rewrite cell_eqb_NA. }
  unfold getitem. simpl.
  destruct (index_of numeric_feature (columns df)); intros H;
    inversion H; reflexivity.
Qed.

Lemma f_oneway_empty_sample (pv : list (list (option Q)) -> fl R)
      (groups : list Series) (p : fl R) :
  In [] groups -> f_oneway pv groups = Ok p -> p = NaN.
Proof.
  intros Hin. unfold f_oneway.
  destruct (List.length groups <? 2)%nat; [discriminate|].
  destruct (mapM to_numeric groups) as [arrays|e] eqn:Ha; cbn [bind];
    [|discriminate].
  destruct (mapM_Ok_In _ _ _ [] Ha Hin) as (a & Hna & Hina).
  simpl in Hna. inversion Hna; subst a.
  assert (existsb (fun a => (List.length a =? 0)%nat) arrays = true) as ->.
  { apply existsb_exists. exists []. split; [exact Hina | reflexivity]. }
  congruence.
Qed.

(** X13.  In a returned table, a listed column with a missing entry has the
    p-value NaN: the missing value is one of its categories and the sample
    of that category is empty. *)
Theorem anova_missing_gives_nan
        (anova_pvalue : list (list (option Q)) -> fl R)
        (df : DataFrame) (numeric_feature : string)
        (categorical_columns : list string) (out : list (string * fl R))
        (c : string)
        (Hout : categorical_and_numeric_correlation anova_pvalue df
                  numeric_feature categorical_columns = Ok out)
        (Hlisted : In c categorical_columns)
        (Hmissing : has_missing df c = true) :
  In (c, NaN) out.
Proof.
  unfold categorical_and_numeric_correlation in Hout.
  destruct (p_values_loop_stores _ _ _ c _ _ _ Hout Hlisted) as (p & Hp & Hin).
  assert (p = NaN) as ->; [|exact Hin].
  unfold column_p_value in Hp.
  apply bind_Ok_inv in Hp as (groups & Hg & Hf).
  apply (f_oneway_empty_sample anova_pvalue groups p); [|exact Hf].
  unfold groups_of in Hg. unfold has_missing in Hmissing.
  destruct (getitem df c) as [s|e]; [|discriminate]. cbn [bind] in Hg.
  destruct (mapM_Ok_In _ _ _ NA Hg (unique_has_NA s Hmissing))
    as (g & Hgna & Hgin).
  apply group_of_NA in Hgna. now subst g.
Qed.

Lemma anova_missing_gives_nan_witness :
  In ("g"%string, NaN) [("g"%string, @NaN R)].
Proof.
  apply (anova_missing_gives_nan (fun _ => Fin 0%R) two_labels_and_missing
           "y" ["g"%string] [("g"%string, NaN)] "g"%string).
  - reflexivity.
  - left. reflexivity.
  - reflexivity.
Defined.

(** ** [categorical_and_numeric_correlation]: when it returns *)

Lemma sub_series_numeric (pos : nat) (rs rs' : list Row) :
  incl rs' rs ->
  forallb (fun c => match c with Str _ => false | _ => true end)
          (map (at_col pos) rs) = true ->
  forallb (fun c => match c with Str _ => false | _ => true end)
          (map (at_col pos) rs') = true.
Proof.
  intros Hincl H. rewrite forallb_forall in *.
  intros c Hc. apply in_map_iff in Hc as (r & <- & Hr).
  apply H. apply in_map. now apply Hincl.
Qed.

Lemma column_p_value_returns (pv : list (list (option Q)) -> fl R)
      (df : DataFrame) (numeric_feature col : string) :
  numeric_column df numeric_feature = true ->
  (2 <= n_categories df col)%nat ->
  returns (column_p_value pv df numeric_feature col).
Proof.
  intros Hnum Hcat. unfold numeric_column in Hnum. unfold n_categories in Hcat.
  unfold column_p_value, groups_of.
  destruct (getitem df col) as [s|e] eqn:Hs; [|simpl in Hcat; lia].
  cbn [bind].
  unfold getitem in Hnum.
  destruct (index_of numeric_feature (columns df)) as [posn|] eqn:Hposn;
    [|discriminate].
  assert (forall category,
             exists rs', incl rs' (rows df)
                         /\ (sel <- select_eq df col category ;;
                             getitem sel numeric_feature)
                            = Ok (map (at_col posn) rs')) as Hgroup.
  { intros category. unfold select_eq. rewrite Hs. cbn [bind].
    unfold getitem. cbn [columns rows]. rewrite Hposn.
    eexists. split; [|reflexivity].
    intros r Hr. apply in_map_iff in Hr as ([c' r'] & <- & Hr).
    apply filter_In in Hr as [Hr _]. now apply in_combine_r in Hr. }
  destruct (mapM _ (unique s)) as [groups|e] eqn:Hg.
  - cbn [bind]. unfold f_oneway.
    rewrite (mapM_Ok_length _ _ _ Hg).
    destruct (List.length (unique s) <? 2)%nat eqn:E;
      [apply Nat.ltb_lt in E; lia|].
    destruct (mapM_returns to_numeric groups) as [arrays Ha].
    + intros g Hgin.
      destruct (In_nth _ _ [] Hgin) as (i & Hi & <-).
      assert (i < List.length (unique s))%nat as Hi'
          by (rewrite <- (mapM_Ok_length _ _ _ Hg); exact Hi).
      pose proof (mapM_Ok_nth _ _ _ NA [] i Hg Hi') as Hnth.
      destruct (Hgroup (nth i (unique s) NA)) as (rs' & Hincl & Hrs').
      cbv beta in Hnth. rewrite Hrs' in Hnth. inversion Hnth as [Hnth'].
      destruct (numeric_to_numeric (map (at_col posn) rs')) as [vs Hvs];
        [eapply sub_series_numeric; eauto|].
      eexists. exact Hvs.
    + rewrite Ha. cbn [bind].
      destruct (existsb _ arrays); eexists; reflexivity.
  - apply mapM_Raise_inv in Hg as (category & _ & Hc).
    destruct (Hgroup category) as (rs' & _ & Hrs'). congruence.
Qed.

(** X14.  The table is returned whenever the numeric feature is a column
    without labels and every listed column has at least two distinct
    values (a missing value counting as one). *)
Theorem anova_returns
        (anova_pvalue : list (list (option Q)) -> fl R)
        (df : DataFrame) (numeric_feature : string)
        (categorical_columns : list string)
        (Hnumeric : numeric_column df numeric_feature = true)
        (Hcats : forallb (fun c => (2 <=? n_categories df c)%nat)
                         categorical_columns = true) :
  returns (categorical_and_numeric_correlation anova_pvalue df
             numeric_feature categorical_columns).
Proof.
  unfold categorical_and_numeric_correlation. generalize (@nil (string * fl R)).
  induction categorical_columns as [|col rest IH]; intros acc.
  - eexists. reflexivity.
  - cbn [forallb] in Hcats. apply andb_true_iff in Hcats as [Hc Hrest].
    apply Nat.leb_le in Hc.
    rewrite p_values_loop_step.
    destruct (column_p_value_returns anova_pvalue df numeric_feature col
                Hnumeric Hc) as [p ->].
    cbn [bind]. now apply IH.
Qed.

Lemma anova_returns_witness :
  returns (categorical_and_numeric_correlation (fun _ => Fin 0%R) two_labels
             "y" ["g"%string]).
Proof.
  apply (anova_returns (fun _ => Fin 0%R) two_labels "y" ["g"%string]).
  - reflexivity.
  - reflexivity.
Defined.

(** ** [count_prevalence_rate]: the returned table *)

Lemma prevalence_of_condition (crit : R) (df : DataFrame) (c : string)
      (row : PrevalenceRow) :
  prevalence_of crit df c = Ok row -> Condition row = c.
Proof.
  unfold prevalence_of. intros H.
  apply bind_Ok_inv in H as (s & _ & H).
  apply bind_Ok_inv in H as (prevalence & _ & H).
  apply bind_Ok_inv in H as (s' & _ & H).
  apply bind_Ok_inv in H as (k & _ & H).
  destruct (proportion_confint crit k (len df)) as [lower upper].
  inversion H. reflexivity.
Qed.

(** X15.  A returned table has one row per condition, in the order of the
    list (a condition listed twice gets two rows). *)
Theorem prevalence_rows_follow_conditions (crit : R) (df : DataFrame)
        (conditions : list string) (out : list PrevalenceRow)
        (Hout : count_prevalence_rate crit df conditions = Ok out) :
  map Condition out = conditions.
Proof.
  unfold count_prevalence_rate in Hout. revert out Hout.
  induction conditions as [|c cs IH]; intros out H.
  - simpl in H. inversion H. reflexivity.
  - simpl in H. apply bind_Ok_inv in H as (row & Hrow & H).
    apply bind_Ok_inv in H as (rest & Hrest & H). inversion H; subst.
    simpl. rewrite (prevalence_of_condition crit df c row Hrow).
    now rewrite (IH rest Hrest).
Qed.

Lemma prevalence_rows_follow_conditions_witness :
  map Condition [mkPrev "c" NaN NaN NaN; mkPrev "c" NaN NaN NaN]
  = ["c"; "c"]%string.
Proof.
  apply (prevalence_rows_follow_conditions z_quoted no_rows ["c"; "c"]%string).
  unfold count_prevalence_rate. cbn [mapM].
  rewrite (prevalence_of_empty z_quoted no_rows "c"); reflexivity.
Defined.

Lemma prevalence_of_returns_iff (crit : R) (df : DataFrame) (c : string) :
  returns (prevalence_of crit df c) <-> numeric_column df c = true.
Proof.
  unfold prevalence_of, numeric_column, series_mean, series_sum.
  destruct (getitem df c) as [s|e]; cbn [bind].
  - destruct (forallb _ s) eqn:Hnum.
    + destruct (numeric_to_numeric s Hnum) as [vs Hvs]. rewrite Hvs.
      cbn [bind]. split; [reflexivity|]. intros _.
      destruct (dropna vs); cbn [bind];
        destruct (proportion_confint _ _ _); eexists; reflexivity.
    + rewrite (to_numeric_label s Hnum). cbn [bind].
      split; [intros [row H]; discriminate | discriminate].
  - split; [intros [row H]; discriminate | discriminate].
Qed.

(** X16.  The table is returned exactly when every condition names a column
    without labels; a missing column or a column of labels makes the call
    raise. *)
Theorem prevalence_returns_iff (crit : R) (df : DataFrame)
        (conditions : list string) :
  returns (count_prevalence_rate crit df conditions)
  <-> forallb (numeric_column df) conditions = true.
Proof.
  unfold count_prevalence_rate. split.
  - intros [out H]. apply forallb_forall. intros c Hc.
    destruct (mapM_Ok_In _ _ _ c H Hc) as (row & Hrow & _).
    apply (proj1 (prevalence_of_returns_iff crit df c)). now exists row.
  - intros H. apply mapM_returns. intros c Hc.
    apply (proj2 (prevalence_of_returns_iff crit df c)).
    rewrite forallb_forall in H. now apply H.
Qed.

(** ** [count_prevalence_rate]: missing entries *)

Lemma binary_or_missing_series (s : Series) :
  forallb binary_or_missing_cell s = true ->
  exists vs, to_numeric s = Ok vs
             /\ (List.length (dropna vs) <= List.length s)%nat
             /\ 0 <= Qsum (dropna vs)
             /\ Qsum (dropna vs)
                <= inject_Z (Z.of_nat (List.length (dropna vs))).
Proof.
  induction s as [|c s IH]; intros H.
  - exists []. repeat split; simpl; try apply Qle_refl. lia.
  - simpl in H. apply andb_true_iff in H as [Hc Hs].
    destruct (IH Hs) as (vs & Hvs & Hlen & H0 & H1).
    destruct c as [q| |]; try discriminate.
    + exists (Some q :: vs). simpl. rewrite Hvs. simpl. repeat split.
      * lia.
      * simpl in Hc. apply orb_true_iff in Hc as [Hq|Hq];
          apply Qeq_bool_iff in Hq; rewrite Hq; lra.
      * rewrite Zpos_P_of_succ_nat, <- Z.add_1_r, inject_Z_plus.
        simpl in Hc. apply orb_true_iff in Hc as [Hq|Hq];
          apply Qeq_bool_iff in Hq; rewrite Hq;
          change (inject_Z 1) with 1; lra.
    + exists (None :: vs). simpl. rewrite Hvs. simpl. repeat split;
        [lia | exact H0 | exact H1].
Qed.

Lemma prevalence_with_missing_exact (crit : R) (df : DataFrame)
        (condition : string)
        (Hcrit : crit_range crit)
        (Hcol : binary_or_missing df condition = true)
        (Hval : (1 <= count_values df condition)%nat) :
  count_prevalence_rate crit df [condition]
  = Ok [mkPrev condition
          (Fin (Q2R (positive_count df condition)
                / IZR (Z.of_nat (count_values df condition)))%R)
          (Fin (wilson_lower crit
                  (Q2R (positive_count df condition) / IZR (len df))%R
                  (IZR (len df))))
          (Fin (wilson_upper crit
                  (Q2R (positive_count df condition) / IZR (len df))%R
                  (IZR (len df))))]
  /\ (wilson_lower crit (Q2R (positive_count df condition) / IZR (len df))%R
                   (IZR (len df))
      <= Q2R (positive_count df condition) / IZR (len df)
      <= wilson_upper crit (Q2R (positive_count df condition) / IZR (len df))%R
                      (IZR (len df)))%R.
Proof.
  apply crit_range_nonneg in Hcrit.
  unfold binary_or_missing in Hcol. unfold count_values in *.
  unfold positive_count, count_prevalence_rate, prevalence_of.
  destruct (getitem df condition) as [s|e] eqn:Hs; [|discriminate].
  destruct (binary_or_missing_series s Hcol) as (vs & Hvs & Hlen & H0 & H1).
  rewrite <- (to_numeric_dropna_length s vs Hvs) in *.
  assert (List.length s = List.length (rows df)) as Hrows.
  { apply getitem_Ok_inv in Hs as (pos & _ & ->). apply length_map. }
  rewrite (series_sum_Ok s vs Hvs).
  set (k := Qsum (dropna vs)) in *.
  set (m := List.length (dropna vs)) in *.
  assert (0 < len df)%Z as Hn by (unfold len; lia).
  assert (0 < IZR (len df))%R as Hn' by now apply IZR_lt.
  assert (0 < IZR (Z.of_nat m))%R as Hm' by (apply IZR_lt; lia).
  assert (0 <= Q2R k / IZR (len df) <= 1)%R as Hp.
  { apply Qle_Rle in H0, H1.
    rewrite Q2R_zero in H0. rewrite Q2R_inject_Z in H1.
    assert (IZR (Z.of_nat m) <= IZR (len df))%R
      by (apply IZR_le; unfold len; lia).
    split.
    - apply Rmult_le_reg_r with (IZR (len df)); [exact Hn'|].
      unfold Rdiv. rewrite Rmult_assoc, Rinv_l by lra. lra.
    - apply Rmult_le_reg_r with (IZR (len df)); [exact Hn'|].
      unfold Rdiv. rewrite Rmult_assoc, Rinv_l by lra. lra. }
  split.
  - cbn [mapM bind]. rewrite Hs. cbn [bind].
    rewrite (series_mean_Ok s vs Hvs)
      by (intros E; subst m; rewrite E in Hval; simpl in Hval; lia).
    cbn [bind]. fold m. fold k.
    rewrite Q2R_div, Q2R_inject_Z.
    2:{ intros E. apply Qeq_eqR in E.
        rewrite Q2R_inject_Z, Q2R_zero in E. lra. }
    rewrite (series_sum_Ok s vs Hvs). cbn [bind]. fold k.
    rewrite proportion_confint_fin by assumption.
    reflexivity.
  - pose proof (wilson_contains crit _ _ Hcrit Hn' Hp) as (_ & Hl & Hu & _).
    unfold wilson_lower, wilson_upper. split; assumption.
Qed.

Lemma Rabs_self_rounding (u : R) : (Rabs (u - u) <= rounding)%R.
Proof.
  unfold Rminus. rewrite Rplus_opp_r, Rabs_R0. apply rounding_nonneg.
Qed.

(** X17.  On a 0/1 column with missing entries the two figures use
    different denominators: the prevalence is, up to rounding, the number
    of ones over the number of non-missing entries, while the interval is
    computed from the number of ones over the number of all rows, and it
    is that proportion the interval contains, up to rounding. *)
Theorem prevalence_with_missing_entries (crit : R) (df : DataFrame)
        (condition : string)
        (Hcrit : crit_range crit)
        (Hcol : binary_or_missing df condition = true)
        (Hval : (1 <= count_values df condition)%nat) :
  exists p lower upper : R,
    count_prevalence_rate crit df [condition]
    = Ok [mkPrev condition (Fin p) (Fin lower) (Fin upper)]
    /\ (Rabs (p - Q2R (positive_count df condition)
                  / IZR (Z.of_nat (count_values df condition)))
        <= rounding)%R
    /\ (lower - rounding
        <= Q2R (positive_count df condition) / IZR (len df)
        <= upper + rounding)%R.
Proof.
  destruct (prevalence_with_missing_exact crit df condition Hcrit Hcol Hval)
    as [Hrow [Hl Hu]].
  eexists _, _, _. split; [exact Hrow|].
  split; [apply Rabs_self_rounding|].
  pose proof rounding_nonneg. lra.
Qed.

Lemma prevalence_with_missing_entries_witness :
  exists p lower upper : R,
    count_prevalence_rate z_quoted half_missing ["c"%string]
    = Ok [mkPrev "c" (Fin p) (Fin lower) (Fin upper)]
    /\ (Rabs (p - Q2R (positive_count half_missing "c")
                  / IZR (Z.of_nat (count_values half_missing "c")))
        <= rounding)%R
    /\ (lower - rounding
        <= Q2R (positive_count half_missing "c") / IZR (len half_missing)
        <= upper + rounding)%R.
Proof.
  apply (prevalence_with_missing_entries z_quoted half_missing "c"%string).
  - unfold crit_range, z_quoted. lra.
  - reflexivity.
  - vm_compute. lia.
Defined.

(** ** [count_prevalence_rate]: shape of the interval *)

Lemma wilson_mirror (z p n : R) :
  (0 < n)%R ->
  wilson_lower z (1 - p) n = (1 - wilson_upper z p n)%R
  /\ wilson_upper z (1 - p) n = (1 - wilson_lower z p n)%R.
Proof.
  intros Hn. assert (0 < n + z * z)%R as Hd by nra.
  unfold wilson_lower, wilson_upper, wilson_center, wilson_half_width.
  replace ((1 - p) * (1 - (1 - p)))%R with (p * (1 - p))%R by ring.
  split; field; lra.
Qed.

Lemma prevalence_of_complement_exact (crit : R) (df : DataFrame) (c d : string)
        (Hrows : (0 < len df)%Z)
        (Hc : binary_column df c = true)
        (Hd : binary_column df d = true)
        (Hsum : positive_count df c + positive_count df d
                == inject_Z (len df)) :
  exists p lower upper : R,
    count_prevalence_rate crit df [c; d]
    = Ok [mkPrev c (Fin p) (Fin lower) (Fin upper);
          mkPrev d (Fin (1 - p)%R) (Fin (1 - upper)%R) (Fin (1 - lower)%R)].
Proof.
  destruct (prevalence_of_binary crit df c Hrows Hc) as [_ Hrc].
  destruct (prevalence_of_binary crit df d Hrows Hd) as [_ Hrd].
  cbv zeta in Hrc, Hrd.
  assert (0 < IZR (len df))%R as Hn by now apply IZR_lt.
  assert (Q2R (positive_count df d) / IZR (len df)
          = 1 - Q2R (positive_count df c) / IZR (len df))%R as E.
  { apply Qeq_eqR in Hsum. rewrite Q2R_plus, Q2R_inject_Z in Hsum.
    rewrite <- Hsum. field. lra. }
  rewrite E in Hrd.
  destruct (wilson_mirror crit (Q2R (positive_count df c) / IZR (len df))
              (IZR (len df)) Hn) as [El Eu].
  rewrite El, Eu in Hrd.
  eexists _, _, _. unfold count_prevalence_rate. cbn [mapM].
  rewrite Hrc, Hrd. reflexivity.
Qed.

(** X18.  Complementary conditions get mirrored rows, up to rounding:
    when two binary columns of a frame have ones that add up to the number
    of rows, the prevalence and the bounds of the second are within 1e-9
    of one minus the prevalence and the opposite bounds of the first. *)
Theorem prevalence_of_complement (crit : R) (df : DataFrame) (c d : string)
        (Hrows : (0 < len df)%Z)
        (Hc : binary_column df c = true)
        (Hd : binary_column df d = true)
        (Hsum : positive_count df c + positive_count df d
                == inject_Z (len df)) :
  exists p lower upper p' lower' upper' : R,
    count_prevalence_rate crit df [c; d]
    = Ok [mkPrev c (Fin p) (Fin lower) (Fin upper);
          mkPrev d (Fin p') (Fin lower') (Fin upper')]
    /\ (Rabs (p' - (1 - p)) <= rounding)%R
    /\ (Rabs (lower' - (1 - upper)) <= rounding)%R
    /\ (Rabs (upper' - (1 - lower)) <= rounding)%R.
Proof.
  destruct (prevalence_of_complement_exact crit df c d Hrows Hc Hd Hsum)
    as (p & lower & upper & Hrow).
  eexists _, _, _, _, _, _. split; [exact Hrow|].
  repeat split; apply Rabs_self_rounding.
Qed.

Lemma prevalence_of_complement_witness :
  exists p lower upper p' lower' upper' : R,
    count_prevalence_rate z_quoted complementary ["c"; "d"]%string
    = Ok [mkPrev "c" (Fin p) (Fin lower) (Fin upper);
          mkPrev "d" (Fin p') (Fin lower') (Fin upper')]
    /\ (Rabs (p' - (1 - p)) <= rounding)%R
    /\ (Rabs (lower' - (1 - upper)) <= rounding)%R
    /\ (Rabs (upper' - (1 - lower)) <= rounding)%R.
Proof.
  apply (prevalence_of_complement z_quoted complementary "c"%string
           "d"%string).
  - reflexivity.
  - reflexivity.
  - reflexivity.
  - reflexivity.
Defined.

Lemma wilson_radicand_pos (z p n : R) :
  (0 < z)%R -> (0 < n)%R -> (0 <= p <= 1)%R -> (0 < wilson_radicand z p n)%R.
Proof.
  intros Hz Hn Hp. rewrite wilson_radicand_inv by exact Hn.
  pose proof (wilson_inv_pos n Hn).
  assert (0 <= p * (1 - p))%R by nra.
  assert (0 < (z * / n) * (z * / n))%R by (apply Rmult_lt_0_compat; nra).
  nra.
Qed.

Lemma wilson_lower_at_zero (z n : R) :
  (0 <= z)%R -> (0 < n)%R -> wilson_lower z 0 n = 0%R.
Proof.
  intros Hz Hn. unfold wilson_lower.
  destruct (wilson_bounds_form z 0 n Hn) as [-> _].
  assert (wilson_radicand z 0 n = (z * / n / 2) * (z * / n / 2))%R as ->
      by (unfold wilson_radicand; field; lra).
  rewrite sqrt_square.
  - unfold Rdiv. replace (0 + z * z * / n * / 2 - z * (z * / n * / 2))%R
      with 0%R by ring. ring.
  - pose proof (Rinv_0_lt_compat n Hn). nra.
Qed.

Lemma prevalence_interval_exact (crit : R) (df : DataFrame)
        (condition : string)
        (Hcrit : crit_range crit)
        (Hrows : (0 < len df)%Z)
        (Hbinary : binary_column df condition = true) :
  exists p lower upper : R,
    count_prevalence_rate crit df [condition]
    = Ok [mkPrev condition (Fin p) (Fin lower) (Fin upper)]
    /\ (lower < upper)%R
    /\ (positive_count df condition == 0 -> lower = 0%R)
    /\ (positive_count df condition == inject_Z (len df) -> upper = 1%R).
Proof.
  destruct (prevalence_of_binary crit df condition Hrows Hbinary) as [Hp Hrow].
  cbv zeta in Hp, Hrow.
  assert (0 < crit)%R as Hz by (unfold crit_range in Hcrit; lra).
  assert (0 < IZR (len df))%R as Hn by now apply IZR_lt.
  eexists _, _, _. split.
  { unfold count_prevalence_rate. cbn [mapM]. rewrite Hrow. reflexivity. }
  split; [|split].
  - unfold wilson_lower, wilson_upper.
    assert (0 < wilson_half_width crit
                  (Q2R (positive_count df condition) / IZR (len df))
                  (IZR (len df)))%R; [|lra].
    unfold wilson_half_width.
    fold (wilson_radicand crit
            (Q2R (positive_count df condition) / IZR (len df)) (IZR (len df))).
    fold (wilson_denom crit (IZR (len df))).
    apply Rdiv_lt_0_compat; [|now apply wilson_denom_pos].
    apply Rmult_lt_0_compat; [exact Hz|].
    apply sqrt_lt_R0. now apply wilson_radicand_pos.
  - intros E. apply Qeq_eqR in E. rewrite Q2R_zero in E. rewrite E.
    replace (0 / IZR (len df))%R with 0%R by (field; lra).
    apply wilson_lower_at_zero; lra.
  - intros E. apply Qeq_eqR in E. rewrite Q2R_inject_Z in E. rewrite E.
    replace (IZR (len df) / IZR (len df))%R with (1 - 0)%R by (field; lra).
    destruct (wilson_mirror crit 0 (IZR (len df)) Hn) as [_ ->].
    rewrite wilson_lower_at_zero by lra. ring.
Qed.

(** X19.  On a binary column that holds only zeros ([b = 0]) or only ones
    ([b = 1]), in a frame with at least one row, the prevalence sits on
    an end of the interval up to rounding: the prevalence is within 1e-9
    of [b], and so is the lower bound for zeros and the upper bound for
    ones.  (A clamp to [0, 1] would move these bounds by a rounding error
    only.) *)
Theorem prevalence_interval_proper (crit : R) (df : DataFrame)
        (condition : string) (b : Z)
        (Hcrit : crit_range crit)
        (Hrows : (0 < len df)%Z)
        (Hbinary : binary_column df condition = true)
        (Hb : b = 0%Z \/ b = 1%Z)
        (Hall : positive_count df condition == inject_Z (b * len df)) :
  exists p lower upper : R,
    count_prevalence_rate crit df [condition]
    = Ok [mkPrev condition (Fin p) (Fin lower) (Fin upper)]
    /\ (Rabs (p - IZR b) <= rounding)%R
    /\ (Rabs ((if (b =? 0)%Z then lower else upper) - IZR b) <= rounding)%R.
Proof.
  destruct (prevalence_of_binary crit df condition Hrows Hbinary) as [_ Hrow].
  cbv zeta in Hrow.
  destruct (prevalence_interval_exact crit df condition Hcrit Hrows Hbinary)
    as (p & lower & upper & Hres & _ & H0 & H1).
  assert (0 < IZR (len df))%R as Hn by now apply IZR_lt.
  unfold count_prevalence_rate in Hres. cbn [mapM] in Hres.
  rewrite Hrow in Hres. cbn [bind] in Hres.
  inversion Hres as [[Ep El Eu]].
  eexists _, _, _. split.
  { unfold count_prevalence_rate. cbn [mapM]. rewrite Hrow. reflexivity. }
  assert (Q2R (positive_count df condition) / IZR (len df) = IZR b)%R as Eb.
  { apply Qeq_eqR in Hall. rewrite Q2R_inject_Z, mult_IZR in Hall.
    rewrite Hall. field. lra. }
  split.
  - rewrite Eb. apply Rabs_self_rounding.
  - destruct Hb as [-> | ->]; cbn [Z.eqb].
    + rewrite El, H0; [apply Rabs_self_rounding|].
      rewrite Hall. reflexivity.
    + rewrite Eu, H1; [apply Rabs_self_rounding|].
      rewrite Hall, Z.mul_1_l. reflexivity.
Qed.

Lemma prevalence_interval_proper_witness :
  exists p lower upper : R,
    count_prevalence_rate z_quoted seven_ones ["c"%string]
    = Ok [mkPrev "c" (Fin p) (Fin lower) (Fin upper)]
    /\ (Rabs (p - IZR 1) <= rounding)%R
    /\ (Rabs ((if (1 =? 0)%Z then lower else upper) - IZR 1) <= rounding)%R.
Proof.
  apply (prevalence_interval_proper z_quoted seven_ones "c"%string 1).
  - unfold crit_range, z_quoted. lra.
  - reflexivity.
  - reflexivity.
  - now right.
  - reflexivity.
Defined.

(** ** [cramers_v]: the table counts every complete row once *)

Lemma unique_distinct (l : list cell) :
  ForallOrdPairs (fun a b => cell_same a b = false) (unique l).
Proof.
  induction l as [|a l IH]; simpl; constructor.
  - apply Forall_forall. intros b Hb. apply filter_In in Hb as [_ Hb].
    now apply negb_true_iff in Hb.
  - clear -IH. induction IH as [|b u Hb Hu IHu]; simpl; [constructor|].
    destruct (negb (cell_same a b)); [|exact IHu].
    constructor; [|exact IHu].
    rewrite Forall_forall in *. intros c Hc.
    apply filter_In in Hc as [Hc _]. auto.
Qed.

Lemma cell_eqb_same (a b : cell) : cell_eqb a b = true -> cell_same a b = true.
Proof. unfold cell_same. intros ->. apply orb_true_r. Qed.

Lemma cell_eqb_sym (a b : cell) : cell_eqb a b = cell_eqb b a.
Proof.
  destruct a as [q|s|], b as [q'|s'|]; simpl; try reflexivity.
  - apply eq_true_iff_eq. rewrite !Qeq_bool_iff. split; intros H; now symmetry.
  - apply String.eqb_sym.
Qed.

(** A present label has exactly one representative among distinct labels
    that cover it. *)
Lemma one_representative (U : list cell) (k : cell) :
  ForallOrdPairs (fun a b => cell_same a b = false) U ->
  (exists g, In g U /\ cell_eqb k g = true) ->
  Zsum (map (fun g => if cell_eqb k g then 1 else 0)%Z U) = 1%Z.
Proof.
  induction 1 as [|g U Hg HU IH]; intros (g' & Hin & Hk); [contradiction|].
  simpl. destruct (cell_eqb k g) eqn:E.
  - assert (Zsum (map (fun g0 => if cell_eqb k g0 then 1 else 0)%Z U) = 0%Z)
      as ->; [|reflexivity].
    clear IH Hin Hk g'. rewrite Forall_forall in Hg.
    induction U as [|h U IHU]; simpl; [reflexivity|].
    destruct (cell_eqb k h) eqn:Eh.
    + exfalso.
      assert (cell_same g h = true) as Hgh; [|rewrite Hg in Hgh; [discriminate | now left]].
      apply (cell_same_trans g k h); apply cell_eqb_same;
        [now rewrite cell_eqb_sym | exact Eh].
    + apply IHU; try (now inversion HU). intros; apply Hg; now right.
  - destruct Hin as [->|Hin]; [congruence|].
    rewrite IH; [reflexivity | eauto].
Qed.

Lemma Zsum_map_nth {A} (f : A -> Z) (l : list A) (d : A) :
  Zsum (map (fun i => f (nth i l d)) (seq 0 (List.length l)))
  = Zsum (map f l).
Proof.
  f_equal. rewrite <- (map_map (fun i => nth i l d) f). f_equal.
  apply nth_ext with (d := d) (d' := d).
  - now rewrite length_map, length_seq.
  - intros n Hn. rewrite length_map, length_seq in Hn.
    rewrite (nth_indep _ d (nth 0 l d)) by now rewrite length_map, length_seq.
    rewrite (map_nth (fun i => nth i l d) _ 0%nat).
    now rewrite seq_nth.
Qed.

Lemma Zsum_map_ext_in {A} (f g : A -> Z) (l : list A) :
  (forall a, In a l -> f a = g a) -> Zsum (map f l) = Zsum (map g l).
Proof. intros H. f_equal. now apply map_ext_in. Qed.

Lemma Zsum_const_zero {A} (l : list A) : Zsum (map (fun _ => 0%Z) l) = 0%Z.
Proof. induction l; simpl; [reflexivity | now rewrite IHl]. Qed.

Lemma count_pair_cons (p : cell * cell) (ps : list (cell * cell)) (a b : cell) :
  count_pair (p :: ps) a b
  = ((if cell_eqb (fst p) a && cell_eqb (snd p) b then 1 else 0)
     + count_pair ps a b)%Z.
Proof.
  unfold count_pair. simpl.
  destruct (cell_eqb (fst p) a && cell_eqb (snd p) b); simpl List.length; lia.
Qed.

Lemma count_pairs_total (R C : list cell) (ps : list (cell * cell)) :
  ForallOrdPairs (fun a b => cell_same a b = false) R ->
  ForallOrdPairs (fun a b => cell_same a b = false) C ->
  (forall p, In p ps ->
             (exists a, In a R /\ cell_eqb (fst p) a = true)
             /\ (exists b, In b C /\ cell_eqb (snd p) b = true)) ->
  Zsum (map (fun a => Zsum (map (fun b => count_pair ps a b) C)) R)
  = Z.of_nat (List.length ps).
Proof.
  intros HR HC. induction ps as [|p ps IH]; intros Hcov.
  - simpl. unfold count_pair. simpl.
    rewrite (Zsum_map_ext_in _ (fun _ => 0%Z)); [apply Zsum_const_zero|].
    intros a _. apply Zsum_const_zero.
  - destruct (Hcov p (or_introl eq_refl)) as [Ha Hb].
    rewrite (Zsum_map_ext_in _
               (fun a => ((if cell_eqb (fst p) a then 1 else 0)
                          + Zsum (map (fun b => count_pair ps a b) C))%Z)).
    + rewrite Zsum_add_map, IH by (intros; apply Hcov; now right).
      rewrite (one_representative R (fst p) HR Ha).
      simpl List.length. lia.
    + intros a _.
      rewrite (Zsum_map_ext_in _
                 (fun b => ((if cell_eqb (fst p) a && cell_eqb (snd p) b
                             then 1 else 0)
                            + count_pair ps a b)%Z))
        by (intros; apply count_pair_cons).
      rewrite Zsum_add_map. f_equal.
      destruct (cell_eqb (fst p) a); simpl.
      * apply (one_representative C (snd p) HC Hb).
      * apply Zsum_const_zero.
Qed.

Lemma crosstab_total_rows (x y : Series) :
  total (crosstab x y) = Z.of_nat (List.length (observed_pairs x y)).
Proof.
  unfold total, row_sum. rewrite crosstab_nrows, crosstab_ncols.
  rewrite (Zsum_map_ext_in _
             (fun i => Zsum (map (fun b => count_pair (observed_pairs x y)
                                              (nth i (row_labels x y) NA) b)
                                 (col_labels x y)))).
  - rewrite (Zsum_map_nth
               (fun a => Zsum (map (fun b => count_pair (observed_pairs x y) a b)
                                   (col_labels x y)))).
    apply count_pairs_total; try apply unique_distinct.
    intros p Hp. destruct (observed_pairs_notna x y p Hp) as [Hna Hnb].
    split.
    + destruct (unique_cover (fst p) (map fst (observed_pairs x y)))
        as (a & Ha & Hs); [now apply in_map|].
      exists a. split; [exact Ha | now apply cell_same_eqb].
    + destruct (unique_cover (snd p) (map snd (observed_pairs x y)))
        as (b & Hb & Hs); [now apply in_map|].
      exists b. split; [exact Hb | now apply cell_same_eqb].
  - intros i Hi. apply in_seq in Hi.
    rewrite <- (Zsum_map_nth
                  (fun b => count_pair (observed_pairs x y)
                              (nth i (row_labels x y) NA) b)
                  (col_labels x y) NA).
    apply Zsum_map_ext_in. intros j Hj. apply in_seq in Hj.
    apply crosstab_entry; lia.
Qed.

(** X20.  The [n] of [cramers_v] ([contingency_table.sum().sum()]) is the
    number of rows in which both series hold a value: rows with a missing
    entry on either side are left out, every other row is counted once. *)
Theorem cramers_v_n_counts_complete_rows (x y : Series) :
  sum_sum (crosstab x y) = Z.of_nat (List.length (observed_pairs x y))
  /\ (List.length (observed_pairs x y)
      <= Nat.min (List.length x) (List.length y))%nat.
Proof.
  split.
  - rewrite sum_sum_total. apply crosstab_total_rows.
  - unfold observed_pairs.
    pose proof (filter_length_le
                  (fun p : cell * cell => negb (isna (fst p)) && negb (isna (snd p)))
                  (combine x y)) as H.
    rewrite length_combine in H. exact H.
Qed.

(** ** [cramers_v]: the value is at most 1 *)

Lemma Qsum_le_map {A} (f g : A -> Q) (l : list A) :
  (forall a, In a l -> f a <= g a) -> Qsum (map f l) <= Qsum (map g l).
Proof.
  induction l as [|a l IH]; simpl; intros H; [apply Qle_refl|].
  pose proof (H a (or_introl eq_refl)).
  assert (Qsum (map f l) <= Qsum (map g l))
    by (apply IH; intros; apply H; now right).
  lra.
Qed.

Lemma Qsum_ext_in {A} (f g : A -> Q) (l : list A) :
  (forall a, In a l -> f a == g a) -> Qsum (map f l) == Qsum (map g l).
Proof.
  induction l as [|a l IH]; simpl; intros H; [reflexivity|].
  rewrite (H a (or_introl eq_refl)), IH; [reflexivity|].
  intros; apply H; now right.
Qed.

Lemma Qsum_scal {A} (c : Q) (f : A -> Q) (l : list A) :
  Qsum (map (fun a => c * f a) l) == c * Qsum (map f l).
Proof. induction l as [|a l IH]; simpl; [ring | rewrite IH; ring]. Qed.

Lemma Qsum_const {A} (c : Q) (l : list A) :
  Qsum (map (fun _ => c) l) == inject_Z (Z.of_nat (List.length l)) * c.
Proof.
  induction l as [|a l IH]; [simpl; ring|].
  simpl Qsum. rewrite IH. simpl List.length.
  rewrite Nat2Z.inj_succ, <- Z.add_1_r, inject_Z_plus.
  change (inject_Z 1) with 1. ring.
Qed.

Lemma Qsum_member_le {A} (f : A -> Q) (l : list A) (a : A) :
  (forall b, In b l -> 0 <= f b) -> In a l -> f a <= Qsum (map f l).
Proof.
  induction l as [|b l IH]; simpl; intros H Hin; [contradiction|].
  pose proof (H b (or_introl eq_refl)).
  assert (0 <= Qsum (map f l)).
  { apply Qsum_nonneg. intros q Hq. apply in_map_iff in Hq as (c & <- & Hc).
    apply H. now right. }
  destruct Hin as [->|Hin]; [lra|].
  assert (f a <= Qsum (map f l)) by (apply IH; auto). lra.
Qed.

Lemma inject_Z_Zsum {A} (f : A -> Z) (l : list A) :
  inject_Z (Zsum (map f l)) == Qsum (map (fun a => inject_Z (f a)) l).
Proof.
  induction l as [|a l IH]; simpl; [reflexivity|].
  rewrite inject_Z_plus, IH. reflexivity.
Qed.

Lemma pearson_term_le (o e r c n : Q) :
  0 <= o -> o <= c -> 0 < r -> 0 < c -> 0 < n -> e == r * c / n ->
  pearson_term o e <= (n / r) * o + (-2) * o + (r / n) * c.
Proof.
  intros Ho Hoc Hr Hc Hn He.
  assert (0 < e) as Hepos.
  { rewrite He. apply Qlt_shift_div_l; [exact Hn|]. nra. }
  unfold pearson_term. apply Qle_shift_div_r; [exact Hepos|].
  setoid_replace ((n / r * o + -2 * o + r / n * c) * e)
    with (o * c - 2 * o * e + e * e).
  - nra.
  - rewrite He. field. split; lra.
Qed.

(** Pearson's statistic of a table with positive margins is at most
    [n (r - 1)], [r] the number of rows. *)
Section PearsonBound.
Variables A B : Type.
Variable la : list A.
Variable lb : list B.
Variable O : A -> B -> Q.
Variable E : A -> B -> Q.
Variable Rs : A -> Q.
Variable Cs : B -> Q.
Variable n : Q.
Hypothesis O_nonneg : forall a b, In a la -> In b lb -> 0 <= O a b.
Hypothesis Rs_pos : forall a, In a la -> 0 < Rs a.
Hypothesis Cs_pos : forall b, In b lb -> 0 < Cs b.
Hypothesis n_pos : 0 < n.
Hypothesis row_sums : forall a, In a la -> Qsum (map (O a) lb) == Rs a.
Hypothesis col_sums :
  forall b, In b lb -> Qsum (map (fun a => O a b) la) == Cs b.
Hypothesis col_total : Qsum (map Cs lb) == n.
Hypothesis expected_eq :
  forall a b, In a la -> In b lb -> E a b == Rs a * Cs b / n.

Lemma pearson_row_le (a : A) :
  In a la ->
  Qsum (map (fun b => pearson_term (O a b) (E a b)) lb) <= n - Rs a.
Proof.
  intros Ha. pose proof (Rs_pos a Ha) as Hr.
  eapply Qle_trans.
  - apply (Qsum_le_map _
             (fun b => (n / Rs a) * O a b + ((-2) * O a b + (Rs a / n) * Cs b))).
    intros b Hb.
    rewrite Qplus_assoc.
    apply pearson_term_le; auto.
    rewrite <- (col_sums b Hb).
    apply (Qsum_member_le (fun a0 => O a0 b)); auto.
  - rewrite Qsum_add_map, Qsum_add_map, !Qsum_scal.
    rewrite (row_sums a Ha), col_total.
    apply Qle_lteq. right. field. split; lra.
Qed.

Lemma pearson_sum_le :
  Qsum (map (fun a => Qsum (map (fun b => pearson_term (O a b) (E a b)) lb))
            la)
  <= n * (inject_Z (Z.of_nat (List.length la)) - 1).
Proof.
  assert (Qsum (map Rs la) == n) as Hrows.
  { rewrite <- col_total.
    rewrite (Qsum_ext_in Rs (fun a => Qsum (map (O a) lb)))
      by (intros a Ha; symmetry; now apply row_sums).
    rewrite (Qsum_exchange O).
    apply Qsum_ext_in. intros b Hb. now apply col_sums. }
  eapply Qle_trans.
  - apply (Qsum_le_map _ (fun a => n + (-1) * Rs a)).
    intros a Ha. eapply Qle_trans; [now apply pearson_row_le|].
    apply Qle_lteq. right. ring.
  - rewrite Qsum_add_map, Qsum_scal, Qsum_const, Hrows.
    apply Qle_lteq. right. ring.
Qed.
End PearsonBound.

Lemma yates_term_le (o e : Q) :
  0 < e -> pearson_term (yates o e) e <= pearson_term o e.
Proof.
  intros He. unfold pearson_term, Qdiv.
  apply Qmult_le_compat_r; [|apply Qinv_le_0_compat; lra].
  unfold yates. set (d := e - o).
  set (m := Qmin2 (1 # 2) (Qabs d)).
  assert (0 <= m /\ m <= Qabs d) as [Hm0 Hm1].
  { subst m. unfold Qmin2. pose proof (Qabs_nonneg d).
    destruct (Qle_bool (1 # 2) (Qabs d)) eqn:Eb.
    - apply Qle_bool_iff in Eb. split; [discriminate | exact Eb].
    - split; [assumption | apply Qle_refl]. }
  unfold Qsgn. destruct (d ?= 0) eqn:Ec.
  - apply Qeq_alt in Ec. subst d. nra.
  - apply Qlt_alt in Ec.
    assert (Qabs d == - d) as Ha by (apply Qabs_neg; lra).
    rewrite Ha in Hm1. subst d. nra.
  - apply Qgt_alt in Ec.
    assert (Qabs d == d) as Ha by (apply Qabs_pos; lra).
    rewrite Ha in Hm1. subst d. nra.
Qed.

Lemma crosstab_pearson_le_rows (x y : Series) :
  (1 <= nrows (crosstab x y))%nat ->
  pearson_chi2 (crosstab x y)
  <= inject_Z (total (crosstab x y))
     * (inject_Z (Z.of_nat (nrows (crosstab x y))) - 1).
Proof.
  intros Hr.
  unfold pearson_chi2, chi2_sum.
  replace (Z.of_nat (nrows (crosstab x y)))
    with (Z.of_nat (List.length (seq 0 (nrows (crosstab x y)))))
    by now rewrite length_seq.
  apply (pearson_sum_le nat nat (seq 0 (nrows (crosstab x y))) (seq 0 (ncols (crosstab x y)))
           (fun i j => inject_Z (entry (crosstab x y) i j)) (expected (crosstab x y))
           (fun i => inject_Z (row_sum (crosstab x y) i))
           (fun j => inject_Z (col_sum (crosstab x y) j))).
  - intros i j Hi Hj. apply in_seq in Hi, Hj.
    change 0 with (inject_Z 0). rewrite <- Zle_Qle.
    apply crosstab_entry_nonneg; lia.
  - intros i Hi. apply in_seq in Hi.
    change 0 with (inject_Z 0). rewrite <- Zlt_Qlt.
    pose proof (crosstab_row_sum_pos x y i). lia.
  - intros j Hj. apply in_seq in Hj.
    change 0 with (inject_Z 0). rewrite <- Zlt_Qlt.
    pose proof (crosstab_col_sum_pos x y j). lia.
  - change 0 with (inject_Z 0). rewrite <- Zlt_Qlt.
    pose proof (crosstab_total_pos x y Hr). lia.
  - intros i _. symmetry. apply (inject_Z_Zsum (fun j => entry (crosstab x y) i j)).
  - intros j _. symmetry. apply (inject_Z_Zsum (fun i => entry (crosstab x y) i j)).
  - rewrite <- (inject_Z_Zsum (col_sum (crosstab x y))).
    fold (sum_sum (crosstab x y)). now rewrite sum_sum_total.
  - intros i j _ _. unfold expected. now rewrite inject_Z_mult.
Qed.

Lemma crosstab_chi2_value_le (x y : Series) :
  (2 <= nrows (crosstab x y))%nat -> (2 <= ncols (crosstab x y))%nat ->
  chi2_value (crosstab x y)
  <= inject_Z (total (crosstab x y)
               * (Z.min (Z.of_nat (nrows (crosstab x y)))
                        (Z.of_nat (ncols (crosstab x y))) - 1)).
Proof.
  intros Hr Hc.
  pose proof (crosstab_transposed x y) as HT.
  pose proof HT as (Hr' & Hc' & _).
  assert (pearson_chi2 (crosstab x y)
          <= inject_Z (total (crosstab x y)
                       * (Z.min (Z.of_nat (nrows (crosstab x y)))
                                (Z.of_nat (ncols (crosstab x y))) - 1)))
    as Hpearson.
  { rewrite inject_Z_mult.
    destruct (Z.min_spec (Z.of_nat (nrows (crosstab x y)))
                         (Z.of_nat (ncols (crosstab x y)))) as [[_ ->]|[_ ->]].
    - unfold Zminus. rewrite inject_Z_plus.
      apply crosstab_pearson_le_rows. lia.
    - unfold pearson_chi2.
      rewrite <- (chi2_sum_transposed _ _ HT (fun o _ => o)).
      rewrite <- (total_transposed _ _ HT), <- Hr'.
      unfold Zminus. rewrite inject_Z_plus.
      apply (crosstab_pearson_le_rows y x). lia. }
  unfold chi2_value.
  destruct (_ =? 0)%Z eqn:E0; [apply Z.eqb_eq in E0; nia|].
  destruct (_ =? 1)%Z; [|exact Hpearson].
  eapply Qle_trans; [|exact Hpearson].
  unfold pearson_chi2, chi2_sum.
  apply Qsum_le_map. intros i Hi. apply in_seq in Hi.
  apply Qsum_le_map. intros j Hj. apply in_seq in Hj.
  apply yates_term_le. apply crosstab_expected_pos; lia.
Qed.

Lemma cramers_v_range_exact (x y : Series) (v : R)
      (Hv : cramers_v x y = Ok (Fin v)) :
  (0 <= v <= 1)%R.
Proof.
  assert (1 <= nrows (crosstab x y))%nat as Hr.
  { destruct (nrows (crosstab x y)) eqn:E; [|lia].
    apply crosstab_no_pairs in E.
    rewrite (cramers_v_no_pairs x y E) in Hv. discriminate. }
  pose proof (crosstab_ncols_pos x y Hr) as Hc.
  destruct (Z.eq_dec (Z.min (Z.of_nat (nrows (crosstab x y)))
                            (Z.of_nat (ncols (crosstab x y)))) 1) as [E|E].
  { rewrite (cramers_v_nan_single x y E) in Hv. discriminate. }
  assert (2 <= nrows (crosstab x y))%nat as Hr2 by lia.
  assert (2 <= ncols (crosstab x y))%nat as Hc2 by lia.
  rewrite cramers_v_number in Hv by assumption. inversion Hv; subst v.
  split; [apply sqrt_pos|].
  rewrite <- sqrt_1. apply sqrt_le_1_alt.
  pose proof (crosstab_chi2_value_le x y Hr2 Hc2) as Hle.
  set (d := (total (crosstab x y)
             * (Z.min (Z.of_nat (nrows (crosstab x y)))
                      (Z.of_nat (ncols (crosstab x y))) - 1))%Z) in *.
  assert (0 < d)%Z as Hd.
  { pose proof (crosstab_total_pos x y Hr). subst d. nia. }
  assert (chi2_value (crosstab x y) / inject_Z d <= 1) as Hq.
  { apply Qle_shift_div_r.
    - change 0 with (inject_Z 0). rewrite <- Zlt_Qlt. exact Hd.
    - now rewrite Qmult_1_l. }
  apply Qle_Rle in Hq. replace (Q2R 1) with 1%R in Hq; [exact Hq|].
  unfold Q2R. simpl. lra.
Qed.

(** X21.  A number returned by [cramers_v] lies between 0 and 1, up to a
    rounding error of at most 1e-9 above 1: the statistic, Yates-corrected
    or not, is at most [n (min(r,k) - 1)] before rounding. *)
Theorem cramers_v_range (x y : Series) (v : R)
        (Hv : cramers_v x y = Ok (Fin v)) :
  (0 <= v <= 1 + rounding)%R.
Proof.
  pose proof (cramers_v_range_exact x y v Hv).
  pose proof rounding_nonneg. lra.
Qed.

Lemma cramers_v_range_witness : (0 <= 1 / 2 <= 1 + rounding)%R.
Proof.
  apply (cramers_v_range yes_no yes_no (1 / 2)%R).
  rewrite cramers_v_radicand_sqrt.
  match goal with
  | |- (q <- ?m ;; _) = _ =>
      let m' := eval vm_compute in m in change m with m'
  end.
  simpl. rewrite Q2R_quarter. do 2 f_equal.
  apply sqrt_lem_1; lra.
Defined.

(** ** [count_group_total_percentage]: sorting and grouping *)

Lemma insert_leb_perm {A} (leb : A -> A -> bool) (a : A) (l : list A) :
  Permutation (insert_leb leb a l) (a :: l).
Proof.
  induction l as [|b l IH]; simpl; [reflexivity|].
  destruct (leb a b); [reflexivity|].
  rewrite IH. apply perm_swap.
Qed.

Lemma sort_leb_perm {A} (leb : A -> A -> bool) (l : list A) :
  Permutation (sort_leb leb l) l.
Proof.
  induction l as [|a l IH]; simpl; [reflexivity|].
  rewrite insert_leb_perm. now constructor.
Qed.

Lemma insert_leb_sorted {A} (leb : A -> A -> bool) (a : A) (l : list A) :
  (forall x y, leb x y = false -> leb y x = true) ->
  Sorted (fun x y => leb x y = true) l ->
  Sorted (fun x y => leb x y = true) (insert_leb leb a l).
Proof.
  intros Htot. induction 1 as [|b l Hl IH Hb]; simpl.
  - repeat constructor.
  - destruct (leb a b) eqn:E.
    + constructor; [now constructor | now constructor].
    + constructor; [exact IH|].
      destruct Hb as [|c l Hbc]; simpl.
      * constructor. now apply Htot.
      * destruct (leb a c); constructor; [now apply Htot | exact Hbc].
Qed.

Lemma sort_leb_sorted {A} (leb : A -> A -> bool) (l : list A) :
  (forall x y, leb x y = false -> leb y x = true) ->
  Sorted (fun x y => leb x y = true) (sort_leb leb l).
Proof.
  intros Htot. induction l as [|a l IH]; simpl; [constructor|].
  now apply insert_leb_sorted.
Qed.

Lemma cell_leb_total (a b : cell) : cell_leb a b = false -> cell_leb b a = true.
Proof.
  destruct a as [x|s|], b as [y|t|]; simpl; try congruence.
  - intros H. apply Qle_bool_iff.
    destruct (Qlt_le_dec x y) as [Hlt|Hle].
    + apply Qlt_le_weak in Hlt. apply Qle_bool_iff in Hlt. congruence.
    + exact Hle.
  - intros H. destruct (String.leb_total s t) as [H'|H']; congruence.
Qed.

Lemma pair_leb_total (p q : cell * cell) :
  pair_leb p q = false -> pair_leb q p = true.
Proof.
  unfold pair_leb. rewrite (cell_eqb_sym (fst q)).
  destruct (cell_eqb (fst p) (fst q)); apply cell_leb_total.
Qed.

Lemma cell_eqb_trans (a b c : cell) :
  cell_eqb a b = true -> cell_eqb b c = true -> cell_eqb a c = true.
Proof.
  destruct a as [q|s|], b as [q'|s'|], c as [q''|s''|];
    simpl; try discriminate.
  - rewrite !Qeq_bool_iff. intros H1 H2. now rewrite H1.
  - rewrite !String.eqb_eq. congruence.
Qed.

Lemma cell_eqb_compat (x a b : cell) :
  cell_eqb a b = true -> cell_eqb x a = cell_eqb x b.
Proof.
  intros H. apply eq_true_iff_eq. split; intros Hx.
  - eapply cell_eqb_trans; eauto.
  - eapply cell_eqb_trans; [exact Hx|]. now rewrite cell_eqb_sym.
Qed.

Lemma cell_eqb_refl (a : cell) : isna a = false -> cell_eqb a a = true.
Proof.
  destruct a as [q|s|]; simpl; try discriminate; intros _.
  - now apply Qeq_bool_iff.
  - apply String.eqb_refl.
Qed.

Lemma pair_eqb_sym (p q : cell * cell) : pair_eqb p q = pair_eqb q p.
Proof.
  unfold pair_eqb. now rewrite (cell_eqb_sym (fst p)), (cell_eqb_sym (snd p)).
Qed.

Lemma pair_eqb_trans (p q r : cell * cell) :
  pair_eqb p q = true -> pair_eqb q r = true -> pair_eqb p r = true.
Proof.
  unfold pair_eqb. rewrite !andb_true_iff. intros [H1 H2] [H3 H4].
  split; eapply cell_eqb_trans; eauto.
Qed.

Lemma pair_eqb_refl (p : cell * cell) :
  isna (fst p) = false -> isna (snd p) = false -> pair_eqb p p = true.
Proof.
  intros H1 H2. unfold pair_eqb. now rewrite !cell_eqb_refl.
Qed.

Lemma unique_pairs_incl (p : cell * cell) (l : list (cell * cell)) :
  In p (unique_pairs l) -> In p l.
Proof.
  induction l as [|q l IH]; simpl; [trivial|].
  intros [->|H]; [now left|].
  apply filter_In in H as [H _]. right. auto.
Qed.

Lemma unique_pairs_distinct (l : list (cell * cell)) :
  ForallOrdPairs (fun p q => pair_eqb p q = false) (unique_pairs l).
Proof.
  induction l as [|a l IH]; simpl; constructor.
  - apply Forall_forall. intros b Hb. apply filter_In in Hb as [_ Hb].
    now apply negb_true_iff in Hb.
  - clear -IH. induction IH as [|b u Hb Hu IHu]; simpl; [constructor|].
    destruct (negb (pair_eqb a b)); [|exact IHu].
    constructor; [|exact IHu].
    rewrite Forall_forall in *. intros c Hc.
    apply filter_In in Hc as [Hc _]. auto.
Qed.

Lemma unique_pairs_cover (p : cell * cell) (l : list (cell * cell)) :
  pair_eqb p p = true -> In p l ->
  exists g, In g (unique_pairs l) /\ pair_eqb p g = true.
Proof.
  intros Hp. induction l as [|c l IH]; simpl; [contradiction|].
  intros [->|H].
  - exists p. split; [now left | exact Hp].
  - destruct (IH H) as (g & Hg & Hpg).
    destruct (pair_eqb c g) eqn:E.
    + exists c. split; [now left|].
      eapply pair_eqb_trans; [exact Hpg | now rewrite pair_eqb_sym].
    + exists g. split; [|exact Hpg]. right. apply filter_In.
      split; [exact Hg | now rewrite E].
Qed.

Lemma Zsum_perm (l l' : list Z) : Permutation l l' -> Zsum l = Zsum l'.
Proof.
  induction 1; simpl; try lia.
Qed.

Lemma Zsum_filter {A} (c : A -> bool) (f : A -> Z) (l : list A) :
  Zsum (map f (filter c l)) = Zsum (map (fun a => if c a then f a else 0%Z) l).
Proof.
  induction l as [|a l IH]; simpl; [reflexivity|].
  destruct (c a); simpl; rewrite IH; reflexivity.
Qed.

(** Among pairwise different keys, a pair of labels selects the one key
    that equals it. *)
Lemma one_key_selected (w : cell * cell -> Z) (U : list (cell * cell))
      (k g0 : cell * cell) :
  ForallOrdPairs (fun p q => pair_eqb p q = false) U ->
  In g0 U -> pair_eqb k g0 = true ->
  (forall g, pair_eqb k g = true -> w g = w g0) ->
  Zsum (map (fun g => if pair_eqb k g then w g else 0%Z) U) = w g0.
Proof.
  intros HU Hin Hk Hw. induction HU as [|g U Hg HU IH]; [contradiction|].
  simpl. destruct (pair_eqb k g) eqn:E.
  - rewrite (Hw g E).
    assert (Zsum (map (fun g1 => if pair_eqb k g1 then w g1 else 0%Z) U) = 0%Z)
      as ->; [|lia].
    rewrite (Zsum_map_ext_in _ (fun _ => 0%Z)); [apply Zsum_const_zero|].
    intros h Hh. destruct (pair_eqb k h) eqn:Eh; [|reflexivity].
    rewrite Forall_forall in Hg. specialize (Hg h Hh).
    assert (pair_eqb g h = true); [|congruence].
    eapply pair_eqb_trans; [|exact Eh]. now rewrite pair_eqb_sym.
  - destruct Hin as [->|Hin]; [congruence|]. rewrite (IH Hin). lia.
Qed.

(** Every pair is counted under exactly one key: the sizes of the groups
    a predicate on keys selects add up to the number of pairs it holds
    for. *)
Lemma group_sizes_add_up (c : cell * cell -> bool) (U l : list (cell * cell)) :
  ForallOrdPairs (fun p q => pair_eqb p q = false) U ->
  (forall p, In p l -> exists g, In g U /\ pair_eqb p g = true) ->
  (forall p g, pair_eqb p g = true -> c g = c p) ->
  Zsum (map (fun g => if c g then count_pair l (fst g) (snd g) else 0%Z) U)
  = Z.of_nat (List.length (filter c l)).
Proof.
  intros HU Hcov Hc. induction l as [|p l IH].
  - simpl. unfold count_pair. simpl.
    rewrite (Zsum_map_ext_in _ (fun _ => 0%Z)); [apply Zsum_const_zero|].
    intros g _. now destruct (c g).
  - destruct (Hcov p (or_introl eq_refl)) as (g0 & Hg0 & Hpg0).
    rewrite (Zsum_map_ext_in _
               (fun g => ((if pair_eqb p g then (if c g then 1 else 0) else 0)
                          + (if c g then count_pair l (fst g) (snd g) else 0))%Z)).
    + rewrite Zsum_add_map, IH by (intros; apply Hcov; now right).
      rewrite (one_key_selected (fun g => if c g then 1 else 0)%Z U p g0 HU Hg0 Hpg0).
      * rewrite (Hc p g0 Hpg0). simpl. destruct (c p); simpl List.length; lia.
      * intros g Hg. now rewrite (Hc p g Hg), (Hc p g0 Hpg0).
    + intros g _. rewrite count_pair_cons.
      change (cell_eqb (fst p) (fst g) && cell_eqb (snd p) (snd g))
        with (pair_eqb p g).
      destruct (c g), (pair_eqb p g); lia.
Qed.

(** ** [count_group_total_percentage]: how a call unfolds *)

Lemma combine_map {A B C} (f : A -> B) (g : A -> C) (l : list A) :
  combine (map f l) (map g l) = map (fun x => (f x, g x)) l.
Proof. induction l as [|a l IH]; simpl; [reflexivity | now rewrite IH]. Qed.

Lemma nodup_names_3 (a b c : string) :
  nodup_names [a; b; c]
  = negb (String.eqb b a || false)
    && (negb (String.eqb c a || (String.eqb c b || false)) && true).
Proof. reflexivity. Qed.

Lemma nodup_names_4 (a b c d : string) :
  nodup_names [a; b; c; d]
  = negb (String.eqb b a || false)
    && (negb (String.eqb c a || (String.eqb c b || false))
        && (negb (String.eqb d a || (String.eqb d b || (String.eqb d c || false)))
            && true)).
Proof. reflexivity. Qed.

Lemma group_percentage_Ok_inv (df : DataFrame) (feature_1 feature_2 : string)
      (out : DataFrame) :
  count_group_total_percentage df feature_1 feature_2 = Ok out ->
  exists sizes,
    group_sizes df feature_1 feature_2 = Ok sizes
    /\ String.eqb feature_2 feature_1 = false
    /\ String.eqb "count" feature_1 = false
    /\ String.eqb "count" feature_2 = false
    /\ String.eqb "total" feature_1 = false
    /\ String.eqb "total" feature_2 = false
    /\ out = set_column
               (mkDF [feature_1; feature_2; "count"; "total"]%string
                     (map (fun ig =>
                             mkRow (Z.of_nat (fst ig))
                                   [key1 (snd ig); key2 (snd ig);
                                    Num (inject_Z (size (snd ig)));
                                    merge_total (key1 (snd ig))
                                                (group_totals sizes)])
                          (enumerate sizes)))
               "percentage"
               (map (fun ig =>
                       round1_cell
                         (times_100
                            (div_cell (Num (inject_Z (size (snd ig))))
                                      (merge_total (key1 (snd ig))
                                                   (group_totals sizes)))))
                    (enumerate sizes)).
Proof.
  unfold count_group_total_percentage. intros H.
  apply bind_Ok_inv in H as (sizes & Hs & H). exists sizes.
  split; [exact Hs|].
  rewrite nodup_names_3 in H.
  destruct (String.eqb feature_2 feature_1) eqn:E21; [discriminate H|].
  destruct (String.eqb "count" feature_1) eqn:Ec1; [discriminate H|].
  destruct (String.eqb "count" feature_2) eqn:Ec2; [discriminate H|].
  cbn [negb orb andb] in H.
  destruct (String.eqb feature_1 "total") eqn:E1t; [discriminate H|].
  destruct (String.eqb feature_2 "total") eqn:E2t; [discriminate H|].
  rewrite String.eqb_sym in E1t. rewrite String.eqb_sym in E2t.
  repeat (split; [reflexivity || assumption|]).
  unfold getitem in H. cbn [columns index_of rows] in H.
  rewrite Ec1, Ec2, E1t, E2t in H.
  change (String.eqb "count" "count") with true in H.
  change (String.eqb "total" "count") with false in H.
  change (String.eqb "total" "total") with true in H.
  cbn [option_map bind] in H.
  inversion H as [Hout]. clear H. f_equal.
  rewrite !map_map. rewrite combine_map, map_map. reflexivity.
Qed.

Lemma Forall2_map_enumerate {A B} (P : A -> B -> Prop) (F : nat * A -> B)
      (l : list A) :
  (forall ig, P (snd ig) (F ig)) -> Forall2 P l (map F (enumerate l)).
Proof.
  intros H. unfold enumerate. generalize 0%nat.
  induction l as [|a l IH]; intros s; simpl; constructor.
  - apply (H (s, a)).
  - apply IH.
Qed.

Lemma map_fst_enumerate {A} (l : list A) :
  map fst (enumerate l) = seq 0 (List.length l).
Proof.
  unfold enumerate. generalize 0%nat.
  induction l as [|a l IH]; intros s; simpl; [reflexivity | now rewrite IH].
Qed.

(** What the rows of the result hold, group by group. *)
Lemma group_percentage_rows (df : DataFrame) (feature_1 feature_2 : string)
      (out : DataFrame) :
  count_group_total_percentage df feature_1 feature_2 = Ok out ->
  exists sizes,
    group_sizes df feature_1 feature_2 = Ok sizes
    /\ map label (rows out) = map Z.of_nat (seq 0 (List.length sizes))
    /\ Forall2
         (fun g r =>
            value_at out "count" r = Num (inject_Z (size g))
            /\ value_at out "total" r
               = merge_total (key1 g) (group_totals sizes)
            /\ value_at out "percentage" r
               = round1_cell
                   (times_100
                      (div_cell (Num (inject_Z (size g)))
                                (merge_total (key1 g) (group_totals sizes))))
            /\ (String.eqb "percentage" feature_1 = false ->
                value_at out feature_1 r = key1 g)
            /\ (String.eqb "percentage" feature_1 = false ->
                String.eqb "percentage" feature_2 = false ->
                value_at out feature_2 r = key2 g))
         sizes (rows out).
Proof.
  intros H.
  apply group_percentage_Ok_inv in H
    as (sizes & Hs & E21 & Ec1 & Ec2 & Et1 & Et2 & ->).
  exists sizes. split; [exact Hs|].
  assert (String.eqb feature_1 feature_1 = true) as E11
      by apply String.eqb_refl.
  assert (String.eqb feature_2 feature_2 = true) as E22
      by apply String.eqb_refl.
  unfold set_column. cbn [columns rows index_of].
  rewrite combine_map, map_map.
  change (String.eqb "percentage" "count") with false.
  change (String.eqb "percentage" "total") with false.
  destruct (String.eqb "percentage" feature_1) eqn:Ep1;
    [|destruct (String.eqb "percentage" feature_2) eqn:Ep2];
    cbn [option_map rows columns fst snd label cells set_nth app].
  - split.
    + rewrite <- map_fst_enumerate, !map_map. apply map_ext. reflexivity.
    + rewrite ?map_map. apply Forall2_map_enumerate. intros ig.
      unfold value_at, at_col. cbn [columns index_of cells fst snd set_nth].
      rewrite Ec1, Ec2, Et1, Et2, Ep1.
      change (String.eqb "count" "count") with true.
      change (String.eqb "total" "count") with false.
      change (String.eqb "total" "total") with true.
      cbn [option_map nth]. repeat split; discriminate.
  - split.
    + rewrite <- map_fst_enumerate, !map_map. apply map_ext. reflexivity.
    + rewrite ?map_map. apply Forall2_map_enumerate. intros ig.
      unfold value_at, at_col. cbn [columns index_of cells fst snd set_nth].
      rewrite Ec1, Ec2, Et1, Et2, Ep1, Ep2, E11.
      change (String.eqb "count" "count") with true.
      change (String.eqb "total" "count") with false.
      change (String.eqb "total" "total") with true.
      cbn [option_map nth]. repeat split; discriminate.
  - split.
    + rewrite <- map_fst_enumerate, !map_map. apply map_ext. reflexivity.
    + rewrite ?map_map. apply Forall2_map_enumerate. intros ig.
      unfold value_at, at_col. cbn [columns index_of cells app fst snd].
      rewrite Ec1, Ec2, Et1, Et2, Ep1, Ep2, E11, E21, E22.
      change (String.eqb "count" "count") with true.
      change (String.eqb "total" "count") with false.
      change (String.eqb "total" "total") with true.
      change (String.eqb "percentage" "count") with false.
      change (String.eqb "percentage" "total") with false.
      change (String.eqb "percentage" "percentage") with true.
      cbn [option_map nth]. repeat split; reflexivity.
Qed.

(** ** [count_group_total_percentage]: sizes and totals of the groups *)

Lemma group_sizes_Ok_inv (df : DataFrame) (feature_1 feature_2 : string)
      (sizes : list GroupSize) :
  group_sizes df feature_1 feature_2 = Ok sizes ->
  sizes = groupby_size (complete_pairs df feature_1 feature_2)
  /\ has_column df feature_1 = true /\ has_column df feature_2 = true.
Proof.
  unfold group_sizes, complete_pairs, has_column, getitem.
  destruct (index_of feature_1 (columns df)); [|discriminate].
  destruct (index_of feature_2 (columns df)); [|discriminate].
  cbn [bind]. intros H; inversion H. auto.
Qed.

Lemma complete_pairs_notna (df : DataFrame) (feature_1 feature_2 : string)
      (p : cell * cell) :
  In p (complete_pairs df feature_1 feature_2) ->
  isna (fst p) = false /\ isna (snd p) = false.
Proof.
  unfold complete_pairs.
  destruct (getitem df feature_1) as [x|]; [|contradiction].
  destruct (getitem df feature_2) as [y|]; [|contradiction].
  apply observed_pairs_notna.
Qed.

Section GroupSizes.
Variable ps : list (cell * cell).
Hypothesis ps_notna :
  forall p, In p ps -> isna (fst p) = false /\ isna (snd p) = false.

Lemma groupby_size_In (g : GroupSize) :
  In g (groupby_size ps) ->
  In (key1 g, key2 g) ps
  /\ size g = count_pair ps (key1 g) (key2 g).
Proof.
  unfold groupby_size. intros H. apply in_map_iff in H as (u & <- & Hu).
  apply (Permutation_in _ (sort_leb_perm pair_leb _)) in Hu.
  apply unique_pairs_incl in Hu. destruct u as [a b]. simpl. auto.
Qed.

Lemma count_pair_by_key (a b : cell) :
  count_pair ps a b
  = Z.of_nat (List.length (filter (fun p => pair_eqb p (a, b)) ps)).
Proof. reflexivity. Qed.

Lemma filter_length_le {A} (P Q : A -> bool) (l : list A) :
  (forall a, P a = true -> Q a = true) ->
  (List.length (filter P l) <= List.length (filter Q l))%nat.
Proof.
  intros H. induction l as [|a l IH]; simpl; [lia|].
  destruct (P a) eqn:E.
  - rewrite (H a E). simpl. lia.
  - destruct (Q a); simpl; lia.
Qed.

Lemma filter_length_pos {A} (P : A -> bool) (l : list A) (a : A) :
  In a l -> P a = true -> (1 <= List.length (filter P l))%nat.
Proof.
  intros Hin HP.
  assert (In a (filter P l)) as H by (apply filter_In; auto).
  destruct (filter P l); [contradiction | simpl; lia].
Qed.

(** The sizes of the groups selected by a predicate on keys add up to the
    number of pairs the predicate holds for. *)
Lemma groupby_size_add_up (c : cell * cell -> bool) :
  (forall p g, pair_eqb p g = true -> c g = c p) ->
  Zsum (map (fun g => if c (key1 g, key2 g) then size g else 0%Z)
            (groupby_size ps))
  = Z.of_nat (List.length (filter c ps)).
Proof.
  intros Hc. unfold groupby_size. rewrite map_map. cbn [key1 key2 size].
  rewrite (Zsum_perm _ (map (fun g => if c (fst g, snd g)
                                      then count_pair ps (fst g) (snd g)
                                      else 0%Z)
                            (unique_pairs ps)))
    by (apply Permutation_map, sort_leb_perm).
  rewrite (Zsum_map_ext_in _
             (fun g => if c g then count_pair ps (fst g) (snd g) else 0%Z))
    by (intros [a b] _; reflexivity).
  apply group_sizes_add_up.
  - apply unique_pairs_distinct.
  - intros p Hp. apply unique_pairs_cover; [|exact Hp].
    destruct (ps_notna p Hp). now apply pair_eqb_refl.
  - exact Hc.
Qed.

Lemma first_key_compat (a : cell) (p g : cell * cell) :
  pair_eqb p g = true -> cell_eqb (fst g) a = cell_eqb (fst p) a.
Proof.
  unfold pair_eqb. intros H. apply andb_true_iff in H as [H _].
  rewrite (cell_eqb_sym (fst g)), (cell_eqb_sym (fst p)).
  symmetry. now apply cell_eqb_compat.
Qed.

(** The total of a key of the first level: the number of pairs under it. *)
Lemma group_total_value (a : cell) :
  Zsum (map size (filter (fun g => cell_eqb (key1 g) a) (groupby_size ps)))
  = Z.of_nat (List.length (filter (fun p => cell_eqb (fst p) a) ps)).
Proof.
  rewrite Zsum_filter.
  apply (groupby_size_add_up (fun p => cell_eqb (fst p) a)).
  intros p g. apply first_key_compat.
Qed.

Lemma merge_total_found (T : cell -> Z) (K : list cell) (a : cell) :
  (exists a', In a' K /\ cell_eqb a a' = true) ->
  (forall a', cell_eqb a a' = true -> T a' = T a) ->
  merge_total a (map (fun a' => (a', T a')) K) = Num (inject_Z (T a)).
Proof.
  intros (a0 & Hin & Ha) HT. induction K as [|k K IH]; [contradiction|].
  simpl. destruct (cell_eqb a k) eqn:E.
  - now rewrite (HT k E).
  - destruct Hin as [->|Hin]; [congruence | auto].
Qed.

(** The left merge finds a total for every row of [count_data]. *)
Lemma merge_total_value (g : GroupSize) :
  In g (groupby_size ps) ->
  merge_total (key1 g) (group_totals (groupby_size ps))
  = Num (inject_Z
           (Z.of_nat (List.length
                        (filter (fun p => cell_eqb (fst p) (key1 g)) ps)))).
Proof.
  intros Hg. unfold group_totals.
  rewrite (merge_total_found
             (fun a => Zsum (map size (filter (fun g0 => cell_eqb (key1 g0) a)
                                              (groupby_size ps))))).
  - now rewrite group_total_value.
  - destruct (groupby_size_In g Hg) as [Hin _].
    destruct (ps_notna _ Hin) as [Hna _]. simpl in Hna.
    destruct (unique_cover (key1 g) (map key1 (groupby_size ps)))
      as (b & Hb & Hsame); [now apply in_map|].
    exists b. split.
    + apply (Permutation_in _ (Permutation_sym (sort_leb_perm cell_leb _))).
      exact Hb.
    + unfold cell_same in Hsame. rewrite Hna, andb_false_r in Hsame.
      simpl in Hsame. now rewrite cell_eqb_sym.
  - intros a' Ha'. rewrite !group_total_value. do 2 f_equal.
    apply filter_ext. intros p. symmetry. now apply cell_eqb_compat.
Qed.

Lemma groupby_size_bounds (g : GroupSize) :
  In g (groupby_size ps) ->
  (1 <= size g
   <= Z.of_nat (List.length
                  (filter (fun p => cell_eqb (fst p) (key1 g)) ps)))%Z.
Proof.
  intros Hg. destruct (groupby_size_In g Hg) as [Hin ->].
  rewrite count_pair_by_key. split.
  - destruct (ps_notna _ Hin) as [H1 H2].
    pose proof (filter_length_pos (fun p => pair_eqb p (key1 g, key2 g))
                                  ps _ Hin (pair_eqb_refl _ H1 H2)).
    lia.
  - apply inj_le. apply filter_length_le. intros p Hp.
    unfold pair_eqb in Hp. apply andb_true_iff in Hp as [Hp _]. exact Hp.
Qed.

Lemma groupby_size_sum :
  Zsum (map size (groupby_size ps)) = Z.of_nat (List.length ps).
Proof.
  rewrite <- (filter_true ps) at 2.
  rewrite <- (groupby_size_add_up (fun _ => true)) by reflexivity.
  reflexivity.
Qed.

End GroupSizes.

(** ** [count_group_total_percentage]: rounding to one decimal *)

Lemma round_half_even_near (t : Q) :
  - (1 # 2) <= inject_Z (round_half_even t) - t <= 1 # 2.
Proof.
  unfold round_half_even.
  pose proof (Qfloor_le t) as Hlo. pose proof (Qlt_floor t) as Hhi.
  rewrite inject_Z_plus in Hhi. change (inject_Z 1) with 1 in Hhi.
  destruct (Qcompare (t - inject_Z (Qfloor t)) (1 # 2)) eqn:E.
  - apply Qeq_alt in E.
    destruct (Z.even (Qfloor t));
      [|rewrite inject_Z_plus; change (inject_Z 1) with 1]; lra.
  - apply Qlt_alt in E. lra.
  - apply Qgt_alt in E. rewrite inject_Z_plus. change (inject_Z 1) with 1. lra.
Qed.

Lemma round_half_even_range (t : Q) (lo hi : Z) :
  inject_Z lo <= t <= inject_Z hi -> (lo <= round_half_even t <= hi)%Z.
Proof.
  intros [Hlo Hhi]. unfold round_half_even.
  pose proof (Qfloor_le t) as Hf. pose proof (Qlt_floor t) as Hf'.
  assert (lo <= Qfloor t)%Z as H1.
  { apply Z.lt_succ_r. rewrite Zlt_Qlt. unfold Z.succ. lra. }
  assert (Qfloor t <= hi)%Z as H2 by (rewrite Zle_Qle; lra).
  destruct (Qcompare (t - inject_Z (Qfloor t)) (1 # 2)) eqn:E.
  - apply Qeq_alt in E. destruct (Z.even (Qfloor t)); [lia|].
    split; [lia|]. apply Z.lt_succ_r. unfold Z.succ.
    apply Z.add_lt_mono_r. rewrite Zlt_Qlt. lra.
  - lia.
  - apply Qgt_alt in E. split; [lia|]. apply Z.lt_succ_r. unfold Z.succ.
    apply Z.add_lt_mono_r. rewrite Zlt_Qlt. lra.
Qed.

Lemma round1_near (q : Q) : Qabs (round1 q - q) <= 1 # 20.
Proof.
  unfold round1. pose proof (round_half_even_near (q * inject_Z 10)) as H.
  apply Qabs_Qle_condition.
  set (r := inject_Z (round_half_even (q * inject_Z 10))) in *.
  change (inject_Z 10) with 10 in *.
  assert (r / 10 == r * (1 # 10)) as -> by (field).
  lra.
Qed.

Lemma round1_range (q : Q) :
  0 <= q <= 100 -> 0 <= round1 q <= 100.
Proof.
  intros Hq. unfold round1.
  pose proof (round_half_even_range (q * inject_Z 10) 0 1000) as H.
  change (inject_Z 10) with 10 in *.
  change (inject_Z 0) with 0 in H. change (inject_Z 1000) with 1000 in H.
  destruct H as [H1 H2]; [lra|].
  rewrite Zle_Qle in H1, H2.
  change (inject_Z 0) with 0 in H1. change (inject_Z 1000) with 1000 in H2.
  set (r := inject_Z (round_half_even (q * 10))) in *.
  assert (r / 10 == r * (1 # 10)) as -> by (field).
  lra.
Qed.

(** ** [count_group_total_percentage]: when it returns *)

(** X22.  [count_group_total_percentage] returns exactly when the frame has
    both columns and the four names [feature_1], [feature_2], [count] and
    [total] are pairwise different; in every other case it raises. *)
Theorem group_percentage_returns_iff (df : DataFrame)
        (feature_1 feature_2 : string) :
  returns (count_group_total_percentage df feature_1 feature_2)
  <-> has_column df feature_1 = true
      /\ has_column df feature_2 = true
      /\ nodup_names [feature_1; feature_2; "count"; "total"]%string = true.
Proof.
  split.
  - intros [out H].
    apply group_percentage_Ok_inv in H
      as (sizes & Hs & E21 & Ec1 & Ec2 & Et1 & Et2 & _).
    apply group_sizes_Ok_inv in Hs as (_ & H1 & H2).
    repeat split; try assumption.
    rewrite nodup_names_4, E21, Ec1, Ec2, Et1, Et2. reflexivity.
  - intros (H1 & H2 & Hn).
    rewrite nodup_names_4 in Hn.
    destruct (String.eqb feature_2 feature_1) eqn:E21; [discriminate Hn|].
    destruct (String.eqb "count" feature_1) eqn:Ec1; [discriminate Hn|].
    destruct (String.eqb "count" feature_2) eqn:Ec2; [discriminate Hn|].
    destruct (String.eqb "total" feature_1) eqn:Et1; [discriminate Hn|].
    destruct (String.eqb "total" feature_2) eqn:Et2; [discriminate Hn|].
    apply has_column_getitem in H1 as [x Hx].
    apply has_column_getitem in H2 as [y Hy].
    unfold count_group_total_percentage, group_sizes.
    rewrite Hx, Hy. cbn [bind].
    rewrite nodup_names_3, E21, Ec1, Ec2.
    rewrite (String.eqb_sym feature_1), (String.eqb_sym feature_2), Et1, Et2.
    cbn [negb orb andb].
    unfold getitem. cbn [columns index_of].
    rewrite Ec1, Ec2, Et1, Et2.
    change (String.eqb "count" "count") with true.
    change (String.eqb "total" "count") with false.
    change (String.eqb "total" "total") with true.
    cbn [option_map bind]. eexists. reflexivity.
Qed.

(** ** [count_group_total_percentage]: counts, totals and percentages *)

Lemma Forall2_Forall_r {A B} (P : A -> B -> Prop) (Q : B -> Prop)
      (l : list A) (l' : list B) :
  Forall2 P l l' ->
  (forall a b, In a l -> P a b -> Q b) ->
  Forall Q l'.
Proof.
  induction 1 as [|a b l l' Hab Hl IH]; intros HQ; constructor.
  - apply (HQ a b); [now left | exact Hab].
  - apply IH. intros a' b' Ha'. apply HQ. now right.
Qed.

Lemma Forall2_map_eq {A B C} (f : A -> C) (g : B -> C)
      (l : list A) (l' : list B) :
  Forall2 (fun a b => f a = g b) l l' -> map f l = map g l'.
Proof. induction 1; simpl; congruence. Qed.

Lemma Forall2_weaken {A B} (P Q : A -> B -> Prop) (l : list A) (l' : list B) :
  (forall a b, P a b -> Q a b) -> Forall2 P l l' -> Forall2 Q l l'.
Proof. intros H. induction 1; constructor; auto. Qed.

(** X23.  When neither key column is of category dtype, in every row of
    the result the count is at least 1 and at most the total, and the
    percentage is a number between 0 and 100 within 0.05 (and a rounding
    error of at most 1e-9) of 100 * count / total. *)
Theorem group_percentage_row_bounds (tf : TypedFrame)
        (feature_1 feature_2 : string) (out : DataFrame) :
  category_key tf feature_1 = false ->
  category_key tf feature_2 = false ->
  count_group_total_percentage (frame tf) feature_1 feature_2 = Ok out ->
  Forall (fun r =>
            exists (c t : Z) (p : Q),
              value_at out "count" r = Num (inject_Z c)
              /\ value_at out "total" r = Num (inject_Z t)
              /\ value_at out "percentage" r = Num p
              /\ (1 <= c <= t)%Z
              /\ Qabs (p - inject_Z 100 * inject_Z c / inject_Z t)
                 <= (1 # 20) + (1 # 1000000000)
              /\ 0 <= p <= 100)
         (rows out).
Proof.
  intros _ _ H. set (df := frame tf) in *.
  apply group_percentage_rows in H as (sizes & Hs & _ & Hrows).
  apply group_sizes_Ok_inv in Hs as (-> & _ & _).
  pose proof (complete_pairs_notna df feature_1 feature_2) as Hna.
  eapply Forall2_Forall_r; [exact Hrows|].
  intros g r Hg (Hc & Ht & Hp & _). cbv beta in *.
  rewrite (merge_total_value _ Hna g Hg) in Ht, Hp.
  pose proof (groupby_size_bounds _ Hna g Hg) as Hb.
  set (t := Z.of_nat _) in *.
  exists (size g), t. eexists. split; [exact Hc|]. split; [exact Ht|].
  assert (0 < inject_Z t) as Ht0.
  { change 0 with (inject_Z 0). rewrite <- Zlt_Qlt. lia. }
  assert (inject_Z (size g) <= inject_Z t) as Hct
      by (rewrite <- Zle_Qle; lia).
  assert (0 <= inject_Z (size g)) as Hc0.
  { change 0 with (inject_Z 0). rewrite <- Zle_Qle. lia. }
  cbn [div_cell] in Hp.
  destruct (Qeq_bool (inject_Z t) 0) eqn:E.
  { apply Qeq_bool_iff in E. lra. }
  cbn [times_100 round1_cell] in Hp.
  split; [exact Hp|]. split; [exact Hb|].
  assert (0 <= inject_Z (size g) / inject_Z t <= 1) as Hq.
  { split.
    - apply Qle_shift_div_l; [exact Ht0 | lra].
    - apply Qle_shift_div_r; [exact Ht0 | lra]. }
  split.
  - assert (inject_Z 100 * inject_Z (size g) / inject_Z t
            == inject_Z (size g) / inject_Z t * inject_Z 100) as ->
        by (field; lra).
    eapply Qle_trans; [apply round1_near|].
    apply Qle_bool_iff. reflexivity.
  - apply round1_range. change (inject_Z 100) with 100. lra.
Qed.

Lemma group_percentage_row_bounds_witness :
  Forall (fun r =>
            exists (c t : Z) (p : Q),
              value_at two_keys_result "count" r = Num (inject_Z c)
              /\ value_at two_keys_result "total" r = Num (inject_Z t)
              /\ value_at two_keys_result "percentage" r = Num p
              /\ (1 <= c <= t)%Z
              /\ Qabs (p - inject_Z 100 * inject_Z c / inject_Z t)
                 <= (1 # 20) + (1 # 1000000000)
              /\ 0 <= p <= 100)
         (rows two_keys_result).
Proof.
  apply (group_percentage_row_bounds two_keys_typed "f" "g").
  - reflexivity.
  - reflexivity.
  - vm_compute. reflexivity.
Defined.

(** X24.  The counts of the result add up to the number of rows of the
    frame that have both keys: each such row is counted in one group, a
    row with a missing key in none. *)
Theorem group_percentage_counts_add_up (df : DataFrame)
        (feature_1 feature_2 : string) (out : DataFrame) :
  count_group_total_percentage df feature_1 feature_2 = Ok out ->
  Qsum (map (number_at out "count") (rows out))
  == inject_Z (Z.of_nat (List.length
                           (complete_pairs df feature_1 feature_2))).
Proof.
  intros H. apply group_percentage_rows in H as (sizes & Hs & _ & Hrows).
  apply group_sizes_Ok_inv in Hs as (-> & _ & _).
  pose proof (complete_pairs_notna df feature_1 feature_2) as Hna.
  rewrite <- (groupby_size_sum _ Hna), inject_Z_Zsum.
  assert (map (fun g => inject_Z (size g))
              (groupby_size (complete_pairs df feature_1 feature_2))
          = map (number_at out "count") (rows out)) as ->; [|reflexivity].
  apply Forall2_map_eq. eapply Forall2_weaken; [|exact Hrows].
  intros g r (Hc & _). unfold number_at. now rewrite Hc.
Qed.

Lemma group_percentage_counts_add_up_witness :
  Qsum (map (number_at two_keys_result "count") (rows two_keys_result))
  == inject_Z (Z.of_nat (List.length (complete_pairs two_keys "f" "g"))).
Proof.
  apply (group_percentage_counts_add_up two_keys "f" "g").
  vm_compute. reflexivity.
Defined.

Lemma Forall2_filter_sum (k : Row -> cell) (n : Row -> Q)
      (l : list GroupSize) (l' : list Row) (a : cell) :
  Forall2 (fun g r => k r = key1 g /\ n r = inject_Z (size g)) l l' ->
  Qsum (map n (filter (fun r => cell_eqb (k r) a) l'))
  == inject_Z (Zsum (map size (filter (fun g => cell_eqb (key1 g) a) l))).
Proof.
  induction 1 as [|g r l l' [Hk Hn] Hl IH]; simpl; [reflexivity|].
  rewrite Hk. destruct (cell_eqb (key1 g) a); simpl; [|exact IH].
  rewrite inject_Z_plus, IH, Hn. reflexivity.
Qed.

(** X25.  The total of a row is the number of rows of the frame that carry
    the row's first key and have a second key, and it is the sum of the
    counts of the rows of the result with that first key. *)
Theorem group_percentage_totals (df : DataFrame)
        (feature_1 feature_2 : string) (out : DataFrame) :
  count_group_total_percentage df feature_1 feature_2 = Ok out ->
  feature_1 <> "percentage"%string ->
  Forall (fun r =>
            exists t : Z,
              value_at out "total" r = Num (inject_Z t)
              /\ t = Z.of_nat
                       (List.length
                          (filter (fun p => cell_eqb (fst p)
                                                     (value_at out feature_1 r))
                                  (complete_pairs df feature_1 feature_2)))
              /\ Qsum (map (number_at out "count")
                           (filter (fun r' =>
                                      cell_eqb (value_at out feature_1 r')
                                               (value_at out feature_1 r))
                                   (rows out)))
                 == inject_Z t)
         (rows out).
Proof.
  intros H Hne. apply group_percentage_rows in H as (sizes & Hs & _ & Hrows).
  apply group_sizes_Ok_inv in Hs as (-> & _ & _).
  pose proof (complete_pairs_notna df feature_1 feature_2) as Hna.
  assert (String.eqb "percentage" feature_1 = false) as Ep1.
  { apply String.eqb_neq. congruence. }
  assert (Forall2 (fun g r => value_at out feature_1 r = key1 g
                              /\ number_at out "count" r = inject_Z (size g))
                  (groupby_size (complete_pairs df feature_1 feature_2))
                  (rows out)) as Hkeys.
  { eapply Forall2_weaken; [|exact Hrows].
    intros g r (Hc & _ & _ & Hk & _). split; [auto|].
    unfold number_at. now rewrite Hc. }
  eapply Forall2_Forall_r; [exact Hrows|].
  intros g r Hg (_ & Ht & _ & Hk & _). cbv beta.
  rewrite (Hk Ep1).
  eexists. split; [|split; [reflexivity|]].
  - rewrite Ht. apply (merge_total_value _ Hna g Hg).
  - rewrite (Forall2_filter_sum _ _ _ _ (key1 g) Hkeys).
    now rewrite (group_total_value _ Hna).
Qed.

Lemma group_percentage_totals_witness :
  Forall (fun r =>
            exists t : Z,
              value_at two_keys_result "total" r = Num (inject_Z t)
              /\ t = Z.of_nat
                       (List.length
                          (filter (fun p => cell_eqb (fst p)
                                                     (value_at two_keys_result
                                                               "f" r))
                                  (complete_pairs two_keys "f" "g")))
              /\ Qsum (map (number_at two_keys_result "count")
                           (filter (fun r' =>
                                      cell_eqb (value_at two_keys_result "f" r')
                                               (value_at two_keys_result "f" r))
                                   (rows two_keys_result)))
                 == inject_Z t)
         (rows two_keys_result).
Proof.
  apply (group_percentage_totals two_keys "f" "g").
  - vm_compute. reflexivity.
  - discriminate.
Defined.

(** ** [count_group_total_percentage]: one row per pair of keys *)

Lemma ForallOrdPairs_perm {A} (R : A -> A -> Prop) (l l' : list A) :
  (forall x y, R x y -> R y x) ->
  Permutation l l' -> ForallOrdPairs R l -> ForallOrdPairs R l'.
Proof.
  intros Hsym. induction 1 as [|x l l' Hp IH|x y l|l l' l'' H1 IH1 H2 IH2];
    intros H.
  - constructor.
  - inversion H as [|? ? Hx Hl]; subst. constructor; [|auto].
    eapply Permutation_Forall; eauto.
  - inversion H as [|? ? Hy Hl]; subst.
    inversion Hl as [|? ? Hx Hl']; subst.
    inversion Hy as [|? ? Hyx Hy']; subst.
    constructor; [constructor; auto|]. constructor; assumption.
  - auto.
Qed.

(** X26.  When neither key column is of category dtype (nor called
    [percentage]), the rows of the result stand for the pairs of keys of
    the frame, one row each: every pair of keys that occurs in a row of
    the frame is the key of a row of the result, the keys of the result
    occur in the frame, no two rows of the result have equal keys, and the
    rows come in ascending order of the keys. *)
Theorem group_percentage_keys (tf : TypedFrame)
        (feature_1 feature_2 : string) (out : DataFrame) :
  category_key tf feature_1 = false ->
  category_key tf feature_2 = false ->
  count_group_total_percentage (frame tf) feature_1 feature_2 = Ok out ->
  feature_1 <> "percentage"%string ->
  feature_2 <> "percentage"%string ->
  Forall (fun p => Exists (fun k => pair_eqb p k = true)
                          (map (keys_at out feature_1 feature_2) (rows out)))
         (complete_pairs (frame tf) feature_1 feature_2)
  /\ incl (map (keys_at out feature_1 feature_2) (rows out))
          (complete_pairs (frame tf) feature_1 feature_2)
  /\ ForallOrdPairs (fun p q => pair_eqb p q = false)
                    (map (keys_at out feature_1 feature_2) (rows out))
  /\ Sorted (fun p q => pair_leb p q = true)
            (map (keys_at out feature_1 feature_2) (rows out)).
Proof.
  intros _ _ H Hne1 Hne2. set (df := frame tf) in *.
  apply group_percentage_rows in H as (sizes & Hs & _ & Hrows).
  apply group_sizes_Ok_inv in Hs as (-> & _ & _).
  pose proof (complete_pairs_notna df feature_1 feature_2) as Hna.
  assert (String.eqb "percentage" feature_1 = false) as Ep1.
  { apply String.eqb_neq. congruence. }
  assert (String.eqb "percentage" feature_2 = false) as Ep2.
  { apply String.eqb_neq. congruence. }
  set (ps := complete_pairs df feature_1 feature_2) in *.
  assert (map (keys_at out feature_1 feature_2) (rows out)
          = sort_leb pair_leb (unique_pairs ps)) as ->.
  { transitivity (map (fun g => (key1 g, key2 g)) (groupby_size ps)).
    - symmetry. apply Forall2_map_eq. eapply Forall2_weaken; [|exact Hrows].
      intros g r (_ & _ & _ & Hk1 & Hk2). unfold keys_at.
      now rewrite (Hk1 Ep1), (Hk2 Ep1 Ep2).
    - unfold groupby_size. rewrite map_map. cbn [key1 key2].
      rewrite <- (map_id (sort_leb pair_leb (unique_pairs ps))) at 2.
      apply map_ext. now intros [a b]. }
  pose proof (sort_leb_perm pair_leb (unique_pairs ps)) as Hperm.
  repeat split.
  - apply Forall_forall. intros p Hp. apply Exists_exists.
    destruct (Hna p Hp) as [H1 H2].
    destruct (unique_pairs_cover p ps (pair_eqb_refl p H1 H2) Hp)
      as (g & Hg & Hpg).
    exists g. split; [|exact Hpg].
    apply (Permutation_in _ (Permutation_sym Hperm) Hg).
  - intros k Hk. apply unique_pairs_incl.
    apply (Permutation_in _ Hperm Hk).
  - apply (ForallOrdPairs_perm _ _ _
             (fun x y (E : pair_eqb x y = false) =>
                eq_trans (pair_eqb_sym y x) E)
             (Permutation_sym Hperm)).
    apply unique_pairs_distinct.
  - apply sort_leb_sorted. apply pair_leb_total.
Qed.

Lemma group_percentage_keys_witness :
  Forall (fun p => Exists (fun k => pair_eqb p k = true)
                          (map (keys_at two_keys_result "f" "g")
                               (rows two_keys_result)))
         (complete_pairs two_keys "f" "g")
  /\ incl (map (keys_at two_keys_result "f" "g") (rows two_keys_result))
          (complete_pairs two_keys "f" "g")
  /\ ForallOrdPairs (fun p q => pair_eqb p q = false)
                    (map (keys_at two_keys_result "f" "g")
                         (rows two_keys_result))
  /\ Sorted (fun p q => pair_leb p q = true)
            (map (keys_at two_keys_result "f" "g") (rows two_keys_result)).
Proof.
  apply (group_percentage_keys two_keys_typed "f" "g").
  - reflexivity.
  - reflexivity.
  - vm_compute. reflexivity.
  - discriminate.
  - discriminate.
Defined.

(** X27.  The result has the columns [feature_1], [feature_2], [count],
    [total] and [percentage], except that a key column that is itself
    called [percentage] is not added again: the percentages then stand in
    the place of that key.  Every row is as wide as the list of columns,
    and the rows are numbered from 0. *)
Theorem group_percentage_columns (df : DataFrame)
        (feature_1 feature_2 : string) (out : DataFrame) :
  count_group_total_percentage df feature_1 feature_2 = Ok out ->
  columns out
  = [feature_1; feature_2; "count"%string; "total"%string]
      ++ (if String.eqb "percentage" feature_1
             || String.eqb "percentage" feature_2
          then [] else ["percentage"%string])
  /\ Forall (fun r => List.length (cells r) = List.length (columns out)
                      /\ value_at out "percentage" r
                         = at_col (if String.eqb "percentage" feature_1 then 0
                                   else if String.eqb "percentage" feature_2
                                        then 1 else 4) r)
            (rows out)
  /\ map label (rows out) = map Z.of_nat (seq 0 (List.length (rows out))).
Proof.
  intros H.
  assert (map label (rows out) = map Z.of_nat (seq 0 (List.length (rows out))))
    as Hlab.
  { destruct (group_percentage_rows _ _ _ _ H) as (sizes & _ & Hl & Hrows).
    rewrite Hl. now rewrite (Forall2_length Hrows). }
  split; [|split; [|exact Hlab]]; clear Hlab;
    apply group_percentage_Ok_inv in H
      as (sizes & Hs & E21 & Ec1 & Ec2 & Et1 & Et2 & ->);
    unfold set_column; cbn [columns rows index_of];
    change (String.eqb "percentage" "count") with false;
    change (String.eqb "percentage" "total") with false;
    (destruct (String.eqb "percentage" feature_1) eqn:Ep1;
     [|destruct (String.eqb "percentage" feature_2) eqn:Ep2]);
    cbn [option_map rows columns orb app]; try reflexivity;
    apply Forall_forall; intros r Hr;
    rewrite combine_map, map_map in Hr;
    apply in_map_iff in Hr as (ig & <- & _);
    unfold value_at; cbn [columns index_of cells fst snd set_nth app];
    rewrite ?Ep1, ?Ep2; cbn [option_map];
    change (String.eqb "percentage" "count") with false;
    change (String.eqb "percentage" "total") with false;
    change (String.eqb "percentage" "percentage") with true;
    cbn [option_map]; split; reflexivity.
Qed.

Lemma group_percentage_columns_witness :
  columns two_keys_result
  = ["f"%string; "g"%string; "count"%string; "total"%string]
      ++ (if String.eqb "percentage" "f" || String.eqb "percentage" "g"
          then [] else ["percentage"%string])
  /\ Forall (fun r => List.length (cells r)
                      = List.length (columns two_keys_result)
                      /\ value_at two_keys_result "percentage" r
                         = at_col (if String.eqb "percentage" "f" then 0
                                   else if String.eqb "percentage" "g"
                                        then 1 else 4) r)
            (rows two_keys_result)
  /\ map label (rows two_keys_result)
     = map Z.of_nat (seq 0 (List.length (rows two_keys_result))).
Proof.
  apply (group_percentage_columns two_keys "f" "g").
  vm_compute. reflexivity.
Defined.
